(** * rateslib.solver: the calibration-and-sensitivity engine

    A shallow embedding of [src/rateslib/solver.py] (class [Solver]).

    - Python floats are binary64 primitive floats ([PrimFloat.float]), with
      Python's comparison and arithmetic.
    - numpy arrays are lists with their shape kept beside them ([Mat],
      [Ten3]); an object array of Dual numbers is a [list D].
    - The collaborators the solver only consumes (Dual numbers, curves, FX
      objects, instruments, numpy's linear solvers) are the fields of the
      classes [Collaborators] and [Pricing].
    - A [Solver] object is a record; its methods are state-passing functions
      in the monad [M], where a raised exception keeps the state reached at
      the [raise]. *)

From Stdlib Require Import PrimFloat FloatAxioms SpecFloat ZArith.
From stdpp Require Import gmap strings list pretty.

Set Warnings "-inexact-float,-register-all".
Set Default Proof Using "Type".

(** ** Floats *)

Definition flt (x y : float) : bool := PrimFloat.ltb x y.
Definition fadd (x y : float) : float := PrimFloat.add x y.
Definition fsub (x y : float) : float := PrimFloat.sub x y.
Definition fmul (x y : float) : float := PrimFloat.mul x y.
Definition fdiv (x y : float) : float := PrimFloat.div x y.
Definition fneg (x : float) : float := PrimFloat.opp x.

(** ** numpy arrays of floats *)

Definition vec := list float.

(** A 2-d array: [shape] and the rows. *)
Record Mat := mkMat { nrows : nat; ncols : nat; cells : list (list float) }.

(** A 3-d array: shape [(d0, d1, d2)] and the planes along axis 0. *)
Record Ten3 := mkTen3 { dim0 : nat; dim1 : nat; dim2 : nat;
                        planes : list (list (list float)) }.

Definition fsum (xs : vec) : float := foldl fadd 0%float xs.

(** [np.dot] of two 1-d float arrays. *)
Definition dot (u v : vec) : float := fsum (zip_with fmul u v).

Definition vscale (c : float) (v : vec) : vec := map (fmul c) v.
Definition vneg (v : vec) : vec := map fneg v.
Definition vmul (u v : vec) : vec := zip_with fmul u v.
Definition vadd (u v : vec) : vec := zip_with fadd u v.
Definition vdiv_scalar (v : vec) (c : float) : vec := map (fun x => fdiv x c) v.

(** [np.array(rows)] for a list of equally long rows. *)
Definition of_rows (rows : list (list float)) : Mat :=
  mkMat (length rows) (length (hd [] rows)) rows.

Definition mat_get (A : Mat) (i j : nat) : float :=
  nth j (nth i (cells A) []) 0%float.

Definition mat_col (A : Mat) (j : nat) : vec :=
  map (fun row => nth j row 0%float) (cells A).

(** [np.zeros(shape=(r, c))]. *)
Definition zeros (r c : nat) : Mat := mkMat r c (replicate r (replicate c 0%float)).

(** [A.T] / [A.transpose()]. *)
Definition transpose (A : Mat) : Mat :=
  mkMat (ncols A) (nrows A) (map (mat_col A) (seq 0 (ncols A))).

(** [np.matmul(A, B)] for 2-d arrays whose inner dimensions agree. *)
Definition matmul (A B : Mat) : Mat :=
  mkMat (nrows A) (ncols B)
        (map (fun row => map (fun j => dot row (mat_col B j)) (seq 0 (ncols B)))
             (cells A)).

(** [np.matmul(A, v)] for a 1-d [v]. *)
Definition matvec (A : Mat) (v : vec) : vec := map (fun row => dot row v) (cells A).

(** [np.diag(w)]. *)
Definition diag (w : vec) : Mat :=
  mkMat (length w) (length w)
        (imap (fun i x => imap (fun j _ => if Nat.eqb i j then x else 0%float) w) w).

(** [np.eye(n)]. *)
Definition eye (n : nat) : Mat :=
  mkMat n n (map (fun i => map (fun j => if Nat.eqb i j then 1%float else 0%float)
                               (seq 0 n)) (seq 0 n)).

Definition mat_map (f : float -> float) (A : Mat) : Mat :=
  mkMat (nrows A) (ncols A) (map (map f) (cells A)).

Definition mat_zip (f : float -> float -> float) (A B : Mat) : Mat :=
  mkMat (nrows A) (ncols A) (zip_with (zip_with f) (cells A) (cells B)).

Definition mat_scale (c : float) (A : Mat) : Mat := mat_map (fmul c) A.
Definition mat_add (A B : Mat) : Mat := mat_zip fadd A B.

(** *** Slices and slice assignment *)

(** Python's [a:b] on an axis of length [len], both bounds given and
    non-negative: the half-open range clamped to the axis. *)
Definition slice_range (a b len : nat) : nat * nat :=
  let a' := min a len in (a', max a' (min b len)).

(** Python's [-k:] on an axis of length [len]: the last [k] positions, and
    the whole axis when [k = 0] (then [-k] is [0]). *)
Definition tail_range (k len : nat) : nat * nat :=
  ((if Nat.eqb k 0 then 0 else len - k), len).

(** Python's [:] on an axis. *)
Definition full_range (len : nat) : nat * nat := (0, len).

(** numpy broadcasts a source axis of length [src] to a target of length
    [dst] when they are equal or [src] is 1. *)
Definition broadcastable (src dst : nat) : bool :=
  Nat.eqb src dst || Nat.eqb src 1.

(** The source row or entry feeding target position [k]. *)
Definition bidx (src k : nat) : nat := if Nat.eqb src 1 then 0 else k.

(** Overwrite positions [a..b) of [l] with [f k old] for [k] counted from
    the start of the range. *)
Definition update_range {A} (a b : nat) (f : nat -> A -> A) (l : list A) : list A :=
  take a l ++ imap f (take (b - a) (drop a l)) ++ drop b l.

(** [A[r0:r1, c0:c1] = B] on already resolved ranges: [None] is numpy's
    "could not broadcast" [ValueError]. *)
Definition assign_block (A : Mat) (rr cr : nat * nat) (B : Mat) : option Mat :=
  let '(r0, r1) := rr in
  let '(c0, c1) := cr in
  if broadcastable (nrows B) (r1 - r0) && broadcastable (ncols B) (c1 - c0) then
    Some (mkMat (nrows A) (ncols A)
            (update_range r0 r1
               (fun i row =>
                  update_range c0 c1
                    (fun j _ => mat_get B (bidx (nrows B) i) (bidx (ncols B) j)) row)
               (cells A)))
  else None.

(** The rows of a 2-d array agree with its shape. *)
Definition wf_mat (A : Mat) : Prop :=
  length (cells A) = nrows A /\ Forall (fun row => length row = ncols A) (cells A).

(** ** 3-d arrays *)

Definition ten_get (T : Ten3) (i j k : nat) : float :=
  nth k (nth j (nth i (planes T) []) []) 0%float.

Definition ten_build (d0 d1 d2 : nat) (f : nat -> nat -> nat -> float) : Ten3 :=
  mkTen3 d0 d1 d2
    (map (fun i => map (fun j => map (fun k => f i j k) (seq 0 d2)) (seq 0 d1)) (seq 0 d0)).

Definition ten_zeros (d0 d1 d2 : nat) : Ten3 := ten_build d0 d1 d2 (fun _ _ _ => 0%float).

(** [np.array(ms)] for a list of equally shaped 2-d arrays. *)
Definition ten_of_mats (ms : list Mat) : Ten3 :=
  mkTen3 (length ms) (nrows (hd (zeros 0 0) ms)) (ncols (hd (zeros 0 0) ms)) (map cells ms).

(** [np.transpose(T, (1, 2, 0))]: axis [a] of the result is axis
    [(1,2,0)[a]] of [T]. *)
Definition ten_transpose_120 (T : Ten3) : Ten3 :=
  ten_build (dim1 T) (dim2 T) (dim0 T) (fun i j k => ten_get T k i j).

(** [np.swapaxes(T, 0, 1)]. *)
Definition ten_swapaxes_01 (T : Ten3) : Ten3 :=
  ten_build (dim1 T) (dim0 T) (dim2 T) (fun i j k => ten_get T j i k).

Definition sum_over (n : nat) (f : nat -> float) : float := fsum (map f (seq 0 n)).

(** [np.tensordot(T, G, (2, 0))]: contract axis 2 of [T] with axis 0 of [G]. *)
Definition tensordot_T2_G0 (T : Ten3) (G : Mat) : Ten3 :=
  ten_build (dim0 T) (dim1 T) (ncols G)
    (fun i j k => sum_over (dim2 T) (fun l => fmul (ten_get T i j l) (mat_get G l k))).

(** [np.tensordot(G, T, (1, 0))]: contract axis 1 of [G] with axis 0 of [T]. *)
Definition tensordot_G1_T0 (G : Mat) (T : Ten3) : Ten3 :=
  ten_build (nrows G) (dim1 T) (dim2 T)
    (fun a j k => sum_over (ncols G) (fun z => fmul (mat_get G a z) (ten_get T z j k))).

(** [np.tensordot(G, T, (1, 1))]: contract axis 1 of [G] with axis 1 of [T];
    the result has axes (G's 0, T's 0, T's 2). *)
Definition tensordot_G1_T1 (G : Mat) (T : Ten3) : Ten3 :=
  ten_build (nrows G) (dim0 T) (dim2 T)
    (fun b a k => sum_over (ncols G) (fun h => fmul (mat_get G b h) (ten_get T a h k))).

(** [np.matmul(T, g[:, None])[:, :, 0]]: contract the last axis with [g]. *)
Definition ten_matvec (T : Ten3) (g : vec) : Mat :=
  mkMat (dim0 T) (dim1 T) (map (map (fun row => dot row g)) (planes T)).

Definition ten_map (f : float -> float) (T : Ten3) : Ten3 :=
  mkTen3 (dim0 T) (dim1 T) (dim2 T) (map (map (map f)) (planes T)).

Definition ten_zip (f : float -> float -> float) (S T : Ten3) : Ten3 :=
  mkTen3 (dim0 S) (dim1 S) (dim2 S) (zip_with (zip_with (zip_with f)) (planes S) (planes T)).

(** [T[a0:a1, b0:b1, c0:c1] = B] on resolved ranges, with numpy's
    broadcasting of a 3-d source; [None] is the "could not broadcast"
    [ValueError]. *)
Definition assign_block3 (T : Ten3) (ar br cr : nat * nat) (B : Ten3) : option Ten3 :=
  let '(a0, a1) := ar in
  let '(b0, b1) := br in
  let '(c0, c1) := cr in
  if broadcastable (dim0 B) (a1 - a0) && broadcastable (dim1 B) (b1 - b0)
     && broadcastable (dim2 B) (c1 - c0) then
    Some (mkTen3 (dim0 T) (dim1 T) (dim2 T)
            (update_range a0 a1
               (fun i pl =>
                  update_range b0 b1
                    (fun j row =>
                       update_range c0 c1
                         (fun k _ => ten_get B (bidx (dim0 B) i) (bidx (dim1 B) j)
                                              (bidx (dim2 B) k)) row) pl)
               (planes T)))
  else None.

(** ** Exceptions *)

Inductive Exn :=
| ValueError (msg : string)
| NotImplementedError (msg : string)
| AttributeError (msg : string)
| LinAlgError
| IndexError
| TypeError.

Inductive Res (A : Type) := Ok (a : A) | Raise (e : Exn).
Arguments Ok {A} a.
Arguments Raise {A} e.

(** ** The collaborators *)

(** Modelled from the spec: the automatic-differentiation scalar ([Dual],
    [Dual2] of [rateslib.dual]) is "an arithmetic value supporting [+,-,*,/],
    real-part extraction, and [gradient(variable_tags, order)]"; the curve is
    "an ordered node collection, a solver-controlled sub-range starting at an
    offset, a differentiation-order setter and a recompute operation"; the
    instrument exposes a pricing operation and a rate scalar.  Their sources
    are not part of [solver.py]; the solver reaches them only through the
    operations below.  numpy's linear solvers are taken the same way: [None]
    is [numpy.linalg.LinAlgError]. *)
Class Collaborators := {
  D : Type;
  dreal : D -> float;                       (* d.real *)
  dvars : D -> list string;                 (* d.vars *)
  dmake : Z -> float -> list string -> D;   (* Dual(x, vars) at order 1, Dual2(x, vars) at order 2 *)
  dconst : float -> D;                      (* a float met by a Dual operand *)
  dadd : D -> D -> D;
  dsub : D -> D -> D;
  dmul : D -> D -> D;
  ddiv : D -> D -> D;
  dneg : D -> D;
  dgradient : D -> list string -> vec;      (* d.gradient(vars) *)
  dgradient2 : D -> list string -> Mat;     (* d.gradient(vars, order=2) *)
  dreal_dmake : forall o x vs, dreal (dmake o x vs) = x;
  dgradient_length : forall d vs, length (dgradient d vs) = length vs;
  Instrument : Type;
  _rate_scalar : Instrument -> float;
  PyArg : Type;                             (* a positional or keyword pricing argument *)
  CurveAux : Type;                          (* a curve's derived internal state *)
  curve_recompute : list D -> CurveAux -> CurveAux;
  curve_set_order : Z -> list D -> CurveAux -> list D * CurveAux;
  FXState : Type;
  linalg_solve : Mat -> vec -> option vec;          (* np.linalg.solve(A, b[:, None])[:, 0] *)
  linalg_solve_mat : Mat -> Mat -> option Mat;      (* np.linalg.solve(A, B) *)
  linalg_pinv : Mat -> Mat;                         (* np.linalg.pinv(A) *)
  dual_solve : Mat -> list D -> option (list D);    (* dual_solve(A, b[:, None])[:, 0] *)
}.

Section Model.
Context {C : Collaborators}.

(** An entry of a target array: a float, or a Dual once re-tagged. *)
Inductive Num := Flt (x : float) | Dl (d : D).

Definition num_real (a : Num) : float :=
  match a with Flt x => x | Dl d => dreal d end.

Definition to_dual (a : Num) : D :=
  match a with Flt x => dconst x | Dl d => d end.

(** [np.dot] of a float array with an object array of Duals. *)
Definition dot_fD (u : vec) (ds : list D) : D :=
  foldl dadd (dconst 0%float) (zip_with (fun a d => dmul (dconst a) d) u ds).

(** [np.dot] of two object arrays of Duals. *)
Definition dot_DD (xs ys : list D) : D :=
  foldl dadd (dconst 0%float) (zip_with dmul xs ys).

(** A curve: its [id], its nodes in node-date order, the offset
    [_ini_solve] of the first solver-controlled node. *)
Record Curve := mkCurve {
  curve_id : string;
  nodes : list D;
  _ini_solve : nat;
  curve_aux : CurveAux;
}.

(** [curve.csolve()]: recompute the derived state from the nodes. *)
Definition csolve (c : Curve) : Curve :=
  mkCurve (curve_id c) (nodes c) (_ini_solve c) (curve_recompute (nodes c) (curve_aux c)).

(** [curve._set_ad_order(order)]. *)
Definition curve_set_ad_order (order : Z) (c : Curve) : Curve :=
  let '(nd, aux) := curve_set_order order (nodes c) (curve_aux c) in
  mkCurve (curve_id c) nd (_ini_solve c) aux.

(** An [FXForwards] object: its identity, its pairs and its state. *)
Record FX := mkFX { fx_ref : nat; fx_pairs : list string; fx_state : FXState }.

(** A value of a keyword-argument dict.  Objects held by reference are
    named: a solver by its [id], an FX object by its identity. *)
Inductive KwVal :=
| KwNone
| KwSolver (ref : string)
| KwFx (ref : nat)
| KwArg (a : PyArg).

Definition kw_of_fx (o : option FX) : KwVal :=
  match o with Some f => KwFx (fx_ref f) | None => KwNone end.

(** What an instrument can read of a solver object handed to it as
    pricing context: its [id], the curves of [pre_curves], its FX object and
    its differentiation order. *)
Record SolverView := mkView {
  view_id : string;
  view_curves : list Curve;
  view_fx : option FX;
  view_ad : Z;
}.

(** Modelled from the spec: the instrument's pricing operation "accepting
    positional/keyword arguments including solver and FX context, returning a
    differentiable scalar".  The last argument holds the solver objects
    alive at the call, which the keyword arguments name; [fx_update] and
    [fx_set_ad_order] are the FX object's [update()] and [_set_ad_order()],
    which read the curves the FX object shares with the solver. *)
Class Pricing := {
  rate : Instrument -> list PyArg -> gmap string KwVal -> list SolverView -> D;
  fx_update : list Curve -> FX -> FX;
  fx_set_ad_order : Z -> FX -> FX;
}.

Context {P : Pricing}.

(** A parsed instrument: [(instrument, positional args, keyword args)]. *)
Definition Triple : Type := Instrument * list PyArg * gmap string KwVal.

(** What a caller may hand to [Solver] as one instrument: an object that
    is not a tuple, or a tuple of items. *)
Inductive TupItem :=
| ItNone
| ItInst (i : Instrument)
| ItArgs (a : list PyArg)
| ItKw (k : gmap string KwVal).

Inductive InstrumentSpec :=
| Bare (i : Instrument)
| Tup (items : list TupItem).

(** The attributes fixed by [__init__]. *)
Record Config := mkConfig {
  cfg_id : string;
  cfg_algorithm : string;
  cfg_func_tol : float;
  cfg_conv_tol : float;
  cfg_max_iter : nat;
  cfg_weights : vec;
  cfg_instrument_labels : list string;
  cfg_variables : list string;
  cfg_pre_variables : list string;
  cfg_pre_instrument_labels : list (string * string);
  cfg_pre_rate_scalars : vec;
  cfg_rate_scalars : vec;
  cfg_m : nat;
  cfg_n : nat;
  cfg_pre_m : nat;
  cfg_pre_n : nat;
  cfg_instruments : list Triple;
  cfg_grad_s_vT_method : string;
  cfg_grad_s_vT_final_iteration_algo : string;
}.

(** The calculated attributes reset by [_reset_properties_]. *)
Record Cache := mkCache {
  _v : option (list D);
  _r : option (list D);
  _x : option (list D);
  _f : option D;
  _J : option Mat;
  _grad_s_vT : option Mat;
  _grad_s_vT_pre : option Mat;
  _J2 : option Ten3;
  _J2_pre : option Ten3;
  _grad_s_s_vT : option Ten3;
  _grad_s_s_vT_pre : option Ten3;
}.

(** The attributes [iterate] creates and updates. *)
Record IterState := mkIter {
  f_prev : float;
  f_list : list float;
  lambd : float;
}.

(** A [Solver] object.  [pre_solvers] holds the solver objects of the
    dependency chain; [s] the target array; [curves] the dict of owned
    curves in insertion order. *)
Inductive Solver := mkSolver {
  cfg : Config;
  pre_solvers : list Solver;
  s : list Num;
  curves : list Curve;
  fx : option FX;
  _ad : Z;
  it_state : IterState;
  cache : Cache;
}.

Definition solver_id (st : Solver) : string := cfg_id (cfg st).
Definition algorithm (st : Solver) : string := cfg_algorithm (cfg st).
Definition func_tol (st : Solver) : float := cfg_func_tol (cfg st).
Definition conv_tol (st : Solver) : float := cfg_conv_tol (cfg st).
Definition max_iter (st : Solver) : nat := cfg_max_iter (cfg st).
Definition weights (st : Solver) : vec := cfg_weights (cfg st).
Definition W (st : Solver) : Mat := diag (weights st).
Definition variables (st : Solver) : list string := cfg_variables (cfg st).
Definition pre_variables (st : Solver) : list string := cfg_pre_variables (cfg st).
Definition pre_instrument_labels (st : Solver) := cfg_pre_instrument_labels (cfg st).
Definition pre_rate_scalars (st : Solver) : vec := cfg_pre_rate_scalars (cfg st).
Definition m (st : Solver) : nat := cfg_m (cfg st).
Definition n (st : Solver) : nat := cfg_n (cfg st).
Definition pre_m (st : Solver) : nat := cfg_pre_m (cfg st).
Definition pre_n (st : Solver) : nat := cfg_pre_n (cfg st).
Definition instruments (st : Solver) : list Triple := cfg_instruments (cfg st).

(** The values of the dict [self.pre_curves]: the curves of the chain,
    then the solver's own. *)
Fixpoint pre_curves (st : Solver) : list Curve :=
  concat (map pre_curves (pre_solvers st)) ++ curves st.

Definition view_of (st : Solver) : SolverView :=
  mkView (solver_id st) (pre_curves st) (fx st) (_ad st).

Definition set_pre_solvers (ps : list Solver) (st : Solver) : Solver :=
  mkSolver (cfg st) ps (s st) (curves st) (fx st) (_ad st) (it_state st) (cache st).
Definition set_s (x : list Num) (st : Solver) : Solver :=
  mkSolver (cfg st) (pre_solvers st) x (curves st) (fx st) (_ad st) (it_state st) (cache st).
Definition set_curves (cs : list Curve) (st : Solver) : Solver :=
  mkSolver (cfg st) (pre_solvers st) (s st) cs (fx st) (_ad st) (it_state st) (cache st).
Definition set_fx (o : option FX) (st : Solver) : Solver :=
  mkSolver (cfg st) (pre_solvers st) (s st) (curves st) o (_ad st) (it_state st) (cache st).
Definition set_ad (order : Z) (st : Solver) : Solver :=
  mkSolver (cfg st) (pre_solvers st) (s st) (curves st) (fx st) order (it_state st) (cache st).
Definition set_iter (it : IterState) (st : Solver) : Solver :=
  mkSolver (cfg st) (pre_solvers st) (s st) (curves st) (fx st) (_ad st) it (cache st).
Definition set_cache (c : Cache) (st : Solver) : Solver :=
  mkSolver (cfg st) (pre_solvers st) (s st) (curves st) (fx st) (_ad st) (it_state st) c.

Definition set_v (o : option (list D)) (c : Cache) : Cache :=
  mkCache o (_r c) (_x c) (_f c) (_J c) (_grad_s_vT c) (_grad_s_vT_pre c)
          (_J2 c) (_J2_pre c) (_grad_s_s_vT c) (_grad_s_s_vT_pre c).
Definition set_r (o : option (list D)) (c : Cache) : Cache :=
  mkCache (_v c) o (_x c) (_f c) (_J c) (_grad_s_vT c) (_grad_s_vT_pre c)
          (_J2 c) (_J2_pre c) (_grad_s_s_vT c) (_grad_s_s_vT_pre c).
Definition set_x (o : option (list D)) (c : Cache) : Cache :=
  mkCache (_v c) (_r c) o (_f c) (_J c) (_grad_s_vT c) (_grad_s_vT_pre c)
          (_J2 c) (_J2_pre c) (_grad_s_s_vT c) (_grad_s_s_vT_pre c).
Definition set_f (o : option D) (c : Cache) : Cache :=
  mkCache (_v c) (_r c) (_x c) o (_J c) (_grad_s_vT c) (_grad_s_vT_pre c)
          (_J2 c) (_J2_pre c) (_grad_s_s_vT c) (_grad_s_s_vT_pre c).
Definition set_J (o : option Mat) (c : Cache) : Cache :=
  mkCache (_v c) (_r c) (_x c) (_f c) o (_grad_s_vT c) (_grad_s_vT_pre c)
          (_J2 c) (_J2_pre c) (_grad_s_s_vT c) (_grad_s_s_vT_pre c).
Definition set_grad_s_vT (o : option Mat) (c : Cache) : Cache :=
  mkCache (_v c) (_r c) (_x c) (_f c) (_J c) o (_grad_s_vT_pre c)
          (_J2 c) (_J2_pre c) (_grad_s_s_vT c) (_grad_s_s_vT_pre c).
Definition set_grad_s_vT_pre (o : option Mat) (c : Cache) : Cache :=
  mkCache (_v c) (_r c) (_x c) (_f c) (_J c) (_grad_s_vT c) o
          (_J2 c) (_J2_pre c) (_grad_s_s_vT c) (_grad_s_s_vT_pre c).
Definition set_J2 (o : option Ten3) (c : Cache) : Cache :=
  mkCache (_v c) (_r c) (_x c) (_f c) (_J c) (_grad_s_vT c) (_grad_s_vT_pre c)
          o (_J2_pre c) (_grad_s_s_vT c) (_grad_s_s_vT_pre c).
Definition set_J2_pre (o : option Ten3) (c : Cache) : Cache :=
  mkCache (_v c) (_r c) (_x c) (_f c) (_J c) (_grad_s_vT c) (_grad_s_vT_pre c)
          (_J2 c) o (_grad_s_s_vT c) (_grad_s_s_vT_pre c).
Definition set_grad_s_s_vT (o : option Ten3) (c : Cache) : Cache :=
  mkCache (_v c) (_r c) (_x c) (_f c) (_J c) (_grad_s_vT c) (_grad_s_vT_pre c)
          (_J2 c) (_J2_pre c) o (_grad_s_s_vT_pre c).
Definition set_grad_s_s_vT_pre (o : option Ten3) (c : Cache) : Cache :=
  mkCache (_v c) (_r c) (_x c) (_f c) (_J c) (_grad_s_vT c) (_grad_s_vT_pre c)
          (_J2 c) (_J2_pre c) (_grad_s_s_vT c) o.

(** ** The method monad *)

(** A method of a solver object: it reads and mutates the object, and
    returns a value or raises. *)
Definition M (A : Type) : Type := Solver -> Res A * Solver.

Definition ret {A} (a : A) : M A := fun st => (Ok a, st).
Definition raise {A} (e : Exn) : M A := fun st => (Raise e, st).
Definition bind {A B} (c : M A) (k : A -> M B) : M B :=
  fun st => match c st with
            | (Ok a, st') => k a st'
            | (Raise e, st') => (Raise e, st')
            end.
Definition gets {A} (f : Solver -> A) : M A := fun st => (Ok (f st), st).
Definition modify (f : Solver -> Solver) : M unit := fun st => (Ok tt, f st).
Definition of_option {A} (e : Exn) (o : option A) : M A :=
  match o with Some a => ret a | None => raise e end.

Notation "'let*' x ':=' c 'in' k" := (bind c (fun x => k))
  (at level 10, x pattern, c at level 100, k at level 200).
Notation "c1 ';;' c2" := (bind c1 (fun _ => c2))
  (at level 100, c2 at level 200, right associativity).

(** A lazily computed attribute: [if self._a is None: self._a = ...;
    return self._a]. *)
Definition cached {A} (read : Cache -> option A) (write : option A -> Cache -> Cache)
    (compute : M A) : M A :=
  let* o := gets (fun st => read (cache st)) in
  match o with
  | Some a => ret a
  | None =>
      let* a := compute in
      modify (fun st => set_cache (write (Some a) (cache st)) st);;
      ret a
  end.

(** [for x in xs: body(x)], stopping at the first exception. *)
Fixpoint for_each {A} (xs : list A) (body : A -> M unit) : M unit :=
  match xs with
  | [] => ret tt
  | x :: xs' => body x;; for_each xs' body
  end.

(** Run a method of the [k]-th object of [self.pre_solvers]. *)
Definition on_pre {A} (k : nat) (c : M A) : M A :=
  fun st => match pre_solvers st !! k with
            | Some p => let '(r, p') := c p in
                        (r, set_pre_solvers (<[k := p']> (pre_solvers st)) st)
            | None => (Raise IndexError, st)
            end.

(** ** [_reset_properties_] *)

Definition reset_cache (dual2_only : bool) (c : Cache) : Cache :=
  let c1 := if dual2_only then c
            else set_grad_s_vT_pre None (set_grad_s_vT None (set_J None (set_f None
                   (set_x None (set_r None (set_v None c)))))) in
  set_grad_s_s_vT_pre None (set_grad_s_s_vT None (set_J2_pre None (set_J2 None c1))).

Definition _reset_properties_ (dual2_only : bool) : M unit :=
  modify (fun st => set_cache (reset_cache dual2_only (cache st)) st).

(** ** The calculated attributes

    The arrays below are those of a solver with at least one instrument.
    With no instruments numpy builds 1-d arrays where the definitions have
    empty matrices and tensors, and [f] is a plain float: the statements
    about steps, about [J2] and about [gamma] returning assume
    [instruments st <> []]. *)

(** The solver-controlled nodes of each curve, in order:
    [list(curve.nodes.values())[curve._ini_solve:]] for each curve. *)
Definition controlled_nodes (cs : list Curve) : list D :=
  concat (map (fun c => drop (_ini_solve c) (nodes c)) cs).

(** [Solver.v]. *)
Definition v : M (list D) :=
  cached _v set_v (gets (fun st => controlled_nodes (curves st))).

(** The list comprehension pricing every parsed instrument with its own
    positional and keyword arguments. *)
Definition price_all (st : Solver) : list D :=
  map (fun t : Triple => rate t.1.1 t.1.2 t.2 [view_of st]) (instruments st).

(** [Solver.r]. *)
Definition r : M (list D) := cached _r set_r (gets price_all).

(** [Solver.x]: [self.r - self.s]. *)
Definition x : M (list D) :=
  cached _x set_x
    (let* rs := r in
     let* ss := gets s in
     ret (zip_with (fun ri si => dsub ri (to_dual si)) rs ss)).

(** [Solver.f]: [np.dot(self.x, self.weights * self.x)]. *)
Definition f : M D :=
  cached _f set_f
    (let* x1 := x in
     let* w := gets weights in
     let* x2 := x in
     ret (dot_DD x1 (zip_with (fun wi xi => dmul (dconst wi) xi) w x2))).

(** [Solver.J]: [np.array([rate.gradient(self.variables) for rate in self.r]).T]. *)
Definition J : M Mat :=
  cached _J set_J
    (let* rs := r in
     let* vars := gets variables in
     ret (transpose (of_rows (map (fun ri => dgradient ri vars) rs)))).

Definition msg_ad_mode : string :=
  "Cannot perform second derivative calculations when ad mode is {self._ad}.".

(** [Solver.J2]. *)
Definition J2 : M Ten3 :=
  cached _J2 set_J2
    (let* ad := gets _ad in
     if decide (ad <> 2%Z) then raise (ValueError msg_ad_mode)
     else
       let* rates := gets price_all in
       let* vars := gets variables in
       ret (ten_transpose_120 (ten_of_mats (map (fun ri => dgradient2 ri vars) rates)))).

(** [self.weights * xs] for an object array [xs]. *)
Definition weighted (w : vec) (xs : list D) : list D :=
  zip_with (fun wi xi => dmul (dconst wi) xi) w xs.

(** [self.v + delta] for a float array [delta]. *)
Definition add_delta (vs : list D) (delta : vec) : list D :=
  zip_with (fun vi di => dadd vi (dconst di)) vs delta.

Definition msg_algorithm (algorithm : string) : string :=
  "`algorithm`: " +:+ algorithm +:+ " (spelled correctly?)".

Definition set_lambd (l : float) (st : Solver) : Solver :=
  set_iter (mkIter (f_prev (it_state st)) (f_list (it_state st)) l) st.
Definition set_f_prev (a : float) (st : Solver) : Solver :=
  set_iter (mkIter a (f_list (it_state st)) (lambd (it_state st))) st.
Definition append_f_list (a : float) (st : Solver) : Solver :=
  set_iter (mkIter (f_prev (it_state st)) (f_list (it_state st) ++ [a]) (lambd (it_state st))) st.

(** [Solver._update_step_].  Every attribute read more than once in a
    branch ([self.J], [self.f], [self.x]) is a cached property: the reads
    after the first return the cached value and change nothing, so each is
    bound once.  How [dual_solve] fails is not fixed by this file: its
    failure is written [LinAlgError] here, like the one of
    [np.linalg.solve], and no theorem below states which exception it
    is. *)
Definition _update_step_ (algorithm : string) : M (list D) :=
  if decide (algorithm = "gradient_descent") then
    let* f0 := f in
    let* vars := gets variables in
    let grad_v_f := dgradient f0 vars in
    let* J0 := J in
    let y := matvec (transpose J0) grad_v_f in
    let* w := gets weights in
    let* x0 := x in
    let alpha := ddiv (dot_fD y (weighted w x0)) (dconst (dot y (vmul w y))) in
    let* v0 := v in
    ret (zip_with (fun vi gi => dsub vi (dconst (fmul gi (dreal alpha)))) v0 grad_v_f)
  else if decide (algorithm = "gauss_newton") then
    let* J0 := J in
    let* Ab :=
      if Nat.eqb (nrows J0) (ncols J0) then
        let* x0 := x in
        ret (transpose J0, vneg (map dreal x0))
      else
        let* Wm := gets W in
        let* f0 := f in
        let* vars := gets variables in
        ret (matmul J0 (matmul Wm (transpose J0)),
             vscale (-0.5)%float (dgradient f0 vars)) in
    let* delta := of_option LinAlgError (linalg_solve Ab.1 Ab.2) in
    let* v0 := v in
    ret (add_delta v0 delta)
  else if decide (algorithm = "levenberg_marquardt") then
    let* l0 := gets (fun st => lambd (it_state st)) in
    let* fp := gets (fun st => f_prev (it_state st)) in
    let* f0 := f in
    modify (set_lambd (fmul l0 (if flt fp (dreal f0) then 2%float else 0.25%float)));;
    let* J0 := J in
    let* Wm := gets W in
    let A := matmul J0 (matmul Wm (transpose J0)) in
    let* l1 := gets (fun st => lambd (it_state st)) in
    let* n0 := gets n in
    let A := mat_add A (mat_scale l1 (eye n0)) in
    let* vars := gets variables in
    let b := vscale (-0.5)%float (dgradient f0 vars) in
    let* delta := of_option LinAlgError (linalg_solve A b) in
    let* v0 := v in
    ret (add_delta v0 delta)
  else if decide (algorithm = "gauss_newton_final") then
    let* J0 := J in
    let A := transpose J0 in
    let* x0 := x in
    let b := map dneg x0 in
    let* delta := of_option LinAlgError (dual_solve A b) in
    let* v0 := v in
    ret (zip_with dadd v0 delta)
  else raise (NotImplementedError (msg_algorithm algorithm)).

(** [Solver._update_fx]. *)
Definition _update_fx : M unit :=
  modify (fun st => match fx st with
                    | Some o => set_fx (Some (fx_update (pre_curves st) o)) st
                    | None => st
                    end).

(** The terminal state of [iterate], which the source only prints:
    "SUCCESS: `conv_tol` reached after i iterations", "SUCCESS: `func_tol`
    reached after i iterations", or "FAILURE: `max_iter` ... breached". *)
Inductive Outcome :=
| ConvTolReached (i : nat)
| FuncTolReached (i : nat)
| MaxIterBreached.

(** The inner loop over [curve.node_dates[curve._ini_solve:]]: node [nd]
    becomes [DualType(v_1[k].real, nd.vars)]; [None] for the counter is the
    [IndexError] of [v_1[k]], after which nothing more is written. *)
Fixpoint retag_nodes (order : Z) (v_1 : list D) (k : nat) (nds : list D)
    : list D * option nat :=
  match nds with
  | [] => ([], Some k)
  | nd :: rest =>
      match v_1 !! k with
      | None => (nd :: rest, None)
      | Some a =>
          let '(rest', k') := retag_nodes order v_1 (S k) rest in
          (dmake order (dreal a) (dvars nd) :: rest', k')
      end
  end.

(** The outer loop over [self.curves.items()], each curve recomputed by
    [csolve()] once its nodes are written. *)
Fixpoint retag_curves (order : Z) (v_1 : list D) (k : nat) (cs : list Curve)
    : list Curve * option nat :=
  match cs with
  | [] => ([], Some k)
  | c :: cs' =>
      let '(nds, k') := retag_nodes order v_1 k (drop (_ini_solve c) (nodes c)) in
      let c1 := mkCurve (curve_id c) (take (_ini_solve c) (nodes c) ++ nds)
                        (_ini_solve c) (curve_aux c) in
      match k' with
      | None => (c1 :: cs', None)
      | Some k2 =>
          let '(cs2, k3) := retag_curves order v_1 k2 cs' in
          (csolve c1 :: cs2, k3)
      end
  end.

Definition update_curves (order : Z) (v_1 : list D) : M unit :=
  let* cs := gets curves in
  let res := retag_curves order v_1 0 cs in
  modify (set_curves res.1);;
  match res.2 with
  | Some _ => ret tt
  | None => raise IndexError
  end.

(** One pass of the body of [for i in range(self.max_iter)]: [Some o] when
    the method returns from inside the loop, [None] when the loop goes on. *)
Definition iterate_cycle (order : Z) (i : nat) : M (option Outcome) :=
  let* f0 := f in
  let f_val := dreal f0 in
  modify (append_f_list f_val);;
  let* fp := gets (fun st => f_prev (it_state st)) in
  let* ct := gets conv_tol in
  if flt f_val fp && flt (fsub fp f_val) ct then ret (Some (ConvTolReached i))
  else
    let* ft := gets func_tol in
    if flt f_val ft then ret (Some (FuncTolReached i))
    else
      modify (set_f_prev f_val);;
      let* alg := gets algorithm in
      let* v_1 := _update_step_ alg in
      update_curves order v_1;;
      _reset_properties_ false;;
      _update_fx;;
      ret None.

(** The loop, [left] passes to go; after the last pass the FAILURE line is
    printed, which reads [self.f.real]. *)
Fixpoint iterate_loop (order : Z) (left : nat) (i : nat) : M Outcome :=
  match left with
  | O => let* _ := f in ret MaxIterBreached
  | S left' =>
      let* o := iterate_cycle order i in
      match o with
      | Some out => ret out
      | None => iterate_loop order left' (S i)
      end
  end.

(** [k] passes of the loop from pass number [i], none of which returns
    from the method or raises: the state they leave. *)
Fixpoint run_cycles (order : Z) (k i : nat) (st : Solver) : option Solver :=
  match k with
  | O => Some st
  | S k' =>
      match iterate_cycle order i st with
      | (Ok None, st') => run_cycles order k' (S i) st'
      | _ => None
      end
  end.

(** [DualType = Dual if self._ad == 1 else Dual2]. *)
Definition dual_type (st : Solver) : Z := if decide (_ad st = 1%Z) then 1%Z else 2%Z.

(** [Solver.iterate]. *)
Definition iterate : M Outcome :=
  let* order := gets dual_type in
  modify (set_iter (mkIter 1e10%float [] 1000%float));;
  _reset_properties_ false;;
  _update_fx;;
  let* mi := gets max_iter in
  iterate_loop order mi 0.

(** The state in which the loop of [iterate] is entered. *)
Definition iterate_entry (st : Solver) : Solver :=
  snd ((modify (set_iter (mkIter 1e10%float [] 1000%float));;
        _reset_properties_ false;;
        _update_fx) st).

(** [Solver._set_ad_order]. *)
Fixpoint _set_ad_order (order : Z) (st : Solver) : Solver :=
  mkSolver (cfg st)
           (map (_set_ad_order order) (pre_solvers st))
           (s st)
           (map (curve_set_ad_order order) (curves st))
           (fx_set_ad_order order <$> fx st)
           order
           (it_state st)
           (cache st).

(** ** First-order sensitivities *)

(** The tag [f"s{i}"]. *)
Definition s_tag (i : nat) : string := "s" +:+ pretty i.

(** [[DualType(v, f"s{i}") for i, v in enumerate(self.s)]].  A target is a
    float wherever the solver re-tags it; an entry that is already a Dual
    gives its real part. *)
Definition retag_targets (order : Z) (ss : list Num) : list Num :=
  imap (fun i a => Dl (dmake order (num_real a) [s_tag i])) ss.

Definition s_vars (m0 : nat) : list string := map s_tag (seq 0 m0).

(** [Solver._grad_s_vT_final_iteration_analytical]. *)
Definition _grad_s_vT_final_iteration_analytical : M Mat :=
  let* J0 := J in ret (linalg_pinv J0).

(** [Solver._grad_s_vT_final_iteration_dual]; [algorithm or default] takes
    the class default for [None] and for the empty string. *)
Definition _grad_s_vT_final_iteration_dual (algorithm : option string) : M Mat :=
  let* dflt := gets (fun st => cfg_grad_s_vT_final_iteration_algo (cfg st)) in
  let algorithm :=
    match algorithm with
    | Some a => if decide (a = "") then dflt else a
    | None => dflt
    end in
  let* _s := gets s in
  modify (set_s (retag_targets 1 _s));;
  _reset_properties_ false;;
  let* v_1 := _update_step_ algorithm in
  let* m0 := gets m in
  let grad_s_vT := transpose (of_rows (map (fun vi => dgradient vi (s_vars m0)) v_1)) in
  modify (set_s _s);;
  ret grad_s_vT.

(** The read [A[r0:r1, c0:c1]] on resolved ranges. *)
Definition mat_slice (A : Mat) (rr cr : nat * nat) : Mat :=
  mkMat (rr.2 - rr.1) (cr.2 - cr.1)
        (map (fun row => take (cr.2 - cr.1) (drop cr.1 row))
             (take (rr.2 - rr.1) (drop rr.1 (cells A)))).

(** Python's [:k] and [k:] on an axis of length [len], [k] non-negative. *)
Definition head_range (k len : nat) : nat * nat := (0, min k len).
Definition from_range (k len : nat) : nat * nat := (min k len, len).

(** [Solver._grad_s_vT_fixed_point_iteration]. *)
Definition _grad_s_vT_fixed_point_iteration : M Mat :=
  modify (_set_ad_order 2);;
  _reset_properties_ false;;
  let* _s := gets s in
  modify (set_s (retag_targets 2 _s));;
  let* m0 := gets m in
  let* f0 := f in
  let* vars := gets variables in
  let grad2 := dgradient2 f0 (vars ++ s_vars m0) in
  let* n0 := gets n in
  let grad_v_vT_f := mat_slice grad2 (head_range n0 (nrows grad2)) (head_range n0 (ncols grad2)) in
  let grad_s_vT_f := mat_slice grad2 (from_range n0 (nrows grad2)) (head_range n0 (ncols grad2)) in
  let* sol := of_option LinAlgError
                (linalg_solve_mat grad_v_vT_f (mat_map fneg (transpose grad_s_vT_f))) in
  let grad_s_vT := transpose sol in
  modify (set_s _s);;
  modify (_set_ad_order 1);;
  _reset_properties_ false;;
  ret grad_s_vT.

(** [Solver.grad_s_vT]: [getattr(self, self._grad_s_vT_method)()]. *)
Definition grad_s_vT : M Mat :=
  cached _grad_s_vT set_grad_s_vT
    (let* meth := gets (fun st => cfg_grad_s_vT_method (cfg st)) in
     if decide (meth = "_grad_s_vT_final_iteration_analytical") then
       _grad_s_vT_final_iteration_analytical
     else if decide (meth = "_grad_s_vT_final_iteration_dual") then
       _grad_s_vT_final_iteration_dual None
     else if decide (meth = "_grad_s_vT_fixed_point_iteration") then
       _grad_s_vT_fixed_point_iteration
     else raise (AttributeError meth)).

Definition msg_broadcast : string := "could not broadcast input array".

(** [for pre_solver in self.pre_solvers: ...] with an accumulator, [k]
    counting the position of [p] in the tuple. *)
Definition for_chain {A} (body : Solver -> nat -> A -> M A)
    : list Solver -> nat -> A -> M A :=
  fix go (chain : list Solver) (k : nat) (acc : A) : M A :=
    match chain with
    | [] => ret acc
    | p :: chain' =>
        let* acc' := body p k acc in
        go chain' (S k) acc'
    end.

(** The body of the loop of [grad_s_vT_pre] for the [k]-th pre-solver,
    [pre_grad] being its property [grad_s_vT_pre]; the accumulator is
    [(i, j, grad_s_vT)]. *)
Definition grad_s_vT_pre_link (pre_grad : M Mat) (k : nat) (acc : nat * nat * Mat)
    : M (nat * nat * Mat) :=
  let '(i, j, G) := acc in
  (* create the left side block matrix *)
  let* m_ := on_pre k (gets pre_m) in
  let* n_ := on_pre k (gets pre_n) in
  let* P1 := on_pre k pre_grad in
  let* G1 := of_option (ValueError msg_broadcast)
               (assign_block G (slice_range i m_ (nrows G))
                               (slice_range j n_ (ncols G)) P1) in
  (* create the right column dependencies *)
  let* rs := r in
  let* pvars := on_pre k (gets pre_variables) in
  let grad_v_r := transpose (of_rows (map (fun ri => dgradient ri pvars) rs)) in
  let* Sm := grad_s_vT in
  let block := matmul grad_v_r Sm in
  let* P2 := on_pre k pre_grad in
  let block := mat_scale (-1)%float (matmul P2 block) in
  let* m0 := gets m in
  let* G2 := of_option (ValueError msg_broadcast)
               (assign_block G1 (slice_range i m_ (nrows G1))
                                (tail_range m0 (ncols G1)) block) in
  ret (i + m_, j + n_, G2).

(** [Solver.grad_s_vT_pre].  The recursion into [pre_solver.grad_s_vT_pre]
    follows the chain [tree] the object was built with; each call runs on
    the current state of the pre-solver object. *)
Fixpoint grad_s_vT_pre_rec (tree : Solver) : M Mat :=
  let* ps := gets pre_solvers in
  if decide (length ps = 0) then grad_s_vT
  else
    cached _grad_s_vT_pre set_grad_s_vT_pre
      (let* pm := gets pre_m in
       let* pn := gets pre_n in
       let* acc := for_chain
                     (fun p k acc => grad_s_vT_pre_link (grad_s_vT_pre_rec p) k acc)
                     (pre_solvers tree) 0 (0, 0, zeros pm pn) in
       let G := acc.2 in
       (* create bottom right block *)
       let* m0 := gets m in
       let* Sm := grad_s_vT in
       of_option (ValueError msg_broadcast)
         (assign_block G (tail_range m0 (nrows G)) (tail_range m0 (ncols G)) Sm)).

Definition grad_s_vT_pre : M Mat := fun st => grad_s_vT_pre_rec st st.

(** ** Second-order sensitivities *)

(** The body of the loop of [J2_pre] for the [k]-th pre-solver, [pre_J2]
    being its property [J2_pre]; the accumulator is [(i, j, J2)]. *)
Definition J2_pre_link (pre_J2 : M Ten3) (k : nat) (acc : nat * nat * Ten3)
    : M (nat * nat * Ten3) :=
  let '(i, j, T) := acc in
  let* n_ := on_pre k (gets pre_n) in
  let* m_ := on_pre k (gets pre_m) in
  let* B := on_pre k pre_J2 in
  let* T1 := of_option (ValueError msg_broadcast)
               (assign_block3 T (slice_range i n_ (dim0 T))
                                (slice_range i n_ (dim1 T))
                                (slice_range j m_ (dim2 T)) B) in
  ret (i + n_, j + m_, T1).

(** [Solver.J2_pre]. *)
Fixpoint J2_pre_rec (tree : Solver) : M Ten3 :=
  let* ps := gets pre_solvers in
  if decide (length ps = 0) then J2
  else
    cached _J2_pre set_J2_pre
      (let* ad := gets _ad in
       if decide (ad <> 2%Z) then raise (ValueError msg_ad_mode)
       else
         let* pm := gets pre_m in
         let* pn := gets pre_n in
         let* acc := for_chain
                       (fun p k acc => J2_pre_link (J2_pre_rec p) k acc)
                       (pre_solvers tree) 0 (0, 0, ten_zeros pn pn pm) in
         let T := acc.2 in
         let* rates := gets price_all in
         let* pvars := gets pre_variables in
         let B := ten_transpose_120
                    (ten_of_mats (map (fun ri => dgradient2 ri pvars) rates)) in
         let* m0 := gets m in
         of_option (ValueError msg_broadcast)
           (assign_block3 T (full_range (dim0 T)) (full_range (dim1 T))
                            (tail_range m0 (dim2 T)) B)).

Definition J2_pre : M Ten3 := fun st => J2_pre_rec st st.

(** [Solver._grad_s_s_vT_final_iteration_analytical]. *)
Definition _grad_s_s_vT_final_iteration_analytical (use_pre : bool) : M Ten3 :=
  let* T := if use_pre then J2_pre else J2 in
  let* G := if use_pre then grad_s_vT_pre else grad_s_vT in
  let t1 := tensordot_T2_G0 T G in
  let t2 := tensordot_G1_T0 G t1 in
  let t3 := ten_map fneg (tensordot_G1_T1 G t2) in
  ret t3.

(** [Solver.grad_s_s_vT]. *)
Definition grad_s_s_vT : M Ten3 :=
  cached _grad_s_s_vT set_grad_s_s_vT (_grad_s_s_vT_final_iteration_analytical false).

(** [Solver.grad_s_s_vT_pre]. *)
Definition grad_s_s_vT_pre : M Ten3 :=
  let* ps := gets pre_solvers in
  if decide (length ps = 0) then grad_s_s_vT
  else cached _grad_s_s_vT_pre set_grad_s_s_vT_pre
         (_grad_s_s_vT_final_iteration_analytical true).

(** ** Risk reports *)

(** A row or column key of the cross-gamma table:
    [(ccy, "instruments", solver id, label)]. *)
Definition GammaKey : Type := string * string * string * string.

(** The [DataFrame] returned by [gamma]: its row index, its column index,
    and the blocks written by [df.loc[ridx, cidx] = ...], each under the
    currencies of its rows and of its columns. *)
Record GammaFrame := mkGammaFrame {
  gf_index : list GammaKey;
  gf_columns : list GammaKey;
  gf_blocks : list (string * string * Mat);
}.

Definition gamma_keys (ccys : list string) (labels : list (string * string))
    : list GammaKey :=
  ccy ← ccys; lbl ← labels; [(ccy, "instruments", lbl.1, lbl.2)].

(** The outer product [np.matmul(a[:, None], a[None, :])]. *)
Definition outer (a b : vec) : Mat :=
  mkMat (length a) (length b) (map (fun ai => map (fun bj => fmul ai bj) b) a).

Fixpoint map_m {A B} (body : A -> M B) (xs : list A) : M (list B) :=
  match xs with
  | [] => ret []
  | a :: xs' =>
      let* b := body a in
      let* bs := map_m body xs' in
      ret (b :: bs)
  end.

(** [Solver._gamma_inst_arr_local]; [npv] is the dict from currency to the
    Dual2 valuation, in key order. *)
Definition _gamma_inst_arr_local (npv : list (string * D)) : M GammaFrame :=
  let ccys := map fst npv in
  let* labels := gets pre_instrument_labels in
  let outer_index := gamma_keys ccys labels in
  let outer_columns := gamma_keys ccys labels in
  let* prs := gets pre_rate_scalars in
  let scalar := outer prs prs in
  let* blocks :=
    map_m (fun cv : string * D =>
             let value := cv.2 in
             let* G1 := grad_s_vT_pre in
             let* pvars := gets pre_variables in
             let* G2 := grad_s_vT_pre in
             let grad_s_sT_P := matmul G1 (matmul (dgradient2 value pvars) (transpose G2)) in
             let* T := grad_s_s_vT_pre in
             let grad_s_sT_P := mat_add grad_s_sT_P (ten_matvec T (dgradient value pvars)) in
             ret (cv.1, cv.1,
                  mat_map (fun a => fdiv a 10000%float) (mat_zip fmul grad_s_sT_P scalar)))
          npv in
  ret (mkGammaFrame outer_index outer_columns blocks).

Definition msg_gamma_order : string :=
  "`Solver` must be in ad order 2 to use `gamma` method.".

(** The message of the configuration error of [delta] for a [base] given
    with no FX object at hand. *)
Definition msg_base_without_fx : string :=
  "`base` is given but `fx` is not and Solver does not contain an attached FXForwards object.".

(** [Solver.gamma].  The method returns at its second statement; the
    statements after that [return] are never run. *)
Definition gamma (npv : list (string * D)) (base : option string) (fx_arg : option FX)
    : M GammaFrame :=
  let* ad := gets _ad in
  if decide (ad <> 2%Z) then raise (ValueError msg_gamma_order)
  else _gamma_inst_arr_local npv.




(** ** Construction *)

Definition msg_tuple : string :=
  "`Instrument` supplied to `Solver` as tuple must be a 3-tuple of signature: (Instrument, positional args[tuple], keyword args[dict]).".

(** The pricing parameters attached by default. *)
Definition default_kwargs (self_id : string) (self_fx : option FX) : gmap string KwVal :=
  {[ "solver" := KwSolver self_id; "fx" := kw_of_fx self_fx ]}.

(** [Solver._parse_instrument], which reads [self] (named by [self.id])
    and [self.fx].  In a dict display the later entries win, so the
    caller's keyword arguments take precedence over the defaults.  A tuple
    whose items are not an instrument, an argument tuple or [None], and a
    dict or [None] is outside this typed model ([TypeError]). *)
Definition _parse_instrument (self_id : string) (self_fx : option FX)
    (value : InstrumentSpec) : Res Triple :=
  match value with
  | Bare i => Ok (i, [], default_kwargs self_id self_fx)
  | Tup items =>
      if decide (length items <> 3) then Raise (ValueError msg_tuple)
      else
        match items with
        | [ItInst ret0; a; k] =>
            let ret1 := match a with
                        | ItNone => Some []
                        | ItArgs l => Some l
                        | _ => None
                        end in
            let ret2 := match k with
                        | ItNone => Some (default_kwargs self_id self_fx)
                        | ItKw kw =>
                            if decide (kw = ∅) then Some (default_kwargs self_id self_fx)
                            else Some (kw ∪ default_kwargs self_id self_fx)
                        | _ => None
                        end in
            match ret1, ret2 with
            | Some a', Some k' => Ok (ret0, a', k')
            | _, _ => Raise TypeError
            end
        | _ => Raise TypeError
        end
  end.

(** The keyword arguments the caller supplied with an instrument: those
    of a non-empty dict in third position, none otherwise. *)
Definition caller_kwargs (value : InstrumentSpec) : gmap string KwVal :=
  match value with
  | Tup [_; _; ItKw kw] => kw
  | _ => ∅
  end.

Fixpoint parse_all (self_id : string) (self_fx : option FX) (l : list InstrumentSpec)
    : Res (list Triple) :=
  match l with
  | [] => Ok []
  | value :: l' =>
      match _parse_instrument self_id self_fx value with
      | Raise e => Raise e
      | Ok t =>
          match parse_all self_id self_fx l' with
          | Raise e => Raise e
          | Ok ts => Ok (t :: ts)
          end
      end
  end.

Definition msg_len_s : string := "`instrument_rates` must be same length as `instruments`.".
Definition msg_len_labels : string := "`instrument_labels` must have length `instruments`.".
Definition msg_len_weights : string := "`weights` must be same length as `instruments`.".
Definition msg_curve_ids : string :=
  "`curves` must each have their own unique `id`. If using pre-solvers as part of a dependency chain a curve can only be specified as a variable in one solver.".

(** The variable tags of one curve: [f"{curve.id}{i}"] for
    [i in range(curve._ini_solve, curve.n)]. *)
Definition curve_vars (c : Curve) : list string :=
  map (fun i => curve_id c +:+ pretty i)
      (seq (_ini_solve c) (length (nodes c) - _ini_solve c)).

Definition empty_cache : Cache :=
  mkCache None None None None None None None None None None None.

(** The arguments of [Solver(...)]; [uuid] stands for [uuid4().hex[:5]],
    drawn when no [id] is given. *)
Record InitArgs := mkInitArgs {
  arg_curves : list Curve;
  arg_instruments : list InstrumentSpec;
  arg_s : list float;
  arg_weights : option vec;
  arg_algorithm : string;
  arg_fx : option FX;
  arg_instrument_labels : option (list string);
  arg_id : option string;
  arg_pre_solvers : list Solver;
  arg_max_iter : nat;
  arg_func_tol : float;
  arg_conv_tol : float;
}.

(** [Solver.__init__]: the object after construction, or the exception
    that aborts it.  With unique curve ids (checked below before anything
    is returned) the dict [self.curves] is the list of curves in order.
    With [instrument_labels=None] the source keeps a generator, which the
    construction of [pre_instrument_labels] exhausts; [cfg_instrument_labels]
    holds the labels it produced, and no theorem below states anything
    about them. *)
Definition Solver_init (a : InitArgs) (uuid : string) : Res Solver * option Outcome :=
  let m0 := length (arg_instruments a) in
  let id0 := match arg_id a with
             | Some i => if decide (i = "") then uuid +:+ "_" else i
             | None => uuid +:+ "_"
             end in
  if decide (length (arg_s a) <> m0) then (Raise (ValueError msg_len_s), None) else
  match (match arg_instrument_labels a with
         | Some l => if decide (m0 <> length l) then None else Some l
         | None => Some (map (fun i => id0 +:+ pretty i) (seq 0 m0))
         end) with
  | None => (Raise (ValueError msg_len_labels), None)
  | Some labels =>
  match (match arg_weights a with
         | None => Some (replicate m0 1%float)
         | Some w => if decide (length w <> m0) then None else Some w
         end) with
  | None => (Raise (ValueError msg_len_weights), None)
  | Some w =>
  let cs := map (curve_set_ad_order 1) (arg_curves a) in
  let vars := concat (map curve_vars cs) in
  let pres := arg_pre_solvers a in
  let curve_collection := concat (map pre_curves pres) ++ cs in
  if decide (NoDup (map curve_id curve_collection)) then
    match parse_all id0 (arg_fx a) (arg_instruments a) with
    | Raise e => (Raise e, None)
    | Ok insts =>
        let rate_scalars := map (fun t : Triple => _rate_scalar t.1.1) insts in
        let c := mkConfig id0 (arg_algorithm a) (arg_func_tol a) (arg_conv_tol a)
                   (arg_max_iter a) w labels vars
                   (concat (map pre_variables pres) ++ vars)
                   (concat (map pre_instrument_labels pres) ++ map (fun l => (id0, l)) labels)
                   (concat (map pre_rate_scalars pres) ++ rate_scalars)
                   rate_scalars
                   m0 (length vars)
                   (foldl (fun acc p => acc + pre_m p) m0 pres)
                   (foldl (fun acc p => acc + pre_n p) (length vars) pres)
                   insts
                   "_grad_s_vT_final_iteration_analytical"
                   "gauss_newton_final" in
        let st := mkSolver c pres (map Flt (arg_s a)) cs (arg_fx a) 1
                           (mkIter 0 [] 0) empty_cache in
        match iterate st with
        | (Ok o, st') => (Ok st', Some o)
        | (Raise e, _) => (Raise e, None)
        end
    end
  else (Raise (ValueError msg_curve_ids), None)
  end end.

End Model.

Notation "'let*' x ':=' c 'in' k" := (bind c (fun x => k))
  (at level 10, x pattern, c at level 100, k at level 200).
Notation "c1 ';;' c2" := (bind c1 (fun _ => c2))
  (at level 100, c2 at level 200, right associativity).

(** ** A concrete market for the examples

    First- and second-order forward-mode dual numbers over named variables,
    instruments whose rate is an affine function of curve nodes, and the
    linear solvers restricted to one-by-one systems.  The general results
    below do not depend on this instance; the examples evaluate the model on
    it. *)
Module Toy.

(** A dual number: real part, first derivatives and second derivatives by
    variable name.  An entry list may name a variable more than once; the
    derivative is the sum of its entries. *)
Record TD := mkTD {
  re : float;
  du : list (string * float);
  du2 : list (string * string * float);
}.

Definition du_get (l : list (string * float)) (a : string) : float :=
  fsum (map snd (filter (fun e => e.1 = a) l)).

Definition du2_get (l : list (string * string * float)) (a b : string) : float :=
  fsum (map snd (filter (fun e => e.1.1 = a /\ e.1.2 = b) l)).

Definition du_scale (c : float) (l : list (string * float)) : list (string * float) :=
  map (fun e => (e.1, fmul c e.2)) l.

Definition du2_scale (c : float) (l : list (string * string * float))
    : list (string * string * float) :=
  map (fun e => (e.1, fmul c e.2)) l.

Definition du_cross (l1 l2 : list (string * float)) : list (string * string * float) :=
  e1 ← l1; e2 ← l2; [(e1.1, e2.1, fmul e1.2 e2.2); (e2.1, e1.1, fmul e1.2 e2.2)].

Definition td_const (a : float) : TD := mkTD a [] [].
Definition td_make (order : Z) (a : float) (vars : list string) : TD :=
  mkTD a (map (fun v => (v, 1%float)) vars) [].
Definition td_add (a b : TD) : TD := mkTD (fadd (re a) (re b)) (du a ++ du b) (du2 a ++ du2 b).
Definition td_neg (a : TD) : TD :=
  mkTD (fneg (re a)) (du_scale (-1)%float (du a)) (du2_scale (-1)%float (du2 a)).
Definition td_sub (a b : TD) : TD :=
  mkTD (fsub (re a) (re b)) (du a ++ du_scale (-1)%float (du b))
       (du2 a ++ du2_scale (-1)%float (du2 b)).
Definition td_mul (a b : TD) : TD :=
  mkTD (fmul (re a) (re b))
       (du_scale (re b) (du a) ++ du_scale (re a) (du b))
       (du2_scale (re b) (du2 a) ++ du2_scale (re a) (du2 b) ++ du_cross (du a) (du b)).
Definition td_inv (b : TD) : TD :=
  let i := fdiv 1%float (re b) in
  let i2 := fmul i i in
  mkTD i (du_scale (fneg i2) (du b))
       (du2_scale (fneg i2) (du2 b)
        ++ du2_scale (fmul i2 i) (du_cross (du b) (du b))).
Definition td_div (a b : TD) : TD := td_mul a (td_inv b).
Definition td_gradient (a : TD) (vars : list string) : vec := map (du_get (du a)) vars.
Definition td_gradient2 (a : TD) (vars : list string) : Mat :=
  mkMat (length vars) (length vars)
        (map (fun y => map (fun z => du2_get (du2 a) y z) vars) vars).

(** An instrument: rate = constant + sum of coefficient * node, a node
    being named by curve id and index; and its rate scalar. *)
Record TInst := mkTInst {
  ti_const : float;
  ti_terms : list (string * nat * float);
  ti_scalar : float;
}.

Definition is_zero (a : float) : bool := PrimFloat.eqb a 0%float.

(** One-by-one systems only: a singular or larger system is refused. *)
Definition solve1 (A : Mat) (b : vec) : option vec :=
  match cells A, b with
  | [[a]], [b0] => if is_zero a then None else Some [fdiv b0 a]
  | _, _ => None
  end.

Definition solve1_mat (A B : Mat) : option Mat :=
  match cells A, cells B with
  | [[a]], [row] => if is_zero a then None
                    else Some (mkMat 1 (ncols B) [map (fun b0 => fdiv b0 a) row])
  | _, _ => None
  end.

Definition solve1_dual (A : Mat) (b : list TD) : option (list TD) :=
  match cells A, b with
  | [[a]], [b0] => if is_zero a then None else Some [td_div b0 (td_const a)]
  | _, _ => None
  end.

(** The pseudo-inverse of a one-by-one matrix; zeros of the transposed
    shape for any other (the examples have none). *)
Definition pinv1 (A : Mat) : Mat :=
  match cells A with
  | [[a]] => mkMat 1 1 [[if is_zero a then 0%float else fdiv 1%float a]]
  | _ => zeros (ncols A) (nrows A)
  end.

#[export] Instance collaborators : Collaborators := {|
  D := TD;
  dreal := re;
  dvars := fun d => remove_dups (map fst (du d));
  dmake := td_make;
  dconst := td_const;
  dadd := td_add;
  dsub := td_sub;
  dmul := td_mul;
  ddiv := td_div;
  dneg := td_neg;
  dgradient := td_gradient;
  dgradient2 := td_gradient2;
  dreal_dmake := fun _ _ _ => eq_refl;
  dgradient_length := fun d vs => length_map (du_get (du d)) vs;
  Instrument := TInst;
  _rate_scalar := ti_scalar;
  PyArg := unit;
  CurveAux := unit;
  curve_recompute := fun _ a => a;
  curve_set_order := fun _ nd a => (nd, a);
  FXState := unit;
  linalg_solve := solve1;
  linalg_solve_mat := solve1_mat;
  linalg_pinv := pinv1;
  dual_solve := solve1_dual;
|}.

(** The node a term names, looked up among the curves of the solver the
    keyword ["solver"] refers to. *)
Definition find_node (cs : list Curve) (cid : string) (i : nat) : TD :=
  match filter (fun c => curve_id c = cid) cs with
  | c :: _ => default (td_const 0%float) (nodes c !! i)
  | [] => td_const 0%float
  end.

Definition rate_affine (i : TInst) (args : list unit) (kw : gmap string KwVal)
    (heap : list SolverView) : TD :=
  let cs := match kw !! "solver" with
            | Some (KwSolver ref) =>
                match filter (fun sv => view_id sv = ref) heap with
                | sv :: _ => view_curves sv
                | [] => []
                end
            | _ => []
            end in
  foldl (fun acc t => td_add acc (td_mul (td_const t.2) (find_node cs t.1.1 t.1.2)))
        (td_const (ti_const i)) (ti_terms i).

#[export] Instance pricing : Pricing := {|
  rate := rate_affine;
  fx_update := fun _ o => o;
  fx_set_ad_order := fun _ o => o;
|}.

(** A curve with a fixed first node and one solver-controlled node. *)
Definition curve1 (cid : string) (a : float) : Curve :=
  mkCurve cid [td_make 1 1%float [cid +:+ "0"]; td_make 1 a [cid +:+ "1"]] 1 tt.

(** An instrument paying [k] times the free node of curve [cid]. *)
Definition inst1 (cid : string) (k : float) : TInst := mkTInst 0%float [(cid, 1, k)] 1%float.

Definition args1 (alg : string) (cid : string) (a k target : float) (iters : nat)
    : InitArgs :=
  mkInitArgs [curve1 cid a] [Bare (inst1 cid k)] [target] None alg None None
             (Some "S") [] iters 1e-11%float 1e-14%float.

End Toy.

Module Runs.
Import Toy.

Definition blank : Solver :=
  mkSolver (mkConfig "" "" 0 0 0 [] [] [] [] [] [] [] 0 0 0 0 [] "" "")
           [] [] [] None 0 (mkIter 0 [] 0) empty_cache.

(** The solver a construction returns ([blank] when it raises). *)
Definition built (a : InitArgs) : Solver :=
  match Solver_init a "u" with
  | (Ok st, _) => st
  | _ => blank
  end.

Definition the {A} (dflt : A) (r : Res A) : A :=
  match r with Ok a => a | Raise _ => dflt end.

(** One instrument [2 * c1] with target 3, started one hundredth off the
    solution, under tolerances [func_tol = 1e-6] and [conv_tol = 1e-3]. *)
Definition near_args (iters : nat) : InitArgs :=
  mkInitArgs [curve1 "c" 1.49] [Bare (inst1 "c" 2)] [3%float] None "gauss_newton"
             None None (Some "S") [] iters 1e-6 1e-3.

(** The same solver before any pass of the loop, and after the first. *)
Definition near0 : Solver := iterate_entry (built (near_args 0)).
Definition near1 : Solver := default blank (run_cycles 1 1 0 near0).

(** One instrument [2 * c1] with target 3 under an algorithm, node started
    at 0.5, default tolerances; before any pass of the loop. *)
Definition fresh (alg : string) : Solver :=
  iterate_entry (built (args1 alg "c" 0.5 2 3 0)).

(** A Levenberg-Marquardt solver whose instrument ignores the node: the
    objective stays at 9. *)
Definition stagnant (iters : nat) : Solver :=
  built (args1 "levenberg_marquardt" "c" 0.5 0 3 iters).

(** A Levenberg-Marquardt solver given two passes. *)
Definition lm2 : Solver := built (args1 "levenberg_marquardt" "c" 0.5 2 3 2).

(** A two-solver chain: [pA] calibrates curve "a"; [sB] prices
    [a1 + 4 * b1] against 10 on its own curve "b".  [sB2] has a second
    pre-solver [pC] on curve "c". *)
Definition pre_args (sid cid : string) : InitArgs :=
  mkInitArgs [curve1 cid 0.5] [Bare (inst1 cid 2)] [3%float] None "gauss_newton"
             None None (Some sid) [] 100 1e-11 1e-14.
Definition pA : Solver := built (pre_args "A" "a").
Definition pC : Solver := built (pre_args "C" "c").
Definition instAB : TInst := mkTInst 0 [("a", 1, 1%float); ("b", 1, 4%float)] 1.
Definition chain_args (pres : list Solver) : InitArgs :=
  mkInitArgs [curve1 "b" 0.5] [Bare instAB] [10%float] None "gauss_newton"
             None None (Some "B") pres 100 1e-11 1e-14.
Definition sB : Solver := built (chain_args [pA]).
Definition sB2 : Solver := built (chain_args [pA; pC]).


(** A valuation in one currency, quadratic in the node [a1]. *)
Definition npv_usd : list (string * TD) :=
  [("usd", td_mul (td_make 2 1.5 ["a1"]) (td_make 2 1.5 ["a1"]))].

Definition other_kw : gmap string KwVal := {[ "solver" := KwSolver "other" ]}.

(** A pre-solver with two instruments on the two free nodes of one curve,
    calibrated by gradient descent, and a chain with [pA] and it as
    pre-solvers. *)
Definition curve2 : Curve :=
  mkCurve "d" [td_make 1 1%float ["d0"]; td_make 1 0.5%float ["d1"];
               td_make 1 0.5%float ["d2"]] 1 tt.
Definition pD : Solver :=
  built (mkInitArgs [curve2]
           [Bare (inst1 "d" 2); Bare (mkTInst 0%float [("d", 2, 2%float)] 1%float)]
           [3%float; 3%float] None "gradient_descent" None None (Some "D") [] 5
           1e-11 1e-14).
Definition sD : Solver := built (chain_args [pA; pD]).

(** [solver._grad_s_vT_method = meth]. *)
Definition with_method (meth : string) (st : Solver) : Solver :=
  let c := cfg st in
  mkSolver (mkConfig (cfg_id c) (cfg_algorithm c) (cfg_func_tol c) (cfg_conv_tol c)
              (cfg_max_iter c) (cfg_weights c) (cfg_instrument_labels c) (cfg_variables c)
              (cfg_pre_variables c) (cfg_pre_instrument_labels c) (cfg_pre_rate_scalars c)
              (cfg_rate_scalars c) (cfg_m c) (cfg_n c) (cfg_pre_m c) (cfg_pre_n c)
              (cfg_instruments c) meth (cfg_grad_s_vT_final_iteration_algo c))
           (pre_solvers st) (s st) (curves st) (fx st) (_ad st) (it_state st) (cache st).

(** A solver built on its solution under an algorithm name that does not
    exist, then given another target. *)
Definition misspelt : Solver :=
  set_s [Flt 4]
    (built (mkInitArgs [curve1 "c" 1.5] [Bare (inst1 "c" 2)] [3%float] None "nonsense"
                       None None (Some "S") [] 100 1e-11 1e-14)).

(** The value and the state a call leaves. *)
Definition val {A} (dflt : A) (r : Res A * Solver) : A := the dflt r.1.
Definition d0 : TD := td_const 0.
Definition m0 : Mat := zeros 0 0.
End Runs.

(** * Properties

    The vocabulary of the statements below: relations between the state
    before and after a method, and the ways a method can end. *)

Section Vocabulary.
Context {C : Collaborators} {P : Pricing}.

(** A method [c] keeps the relation [R] between the state it starts from
    and the state it leaves, whether it returns or raises. *)
Definition preserves (R : Solver -> Solver -> Prop) {A} (c : M A) : Prop :=
  forall st res st', c st = (res, st') -> R st st'.

(** The state differs from the earlier one in the calculated attributes
    only. *)
Definition cache_only (st st' : Solver) : Prop := exists c, st' = set_cache c st.

(** A method that always returns. *)
Definition total {A} (c : M A) : Prop := forall st, exists a st', c st = (Ok a, st').

(** The state differs from the earlier one in the calculated attributes
    and the attributes of [iterate] only. *)
Definition soft_only (st st' : Solver) : Prop :=
  exists c it, st' = set_iter it (set_cache c st).

(** The cached error vector, if any, was computed against the targets
    [ss]. *)
Definition errors_against (ss : list Num) (st : Solver) : Prop :=
  forall xs, _x (cache st) = Some xs ->
    exists rs, xs = zip_with (fun ri si => dsub ri (to_dual si)) rs ss.

(** A method that keeps the targets, and keeps a cached error vector
    consistent with them. *)
Definition keeps_errors (st st' : Solver) : Prop :=
  s st' = s st /\ (errors_against (s st) st -> errors_against (s st) st').


(** An own method leaves the configuration alone, and of each pre-solver
    object its configuration, its calculated attributes and the length of
    its own chain. *)
Definition chain_kept (st st' : Solver) : Prop :=
  cfg st' = cfg st /\
  Forall2 (fun q q' => cfg q' = cfg q /\ cache q' = cache q /\
                       length (pre_solvers q') = length (pre_solvers q))
          (pre_solvers st) (pre_solvers st').

(** Any method, also one that runs methods of the pre-solvers, leaves the
    configuration and the length of the chain alone. *)
Definition shape_kept (st st' : Solver) : Prop :=
  cfg st' = cfg st /\ length (pre_solvers st') = length (pre_solvers st).

(** The value a read of [grad_s_vT_pre] finds cached on the object [q]. *)
Definition pre_hit (G : Mat) (q : Solver) : Prop :=
  (length (pre_solvers q) = 0 /\ _grad_s_vT (cache q) = Some G) \/
  (length (pre_solvers q) <> 0 /\ _grad_s_vT_pre (cache q) = Some G).

(** [iterate] writes curves, the FX object, its own attributes and the
    calculated attributes: the configuration, the chain, the targets and the
    order are kept. *)
Definition hard_kept (st st' : Solver) : Prop :=
  cfg st' = cfg st /\ pre_solvers st' = pre_solvers st /\ s st' = s st /\
  _ad st' = _ad st.

(** Every exception a method can raise satisfies [Q]. *)
Definition raises_only (Q : Exn -> Prop) {A} (c : M A) : Prop :=
  forall st e st', c st = (Raise e, st') -> Q e.

(** The exceptions of the sensitivity machinery: anything but the
    configuration error for a [base] given without an FX object. *)
Definition not_missing_fx (e : Exn) : Prop := e <> ValueError msg_base_without_fx.

(** A method that returns from every state satisfying [I], in a state
    satisfying [I]. *)
Definition returns_on (I : Solver -> Prop) {A} (c : M A) : Prop :=
  forall st, I st -> exists a st', c st = (Ok a, st') /\ I st'.

(** A solver at order 2 with no pre-solver, under the default analytical
    first-order strategy. *)
Definition gamma_ready (st : Solver) : Prop :=
  pre_solvers st = [] /\ _ad st = 2%Z /\
  cfg_grad_s_vT_method (cfg st) = "_grad_s_vT_final_iteration_analytical".

(** A calculated attribute: a read that returns has written calculated
    attributes only, and from then on every read returns the same value and
    writes nothing, also after the targets and the curves have been
    replaced. *)
Definition memoised {A} (c : M A) : Prop :=
  forall st a st', c st = (Ok a, st') ->
    cache_only st st' /\
    forall ss cs, c (set_curves cs (set_s ss st')) = (Ok a, set_curves cs (set_s ss st')).

(** The algorithm names [_update_step_] knows. *)
Definition known_algorithm (alg : string) : Prop :=
  alg = "gradient_descent" \/ alg = "gauss_newton" \/
  alg = "levenberg_marquardt" \/ alg = "gauss_newton_final".

(** The configuration and the recorded history ([f_list], [f_prev]) are
    kept. *)
Definition history_kept (st st' : Solver) : Prop :=
  cfg st' = cfg st /\ f_list (it_state st') = f_list (it_state st) /\
  f_prev (it_state st') = f_prev (it_state st).

(** A curve keeps its id, its [_ini_solve], its number of nodes and the
    nodes before [_ini_solve]. *)
Definition curve_frame (c c' : Curve) : Prop :=
  curve_id c' = curve_id c /\ _ini_solve c' = _ini_solve c /\
  length (nodes c') = length (nodes c) /\
  take (_ini_solve c) (nodes c') = take (_ini_solve c) (nodes c).

(** Every curve of the solver keeps its frame. *)
Definition curves_frame (st st' : Solver) : Prop :=
  Forall2 curve_frame (curves st) (curves st').

(** The orders of a solver and of every solver of its chain, to any
    depth. *)
Fixpoint chain_orders (st : Solver) : list Z :=
  _ad st :: concat (map chain_orders (pre_solvers st)).

(** The attributes of [iterate] are kept. *)
Definition iter_kept (st st' : Solver) : Prop :=
  cfg st' = cfg st /\ it_state st' = it_state st.
End Vocabulary.

Create HintDb solver.

(** ** Slice assignment on well-formed arrays *)

Lemma nth_update_range {A} (a b : nat) (f : nat -> A -> A) (l : list A) (d : A) i :
  a <= b -> b <= length l -> i < length l ->
  nth i (update_range a b f l) d =
    if decide (a <= i < b) then f (i - a) (nth i l d) else nth i l d.
Proof.
  intros Hab Hb Hi. unfold update_range. rewrite !nth_lookup.
  destruct (decide (a <= i < b)) as [Hin|Hout].
  - rewrite lookup_app_r by (rewrite length_take; lia).
    rewrite length_take, Nat.min_l by lia.
    rewrite lookup_app_l by (rewrite length_imap, length_take, length_drop; lia).
    rewrite list_lookup_imap, lookup_take_lt, lookup_drop by lia.
    replace (a + (i - a)) with i by lia.
    destruct (l !! i) eqn:E; [reflexivity |].
    apply lookup_ge_None in E. lia.
  - destruct (decide (i < a)).
    + rewrite lookup_app_l by (rewrite length_take; lia).
      by rewrite lookup_take_lt by lia.
    + rewrite lookup_app_r by (rewrite length_take; lia).
      rewrite length_take, Nat.min_l by lia.
      rewrite lookup_app_r by (rewrite length_imap, length_take, length_drop; lia).
      rewrite length_imap, length_take, length_drop, lookup_drop.
      f_equal. f_equal. lia.
Qed.

Lemma length_update_range {A} (a b : nat) (f : nat -> A -> A) (l : list A) :
  a <= b -> b <= length l -> length (update_range a b f l) = length l.
Proof.
  intros. unfold update_range.
  rewrite !length_app, length_imap, !length_take, !length_drop. lia.
Qed.

Lemma wf_zeros r c : wf_mat (zeros r c).
Proof.
  split; simpl; [apply length_replicate |].
  apply Forall_replicate. apply length_replicate.
Qed.

Lemma mat_get_zeros r c i j : mat_get (zeros r c) i j = 0%float.
Proof.
  unfold mat_get. simpl. rewrite !nth_lookup.
  destruct (replicate r (replicate c 0%float) !! i) as [row|] eqn:E; simpl.
  - apply lookup_replicate in E as [-> _].
    destruct (replicate c 0%float !! j) as [a|] eqn:E2; simpl; [| reflexivity].
    by apply lookup_replicate in E2 as [-> _].
  - by destruct j.
Qed.

Lemma bidx_lt src k : k < src -> bidx src k = k.
Proof. unfold bidx. intros. destruct (Nat.eqb_spec src 1); lia. Qed.

(** Inside the target block the entry is the source's; elsewhere the
    array is untouched; the shape is kept. *)
Lemma assign_block_spec (A B : Mat) r0 r1 c0 c1 :
  wf_mat A -> r0 <= r1 -> r1 <= nrows A -> c0 <= c1 -> c1 <= ncols A ->
  nrows B = r1 - r0 -> ncols B = c1 - c0 ->
  exists A',
    assign_block A (r0, r1) (c0, c1) B = Some A' /\
    wf_mat A' /\ nrows A' = nrows A /\ ncols A' = ncols A /\
    forall i j, i < nrows A -> j < ncols A ->
      mat_get A' i j =
        if decide (r0 <= i < r1 /\ c0 <= j < c1) then mat_get B (i - r0) (j - c0)
        else mat_get A i j.
Proof.
  intros [Hrows Hcols] Hr Hr1 Hc Hc1 HBr HBc.
  unfold assign_block, broadcastable. rewrite HBr, HBc, !Nat.eqb_refl.
  cbn [orb andb]. eexists. split; [reflexivity |]. cbn [nrows ncols cells].
  assert (forall i row, length row = ncols A ->
            length (update_range c0 c1
                      (fun j _ => mat_get B (bidx (r1 - r0) i) (bidx (c1 - c0) j)) row)
            = ncols A) as Hrow.
  { intros i row Hl. rewrite length_update_range; lia. }
  unfold wf_mat. cbn [nrows ncols cells].
  split; [split |]; [| | split; [| split]].
  - rewrite length_update_range; lia.
  - rewrite Forall_lookup in Hcols |- *. intros i row Hi.
    assert (i < length (cells A)) as Hlt.
    { apply lookup_lt_Some in Hi. rewrite length_update_range in Hi; lia. }
    pose proof (nth_update_range r0 r1
      (fun i row => update_range c0 c1
         (fun j _ => mat_get B (bidx (r1 - r0) i) (bidx (c1 - c0) j)) row)
      (cells A) [] i Hr ltac:(lia) Hlt) as Hn.
    rewrite nth_lookup, Hi in Hn. simpl in Hn. subst row.
    destruct (lookup_lt_is_Some_2 _ _ Hlt) as [row0 Hrow0].
    rewrite (nth_lookup_Some _ _ _ _ Hrow0).
    destruct (decide _); [apply Hrow |]; eapply Hcols, Hrow0.
  - reflexivity.
  - reflexivity.
  - intros i j Hi Hj. unfold mat_get at 1. cbn [nrows ncols cells].
    rewrite nth_update_range by lia.
    assert (length (nth i (cells A) []) = ncols A) as Hl.
    { destruct (lookup_lt_is_Some_2 (cells A) i ltac:(lia)) as [row0 Hrow0].
      rewrite (nth_lookup_Some _ _ _ _ Hrow0).
      rewrite Forall_lookup in Hcols. eapply Hcols, Hrow0. }
    destruct (decide (r0 <= i < r1)) as [Hin|Hout].
    + rewrite nth_update_range by lia.
      destruct (decide (c0 <= j < c1)) as [Hjn|Hjo].
      * rewrite decide_True by done. rewrite !bidx_lt by lia. reflexivity.
      * rewrite decide_False by tauto. reflexivity.
    + rewrite decide_False by tauto. reflexivity.
Qed.

Lemma slice_range_le a b len : a <= b -> b <= len -> slice_range a b len = (a, b).
Proof. intros. unfold slice_range. f_equal; lia. Qed.

Lemma tail_range_pos k len : k <> 0 -> tail_range k len = (len - k, len).
Proof. intros. unfold tail_range. by destruct (Nat.eqb_spec k 0). Qed.

Section Theorems.
Context {C : Collaborators} {P : Pricing}.

(** ** Reasoning about methods *)

Lemma bind_unfold {A B} (c : M A) (k : A -> M B) st :
  bind c k st = match c st with
                | (Ok a, st') => k a st'
                | (Raise e, st') => (Raise e, st')
                end.
Proof. reflexivity. Qed.

Lemma bind_Ok_inv {A B} (c : M A) (k : A -> M B) st b st' :
  bind c k st = (Ok b, st') ->
  exists a st1, c st = (Ok a, st1) /\ k a st1 = (Ok b, st').
Proof.
  rewrite bind_unfold. destruct (c st) as [[a|e] st1]; [eauto | discriminate].
Qed.

Ltac run := cbv beta iota delta [bind modify gets ret raise of_option].


(** Resolve the outermost [if] of the goal, whose condition is convertible
    to [cond], with the equation [H] on [cond]. *)
Ltac take_branch cond H :=
  match goal with
  | |- context [if ?b then _ else _] => change b with cond
  end; rewrite H; cbv beta iota.

Section Preserves.
Variable R : Solver -> Solver -> Prop.
Hypothesis R_refl : forall st, R st st.
Hypothesis R_trans : forall a b c, R a b -> R b c -> R a c.

Lemma preserves_ret {A} (a : A) : preserves R (ret a).
Proof using R_refl. intros st res st' [= <- <-]. apply R_refl. Qed.

Lemma preserves_raise {A} e : preserves R (@raise _ A e).
Proof using R_refl. intros st res st' [= <- <-]. apply R_refl. Qed.

Lemma preserves_gets {A} (g : Solver -> A) : preserves R (gets g).
Proof using R_refl. intros st res st' [= <- <-]. apply R_refl. Qed.

Lemma preserves_of_option {A} e (o : option A) : preserves R (of_option e o).
Proof using R_refl. destruct o; [apply preserves_ret | apply preserves_raise]. Qed.

Lemma preserves_modify g : (forall st, R st (g st)) -> preserves R (modify g).
Proof. intros Hg st res st' [= <- <-]. apply Hg. Qed.

Lemma preserves_bind {A B} (c : M A) (k : A -> M B) :
  preserves R c -> (forall a, preserves R (k a)) -> preserves R (bind c k).
Proof using R_trans.
  intros Hc Hk st res st'. rewrite bind_unfold.
  destruct (c st) as [[a|e] st1] eqn:E.
  - intros H. eapply R_trans; [eapply Hc, E | eapply Hk, H].
  - intros [= <- <-]. eapply Hc, E.
Qed.

Lemma preserves_cached {A} rd wr (c : M A) :
  (forall st o, R st (set_cache (wr o (cache st)) st)) ->
  preserves R c -> preserves R (cached rd wr c).
Proof using R_refl R_trans.
  intros Hw Hc. unfold cached. apply preserves_bind; [apply preserves_gets |].
  intros [a|]; [apply preserves_ret |].
  apply preserves_bind; [exact Hc | intros a].
  apply preserves_bind; [| intros; apply preserves_ret].
  apply preserves_modify. intros; apply Hw.
Qed.

Lemma preserves_for_each {A} (xs : list A) body :
  (forall a, preserves R (body a)) -> preserves R (for_each xs body).
Proof using R_refl R_trans.
  intros Hb. induction xs as [|a xs IH]; simpl.
  - apply preserves_ret.
  - apply preserves_bind; [apply Hb | intros; apply IH].
Qed.

Lemma preserves_map_m {A B} (body : A -> M B) (xs : list A) :
  (forall a, preserves R (body a)) -> preserves R (map_m body xs).
Proof using R_refl R_trans.
  intros Hb. induction xs as [|a xs IH]; simpl.
  - apply preserves_ret.
  - apply preserves_bind; [apply Hb | intros b].
    apply preserves_bind; [apply IH | intros; apply preserves_ret].
Qed.

End Preserves.

Lemma cache_only_refl st : cache_only st st.
Proof. exists (cache st). by destruct st. Qed.

Lemma cache_only_trans a b c : cache_only a b -> cache_only b c -> cache_only a c.
Proof. intros [c1 ->] [c2 ->]. by exists c2. Qed.

Lemma cache_only_write st c : cache_only st (set_cache c st).
Proof. by exists c. Qed.

Hint Resolve cache_only_refl cache_only_trans cache_only_write : solver.

Ltac preserving :=
  repeat first
    [ solve [eauto with solver]
    | apply preserves_ret | apply preserves_raise | apply preserves_gets
    | apply preserves_of_option
    | apply preserves_cached | apply preserves_bind | apply preserves_modify
    | progress intros ].

Lemma v_cache_only : preserves cache_only v.
Proof. unfold v. preserving. Qed.

Lemma r_cache_only : preserves cache_only r.
Proof. unfold r. preserving. Qed.

Hint Resolve v_cache_only r_cache_only : solver.

Lemma x_cache_only : preserves cache_only x.
Proof. unfold x. preserving. Qed.

Hint Resolve x_cache_only : solver.

Lemma f_cache_only : preserves cache_only f.
Proof. unfold f. preserving. Qed.

Lemma J_cache_only : preserves cache_only J.
Proof. unfold J. preserving. Qed.

Hint Resolve f_cache_only J_cache_only : solver.

Lemma total_ret {A} (a : A) : total (ret a).
Proof. intros st. by eexists _, _. Qed.

Lemma total_gets {A} (g : Solver -> A) : total (gets g).
Proof. intros st. by eexists _, _. Qed.

Lemma total_modify g : total (modify g).
Proof. intros st. by eexists _, _. Qed.

Lemma total_bind {A B} (c : M A) (k : A -> M B) :
  total c -> (forall a, total (k a)) -> total (bind c k).
Proof.
  intros Hc Hk st. destruct (Hc st) as (a & st1 & E).
  destruct (Hk a st1) as (b & st2 & E2). exists b, st2.
  by rewrite bind_unfold, E.
Qed.

Lemma total_cached {A} rd wr (c : M A) : total c -> total (cached rd wr c).
Proof.
  intros Hc. unfold cached. apply total_bind; [apply total_gets |].
  intros [a|]; [apply total_ret |].
  apply total_bind; [exact Hc | intros a].
  apply total_bind; [apply total_modify | intros; apply total_ret].
Qed.

Ltac totality :=
  repeat first
    [ apply total_ret | apply total_gets | apply total_modify
    | apply total_cached | apply total_bind | progress intros
    | progress eauto with solver ].

Lemma v_total : total v.
Proof. unfold v. totality. Qed.
Lemma r_total : total r.
Proof. unfold r. totality. Qed.
Hint Resolve v_total r_total : solver.
Lemma x_total : total x.
Proof. unfold x. totality. Qed.
Hint Resolve x_total : solver.
Lemma f_total : total f.
Proof. unfold f. totality. Qed.
Lemma J_total : total J.
Proof. unfold J. totality. Qed.
Hint Resolve f_total J_total : solver.

(** A getter leaves everything but the calculated attributes as it was. *)
Lemma cache_only_fields st st' :
  cache_only st st' ->
  cfg st' = cfg st /\ pre_solvers st' = pre_solvers st /\ s st' = s st /\
  curves st' = curves st /\ fx st' = fx st /\ _ad st' = _ad st /\
  it_state st' = it_state st.
Proof. intros [c ->]. by repeat split. Qed.

(** ** The iteration controller *)

(** C1 (as amended).  One pass of the loop of [iterate], with [f_val] the
    objective at its start and [f_prev] the stored previous objective: the
    pass ends the method in the converged (tolerance) state when
    [f_val < f_prev] and [f_prev - f_val < conv_tol]; failing that, it ends
    the method in the converged (function-value) state when
    [f_val < func_tol]; failing both, it stores [f_val] as [f_prev] and
    computes and applies a step.  The tolerance test comes first, so an
    objective below [func_tol] that also meets it is reported as tolerance
    convergence. *)
Theorem iterate_cycle_decision (order : Z) (i : nat) (st st1 : Solver) (fv : D) :
  f st = (Ok fv, st1) ->
  let f_val := dreal fv in
  let fp := f_prev (it_state st) in
  let conv := flt f_val fp && flt (fsub fp f_val) (conv_tol st) in
  let st2 := append_f_list f_val st1 in
  (conv = true ->
     iterate_cycle order i st = (Ok (Some (ConvTolReached i)), st2)) /\
  (conv = false -> flt f_val (func_tol st) = true ->
     iterate_cycle order i st = (Ok (Some (FuncTolReached i)), st2)) /\
  (conv = false -> flt f_val (func_tol st) = false ->
     iterate_cycle order i st =
       (let* v_1 := _update_step_ (algorithm st) in
        update_curves order v_1;;
        _reset_properties_ false;;
        _update_fx;;
        ret None) (set_f_prev f_val st2)).
Proof.
  intros Hf f_val fp conv st2.
  destruct (f_cache_only _ _ _ Hf) as [c ->].
  unfold iterate_cycle. rewrite bind_unfold, Hf. run.
  repeat split; intros H.
  - take_branch conv H. reflexivity.
  - intros H0. take_branch conv H. take_branch (flt f_val (func_tol st)) H0. reflexivity.
  - intros H0. take_branch conv H. take_branch (flt f_val (func_tol st)) H0. reflexivity.
Qed.

(** The prelude of [iterate]: the loop starts from [iterate_entry]. *)
Lemma iterate_unfold st :
  iterate st = iterate_loop (dual_type st) (max_iter st) 0 (iterate_entry st).
Proof.
  unfold iterate, iterate_entry. run. simpl. unfold _update_fx, modify.
  destruct (fx st); reflexivity.
Qed.

Lemma iterate_entry_state st :
  it_state (iterate_entry st) = mkIter 1e10%float [] 1000%float.
Proof.
  unfold iterate_entry. run. simpl. unfold _update_fx, modify. simpl.
  destruct (fx st); reflexivity.
Qed.

(** ** The step algorithms *)

(** C3 (as amended).  [iterate] enters its loop with [lambd = 1000].  For
    a solver with at least one instrument, a
    Levenberg-Marquardt step multiplies [lambd] by 2 exactly when the stored
    [f_prev] is strictly below the current objective and by 0.25 otherwise
    (so also when the two are equal), and returns [v + delta] for the
    [delta] that [np.linalg.solve] gives for
    [(J W J^T + lambd I) delta = -0.5 grad f], raising [LinAlgError] when
    the solver does. *)
Theorem levenberg_marquardt_step (st st1 st2 st3 : Solver) (fv : D) (J0 : Mat)
    (v0 : list D) :
  instruments st <> [] ->
  f st = (Ok fv, st1) ->
  let factor := if flt (f_prev (it_state st)) (dreal fv) then 2%float else 0.25%float in
  let lam := fmul (lambd (it_state st)) factor in
  J (set_lambd lam st1) = (Ok J0, st2) ->
  v st2 = (Ok v0, st3) ->
  let A := mat_add (matmul J0 (matmul (W st) (transpose J0)))
                   (mat_scale lam (eye (n st))) in
  let b := vscale (-0.5)%float (dgradient fv (variables st)) in
  lambd (it_state (iterate_entry st)) = 1000%float /\
  lambd (it_state st2) = lam /\
  _update_step_ "levenberg_marquardt" st =
    match linalg_solve A b with
    | Some delta => (Ok (add_delta v0 delta), st3)
    | None => (Raise LinAlgError, st2)
    end.
Proof.
  intros _ Hf factor lam HJ Hv A b.
  destruct (f_cache_only _ _ _ Hf) as [c1 ->].
  destruct (J_cache_only _ _ _ HJ) as [c2 ->].
  split; [by rewrite iterate_entry_state |]. split; [reflexivity |].
  unfold _update_step_.
  repeat (destruct (decide _) as [Heq|_]; [discriminate Heq |]).
  destruct (decide _) as [_|Hne]; [| by destruct Hne].
  run. simpl. rewrite Hf. simpl. fold factor. fold lam.
  rewrite HJ. simpl. unfold W at 1, weights at 1. simpl.
  change (diag (cfg_weights (cfg st))) with (W st).
  change (n _) with (n st). change (variables _) with (variables st).
  fold A. fold b.
  destruct (linalg_solve A b) as [delta|]; simpl; [| reflexivity].
  rewrite Hv. reflexivity.
Qed.

(** The Jacobian computed on a cache miss has one row per variable and one
    column per instrument. *)
Lemma J_shape st J0 st1 :
  J st = (Ok J0, st1) ->
  _J (cache st) = None ->
  (forall rs, _r (cache st) = Some rs -> length rs = length (instruments st)) ->
  instruments st <> [] ->
  nrows J0 = length (variables st) /\ ncols J0 = length (instruments st).
Proof.
  intros HJ Hmiss Hr Hne. unfold J, cached in HJ. revert HJ. run. rewrite Hmiss.
  unfold r, cached. run.
  assert (forall rs : list D, length rs = length (instruments st) ->
            length (hd [] (map (fun ri => dgradient ri (variables st)) rs))
            = length (variables st)) as Hhd.
  { intros [|r0 rs] Hl; simpl.
    - destruct (instruments st); [by destruct Hne | discriminate].
    - apply dgradient_length. }
  destruct (_r (cache st)) as [rs|] eqn:E.
  - intros [= <- <-]. simpl. rewrite length_map. split; [apply Hhd|]; by apply Hr.
  - intros [= <- <-]. simpl. rewrite length_map. unfold price_all.
    split; [apply Hhd|]; by rewrite length_map.
Qed.

(** C4.  For a solver with at least one instrument, a Gauss-Newton step
    on a square Jacobian returns [v + delta] for the [delta] that
    [np.linalg.solve] gives for [J^T delta = -error], and on any other
    Jacobian for the [delta] it gives for the normal equations
    [(J W J^T) delta = -0.5 grad f]; the Jacobian is square exactly when the
    instrument count equals the variable count. *)
Theorem gauss_newton_step (st st1 : Solver) (J0 : Mat) :
  instruments st <> [] ->
  J st = (Ok J0, st1) ->
  (nrows J0 = ncols J0 ->
   forall xs st2 v0 st3,
     x st1 = (Ok xs, st2) -> v st2 = (Ok v0, st3) ->
     _update_step_ "gauss_newton" st =
       match linalg_solve (transpose J0) (vneg (map dreal xs)) with
       | Some delta => (Ok (add_delta v0 delta), st3)
       | None => (Raise LinAlgError, st2)
       end) /\
  (nrows J0 <> ncols J0 ->
   forall fv st2 v0 st3,
     f st1 = (Ok fv, st2) -> v st2 = (Ok v0, st3) ->
     _update_step_ "gauss_newton" st =
       match linalg_solve (matmul J0 (matmul (W st) (transpose J0)))
                          (vscale (-0.5)%float (dgradient fv (variables st))) with
       | Some delta => (Ok (add_delta v0 delta), st3)
       | None => (Raise LinAlgError, st2)
       end) /\
  (_J (cache st) = None ->
   (forall rs, _r (cache st) = Some rs -> length rs = length (instruments st)) ->
   (nrows J0 = ncols J0 <-> length (variables st) = length (instruments st))).
Proof.
  intros Hinst HJ.
  destruct (J_cache_only _ _ _ HJ) as [c1 ->].
  repeat split.
  - intros Hsq xs st2 v0 st3 Hx Hv.
    unfold _update_step_.
    destruct (decide _) as [Heq|_]; [discriminate Heq |].
    destruct (decide _) as [_|Hne]; [| by destruct Hne].
    rewrite bind_unfold, HJ.
    apply Nat.eqb_eq in Hsq. rewrite Hsq.
    rewrite !bind_unfold, Hx. run. cbn [fst snd].
    destruct (linalg_solve _ _); [by rewrite Hv | reflexivity].
  - intros Hsq fv st2 v0 st3 Hf Hv.
    destruct (f_cache_only _ _ _ Hf) as [c2 E]. rewrite E in *. clear E.
    unfold _update_step_.
    destruct (decide _) as [Heq|_]; [discriminate Heq |].
    destruct (decide _) as [_|Hne]; [| by destruct Hne].
    rewrite bind_unfold, HJ.
    apply Nat.eqb_neq in Hsq. rewrite Hsq.
    run. rewrite Hf. cbn [fst snd].
    destruct (linalg_solve _ _); [by rewrite Hv | reflexivity].
  - intros Hsq. destruct (J_shape _ _ _ HJ) as [<- <-]; done.
  - intros Hsq. destruct (J_shape _ _ _ HJ) as [-> ->]; done.
Qed.

(** *** Exhausting the iteration budget *)

Lemma soft_only_refl st : soft_only st st.
Proof. exists (cache st), (it_state st). by destruct st. Qed.

Lemma soft_only_trans a b c : soft_only a b -> soft_only b c -> soft_only a c.
Proof. intros (c1 & i1 & ->) (c2 & i2 & ->). by exists c2, i2. Qed.

Lemma soft_only_cache st c : soft_only st (set_cache c st).
Proof. exists c, (it_state st). by destruct st. Qed.

Lemma soft_only_iter st it : soft_only st (set_iter it st).
Proof. exists (cache st), it. by destruct st. Qed.

Lemma cache_only_soft {A} (c : M A) : preserves cache_only c -> preserves soft_only c.
Proof.
  intros H st res st' E. destruct (H _ _ _ E) as [ca ->]. apply soft_only_cache.
Qed.

Lemma soft_only_lambd st l : soft_only st (set_lambd l st).
Proof. apply soft_only_iter. Qed.

Hint Resolve soft_only_refl soft_only_trans soft_only_cache soft_only_iter
  soft_only_lambd : solver.
Hint Resolve cache_only_soft : solver.

Lemma update_step_soft_only alg : preserves soft_only (_update_step_ alg).
Proof.
  unfold _update_step_.
  repeat (destruct (decide _) as [_|_]); preserving.
  all: destruct (_ =? _); preserving.
Qed.

Lemma retag_nodes_spec order v_1 nds : forall k nds' k',
  retag_nodes order v_1 k nds = (nds', Some k') ->
  k' = k + length nds /\
  map dreal nds' = take (length nds) (drop k (map dreal v_1)).
Proof.
  induction nds as [|nd rest IH]; intros k nds' k'; simpl.
  - intros [= <- <-]. split; [lia | by rewrite take_0].
  - destruct (v_1 !! k) as [a|] eqn:E; [| discriminate].
    destruct (retag_nodes order v_1 (S k) rest) as [rest' ko] eqn:E2.
    intros [= <- ->]. destruct (IH _ _ _ E2) as [-> IH2].
    split; [lia |]. simpl. rewrite dreal_dmake, IH2.
    rewrite (drop_S (map dreal v_1) (dreal a) k) by (by rewrite list_lookup_fmap, E).
    reflexivity.
Qed.

Lemma retag_nodes_length order v_1 nds : forall k nds' k',
  retag_nodes order v_1 k nds = (nds', Some k') -> length nds' = length nds.
Proof.
  induction nds as [|nd rest IH]; intros k nds' k'; simpl.
  - by intros [= <- <-].
  - destruct (v_1 !! k); [| discriminate].
    destruct (retag_nodes order v_1 (S k) rest) as [rest' ko] eqn:E.
    intros [= <- ->]. simpl. f_equal. eapply IH, E.
Qed.

Lemma drop_take_app {A} (l nds : list A) i :
  length nds = length (drop i l) -> drop i (take i l ++ nds) = nds.
Proof.
  intros Hl. rewrite length_drop in Hl.
  destruct (decide (i <= length l)).
  - apply drop_app_length'. rewrite length_take. lia.
  - destruct nds; [| simpl in Hl; lia].
    rewrite app_nil_r. apply drop_ge. rewrite length_take. lia.
Qed.

Lemma retag_curves_spec order v_1 cs : forall k cs' k',
  retag_curves order v_1 k cs = (cs', Some k') ->
  k' = k + length (controlled_nodes cs) /\
  map dreal (controlled_nodes cs') =
    take (length (controlled_nodes cs)) (drop k (map dreal v_1)).
Proof.
  induction cs as [|c cs IH]; intros k cs' k'; simpl.
  - intros [= <- <-]. split; [lia | by rewrite take_0].
  - destruct (retag_nodes order v_1 k (drop (_ini_solve c) (nodes c)))
      as [nds ko] eqn:E1.
    destruct ko as [k2|]; [| discriminate].
    destruct (retag_curves order v_1 k2 cs) as [cs2 k3] eqn:E2.
    intros [= <- ->].
    destruct (retag_nodes_spec _ _ _ _ _ _ E1) as [-> Hn].
    destruct (IH _ _ _ E2) as [-> Hc].
    pose proof (retag_nodes_length _ _ _ _ _ _ E1) as Hlen.
    unfold controlled_nodes in *. simpl.
    rewrite drop_take_app by exact Hlen.
    rewrite !length_app, !map_app, Hn, Hc, <- drop_drop.
    split; [lia | apply take_take_drop].
Qed.

Lemma update_curves_inv order v_1 st res st' :
  update_curves order v_1 st = (res, st') ->
  st' = set_curves (retag_curves order v_1 0 (curves st)).1 st /\
  (res = Ok tt <-> exists k, (retag_curves order v_1 0 (curves st)).2 = Some k).
Proof.
  unfold update_curves. run. cbn [curves set_curves].
  destruct (retag_curves order v_1 0 (curves st)) as [cs [k|]]; simpl;
    intros [= <- <-]; (split; [reflexivity |]); split; eauto; try discriminate.
  by intros [? ?].
Qed.

(** A pass after which the loop goes on has computed a step [v_1] and
    written it to the curves. *)
Lemma iterate_cycle_continue_inv order i st st' :
  iterate_cycle order i st = (Ok None, st') ->
  exists fv st1 v_1 st2 k,
    f st = (Ok fv, st1) /\
    _update_step_ (algorithm st) (set_f_prev (dreal fv) (append_f_list (dreal fv) st1))
      = (Ok v_1, st2) /\
    retag_curves order v_1 0 (curves st) = (curves st', Some k).
Proof.
  destruct (f_total st) as (fv & st1 & Hf).
  destruct (f_cache_only _ _ _ Hf) as [c1 E1].
  unfold iterate_cycle. rewrite bind_unfold, Hf. run.
  destruct (_ && _); [discriminate |].
  destruct (flt _ _); [discriminate |].
  change (algorithm (set_f_prev _ _)) with (algorithm st1).
  replace (algorithm st1) with (algorithm st) by (by rewrite E1).
  destruct (_update_step_ _ _) as [[v_1|e] st2] eqn:Hstep; [| discriminate].
  destruct (update_curves order v_1 st2) as [[[]|e] st3] eqn:Hupd; [| discriminate].
  intros H. exists fv, st1, v_1, st2.
  destruct (update_step_soft_only _ _ _ _ Hstep) as (c2 & i2 & E2).
  assert (curves st2 = curves st) as Hcs by (by rewrite E2, E1).
  destruct (update_curves_inv _ _ _ _ _ Hupd) as [E3 [Hk _]].
  destruct (Hk eq_refl) as [k Ek]. exists k.
  split; [reflexivity | split; [exact Hstep |]].
  rewrite Hcs in *.
  revert H. unfold _update_fx, _reset_properties_, modify.
  destruct (retag_curves order v_1 0 (curves st)) as [cs ko]. simpl in *. subst ko.
  intros [= <-]. rewrite E3. by destruct (fx _).
Qed.

Lemma iterate_loop_run order k : forall i st st',
  run_cycles order k i st = Some st' ->
  iterate_loop order k i st = (let* _ := f in ret MaxIterBreached) st'.
Proof.
  induction k as [|k IH]; intros i st st'; simpl.
  - by intros [= ->].
  - rewrite bind_unfold.
    destruct (iterate_cycle order i st) as [[[o|]|e] st1]; try discriminate.
    apply IH.
Qed.

Lemma run_cycles_last order k : forall i st st',
  run_cycles order (S k) i st = Some st' ->
  exists stk, run_cycles order k i st = Some stk /\
              iterate_cycle order (i + k) stk = (Ok None, st').
Proof.
  induction k as [|k IH]; intros i st st'.
  - simpl. destruct (iterate_cycle order i st) as [[[o|]|e] st1] eqn:E; try discriminate.
    intros [= <-]. exists st. by rewrite Nat.add_0_r.
  - intros H. change (run_cycles order (S (S k)) i st)
      with (match iterate_cycle order i st with
            | (Ok None, st1) => run_cycles order (S k) (S i) st1
            | _ => None
            end) in H.
    simpl. destruct (iterate_cycle order i st) as [[[o|]|e] st1] eqn:E; try discriminate.
    destruct (IH _ _ _ H) as (stk & Hk & Hc). exists stk.
    by rewrite <- Nat.add_succ_comm.
Qed.

Lemma iterate_entry_curves st : curves (iterate_entry st) = curves st.
Proof.
  unfold iterate_entry. run. unfold _update_fx, _reset_properties_, modify. simpl.
  by destruct (fx st).
Qed.

(** C8.  When every one of the [max_iter] passes of the loop goes on (none
    meets a convergence condition, none raises), [iterate] returns normally
    with the failure outcome, and the curves are those the last pass wrote:
    the real parts of the solver-controlled nodes are those of the last
    computed step [v_1] (with no pass at all, [max_iter = 0], the curves are
    untouched). *)
Theorem iterate_max_iter_breached (st st' : Solver) :
  run_cycles (dual_type st) (max_iter st) 0 (iterate_entry st) = Some st' ->
  exists st_fin,
    iterate st = (Ok MaxIterBreached, st_fin) /\
    curves st_fin = curves st' /\
    (max_iter st = 0 -> curves st_fin = curves st) /\
    (forall k, max_iter st = S k ->
       exists stk fv st1 v_1 st2,
         run_cycles (dual_type st) k 0 (iterate_entry st) = Some stk /\
         f stk = (Ok fv, st1) /\
         _update_step_ (algorithm stk)
            (set_f_prev (dreal fv) (append_f_list (dreal fv) st1)) = (Ok v_1, st2) /\
         map dreal (controlled_nodes (curves st_fin)) =
           take (length (controlled_nodes (curves stk))) (map dreal v_1)).
Proof.
  intros Hrun.
  destruct (f_total st') as (fv' & st_fin & Hf').
  exists st_fin.
  assert (curves st_fin = curves st') as Hcs.
  { destruct (f_cache_only _ _ _ Hf') as [c ->]. reflexivity. }
  split.
  { rewrite iterate_unfold, (iterate_loop_run _ _ _ _ _ Hrun), bind_unfold, Hf'.
    reflexivity. }
  split; [exact Hcs |]. split.
  - intros H0. rewrite H0 in Hrun. injection Hrun as <-.
    by rewrite Hcs, iterate_entry_curves.
  - intros k Hk. rewrite Hk in Hrun.
    destruct (run_cycles_last _ _ _ _ _ Hrun) as (stk & Hstk & Hlast).
    destruct (iterate_cycle_continue_inv _ _ _ _ Hlast)
      as (fv & st1 & v_1 & st2 & k' & Hf & Hstep & Hretag).
    exists stk, fv, st1, v_1, st2. repeat split; try assumption.
    rewrite Hcs. destruct (retag_curves_spec _ _ _ _ _ _ Hretag) as [_ ->].
    by rewrite drop_0.
Qed.

(** ** Scoped mutation in the sensitivity strategies *)

Lemma keeps_errors_refl st : keeps_errors st st.
Proof. by split. Qed.

Lemma keeps_errors_trans a b c : keeps_errors a b -> keeps_errors b c -> keeps_errors a c.
Proof.
  intros [E1 H1] [E2 H2]. split; [congruence |].
  intros H. rewrite E1 in H2. auto.
Qed.

Lemma keeps_errors_write st c :
  _x c = _x (cache st) -> keeps_errors st (set_cache c st).
Proof. intros E. split; [reflexivity |]. intros H xs. simpl. rewrite E. apply H. Qed.

Lemma keeps_errors_lambd st l : keeps_errors st (set_lambd l st).
Proof. by split. Qed.

Hint Resolve keeps_errors_refl keeps_errors_trans keeps_errors_lambd : solver.

Lemma v_keeps_errors : preserves keeps_errors v.
Proof. unfold v. preserving. by apply keeps_errors_write. Qed.

Lemma r_keeps_errors : preserves keeps_errors r.
Proof. unfold r. preserving. by apply keeps_errors_write. Qed.

Hint Resolve v_keeps_errors r_keeps_errors : solver.

Lemma x_keeps_errors : preserves keeps_errors x.
Proof.
  intros st res st'. unfold x, cached. run.
  destruct (_x (cache st)) as [xs|] eqn:E.
  - intros [= <- <-]. apply keeps_errors_refl.
  - destruct (r st) as [[rs|e] st1] eqn:Er; intros [= <- <-];
      destruct (r_cache_only _ _ _ Er) as [c ->]; (split; [reflexivity |]).
    + intros _ xs. simpl. intros [= <-]. by exists rs.
    + destruct (r_total st) as (? & ? & Er'). congruence.
Qed.

Hint Resolve x_keeps_errors : solver.

Lemma f_keeps_errors : preserves keeps_errors f.
Proof. unfold f. preserving. by apply keeps_errors_write. Qed.

Lemma J_keeps_errors : preserves keeps_errors J.
Proof. unfold J. preserving. by apply keeps_errors_write. Qed.

Hint Resolve f_keeps_errors J_keeps_errors : solver.


Lemma update_step_total_state alg st :
  exists res c it, _update_step_ alg st = (res, set_iter it (set_cache c st)).
Proof.
  destruct (_update_step_ alg st) as [res st'] eqn:E.
  destruct (update_step_soft_only _ _ _ _ E) as (c & it & ->). eauto.
Qed.




(** ** Chain aggregation of the first-order sensitivity *)

Lemma preserves_weaken (R R' : Solver -> Solver -> Prop) {A} (c : M A) :
  (forall a b, R a b -> R' a b) -> preserves R c -> preserves R' c.
Proof. intros HR Hc st res st' E. eapply HR, Hc, E. Qed.

Lemma chain_pointwise_refl (ps : list Solver) :
  Forall2 (fun q q' => cfg q' = cfg q /\ cache q' = cache q /\
                       length (pre_solvers q') = length (pre_solvers q)) ps ps.
Proof. apply Forall_Forall2_diag, Forall_forall. by intros. Qed.

Lemma chain_kept_refl st : chain_kept st st.
Proof. split; [reflexivity | apply chain_pointwise_refl]. Qed.

Lemma chain_kept_trans a b c : chain_kept a b -> chain_kept b c -> chain_kept a c.
Proof.
  intros [E1 H1] [E2 H2]. split; [congruence |].
  eapply Forall2_trans; [| exact H1 | exact H2].
  intros q1 q2 q3 (?&?&?) (?&?&?). repeat split; congruence.
Qed.

Lemma chain_kept_soft st st' : soft_only st st' -> chain_kept st st'.
Proof. intros (c & it & ->). split; [reflexivity | apply chain_pointwise_refl]. Qed.

Lemma chain_kept_set_s st ss : chain_kept st (set_s ss st).
Proof. split; [reflexivity | apply chain_pointwise_refl]. Qed.

Lemma set_ad_order_fields o q :
  cfg (_set_ad_order o q) = cfg q /\ cache (_set_ad_order o q) = cache q /\
  length (pre_solvers (_set_ad_order o q)) = length (pre_solvers q) /\
  s (_set_ad_order o q) = s q /\ _ad (_set_ad_order o q) = o /\
  it_state (_set_ad_order o q) = it_state q.
Proof. destruct q; simpl. rewrite length_map. by repeat split. Qed.

Lemma chain_kept_set_ad_order o st : chain_kept st (_set_ad_order o st).
Proof.
  split; [apply set_ad_order_fields |].
  destruct st as [c ps ? ? ? ? ? ?]; simpl.
  apply Forall2_fmap_r, Forall_Forall2_diag, Forall_forall. intros q _.
  destruct (set_ad_order_fields o q) as (? & ? & ? & _). by repeat split.
Qed.

Lemma chain_kept_cache st c : chain_kept st (set_cache c st).
Proof. split; [reflexivity | apply chain_pointwise_refl]. Qed.

Hint Resolve chain_kept_refl chain_kept_trans chain_kept_set_s
  chain_kept_set_ad_order chain_kept_cache : solver.

Lemma soft_chain_kept {A} (c : M A) : preserves soft_only c -> preserves chain_kept c.
Proof. apply preserves_weaken, chain_kept_soft. Qed.

Hint Resolve soft_chain_kept update_step_soft_only : solver.

Lemma reset_cache_only b : preserves cache_only (_reset_properties_ b).
Proof. unfold _reset_properties_. preserving. Qed.

Hint Resolve reset_cache_only : solver.

Lemma grad_s_vT_chain_kept : preserves chain_kept grad_s_vT.
Proof.
  unfold grad_s_vT, _grad_s_vT_final_iteration_analytical,
    _grad_s_vT_final_iteration_dual, _grad_s_vT_fixed_point_iteration.
  preserving.
  all: repeat (destruct (decide _) as [_|_]); preserving.
Qed.

Lemma shape_kept_refl st : shape_kept st st.
Proof. by split. Qed.

Lemma shape_kept_trans a b c : shape_kept a b -> shape_kept b c -> shape_kept a c.
Proof. intros [? ?] [? ?]. split; congruence. Qed.

Lemma chain_shape_kept st st' : chain_kept st st' -> shape_kept st st'.
Proof. intros [? H]. split; [done |]. symmetry. eapply Forall2_length, H. Qed.

Lemma shape_kept_cache st c : shape_kept st (set_cache c st).
Proof. by split. Qed.

Hint Resolve shape_kept_refl shape_kept_trans shape_kept_cache : solver.

Lemma chain_shape_preserved {A} (c : M A) : preserves chain_kept c -> preserves shape_kept c.
Proof. apply preserves_weaken, chain_shape_kept. Qed.

Lemma cache_chain_kept {A} (c : M A) : preserves cache_only c -> preserves chain_kept c.
Proof. intros H. apply soft_chain_kept, cache_only_soft, H. Qed.

Lemma on_pre_shape_kept {A} k (c : M A) : preserves shape_kept (on_pre k c).
Proof.
  intros st res st'. unfold on_pre.
  destruct (pre_solvers st !! k) as [p|]; [| intros [= <- <-]; apply shape_kept_refl].
  destruct (c p) as [r0 p']. intros [= <- <-]. split; [reflexivity |].
  simpl. apply length_insert.
Qed.

Hint Resolve on_pre_shape_kept grad_s_vT_chain_kept chain_shape_preserved
  cache_chain_kept : solver.

Lemma for_chain_preserves (R : Solver -> Solver -> Prop) {A}
    (body : Solver -> nat -> A -> M A) :
  (forall st, R st st) -> (forall a b c, R a b -> R b c -> R a c) ->
  (forall p k acc, preserves R (body p k acc)) ->
  forall chain k acc, preserves R (for_chain body chain k acc).
Proof.
  intros Hrefl Htrans Hb chain. induction chain as [|p chain IH]; intros k acc; simpl.
  - by apply preserves_ret.
  - apply preserves_bind; [exact Htrans | apply Hb | intros; apply IH].
Qed.

Lemma grad_s_vT_pre_link_shape_kept pre_grad k acc :
  preserves shape_kept (grad_s_vT_pre_link pre_grad k acc).
Proof. destruct acc as [[i j] G]. unfold grad_s_vT_pre_link. preserving. Qed.

Lemma grad_s_vT_pre_rec_unfold tree :
  grad_s_vT_pre_rec tree =
    (let* ps := gets pre_solvers in
     if decide (length ps = 0) then grad_s_vT
     else
       cached _grad_s_vT_pre set_grad_s_vT_pre
         (let* pm := gets pre_m in
          let* pn := gets pre_n in
          let* acc := for_chain
                        (fun p k acc => grad_s_vT_pre_link (grad_s_vT_pre_rec p) k acc)
                        (pre_solvers tree) 0 (0, 0, zeros pm pn) in
          let G := acc.2 in
          let* m0 := gets m in
          let* Sm := grad_s_vT in
          of_option (ValueError msg_broadcast)
            (assign_block G (tail_range m0 (nrows G)) (tail_range m0 (ncols G)) Sm))).
Proof. destruct tree; reflexivity. Qed.

Lemma grad_s_vT_pre_rec_shape_kept tree : preserves shape_kept (grad_s_vT_pre_rec tree).
Proof.
  rewrite grad_s_vT_pre_rec_unfold. preserving.
  destruct (decide _); preserving.
  apply for_chain_preserves; eauto with solver.
  intros. apply grad_s_vT_pre_link_shape_kept.
Qed.

(** After a successful read a cached attribute holds the value read. *)
Lemma cached_holds {A} (rd : Cache -> option A) wr (c : M A) st a st' :
  (forall o ca, rd (wr o ca) = o) ->
  cached rd wr c st = (Ok a, st') -> rd (cache st') = Some a.
Proof.
  intros Hrw. unfold cached. run.
  destruct (rd (cache st)) as [a0|] eqn:E.
  - by intros [= <- <-].
  - destruct (c st) as [[a0|e] st1]; intros [= <- <-]. simpl. apply Hrw.
Qed.

Lemma cached_hit {A} (rd : Cache -> option A) wr (c : M A) st a :
  rd (cache st) = Some a -> cached rd wr c st = (Ok a, st).
Proof. intros E. unfold cached. run. by rewrite E. Qed.

Lemma grad_s_vT_pre_rec_caches tree q G q' :
  grad_s_vT_pre_rec tree q = (Ok G, q') -> pre_hit G q'.
Proof.
  intros H. destruct (grad_s_vT_pre_rec_shape_kept _ _ _ _ H) as [_ Hlen].
  rewrite grad_s_vT_pre_rec_unfold in H. revert H. rewrite bind_unfold.
  cbv beta iota delta [gets].
  destruct (decide (length (pre_solvers q) = 0)) as [E|E]; intros H.
  - left. split; [congruence |]. by apply cached_holds in H.
  - right. split; [congruence |]. by apply cached_holds in H.
Qed.

Lemma grad_s_vT_pre_rec_hit tree q G :
  pre_hit G q -> grad_s_vT_pre_rec tree q = (Ok G, q).
Proof.
  intros H. rewrite grad_s_vT_pre_rec_unfold, bind_unfold.
  cbv beta iota delta [gets].
  destruct H as [[E Hc]|[E Hc]].
  - rewrite decide_True by done. by apply cached_hit.
  - rewrite decide_False by done. by apply cached_hit.
Qed.

Lemma pre_hit_kept G q q' :
  cache q' = cache q -> length (pre_solvers q') = length (pre_solvers q) ->
  pre_hit G q -> pre_hit G q'.
Proof. intros Ec El. unfold pre_hit. by rewrite Ec, El. Qed.

Lemma bind_step {A B} (c : M A) (k : A -> M B) st a st1 :
  c st = (Ok a, st1) -> bind c k st = k a st1.
Proof. intros E. by rewrite bind_unfold, E. Qed.

Lemma bind_gets {A B} (g : Solver -> A) (k : A -> M B) st :
  bind (gets g) k st = k (g st) st.
Proof. reflexivity. Qed.

Lemma set_pre_solvers_id st ps : pre_solvers st = ps -> set_pre_solvers ps st = st.
Proof. intros <-. by destruct st. Qed.

Lemma on_pre_single {A} (c : M A) st p res p' :
  pre_solvers st = [p] -> c p = (res, p') ->
  on_pre 0 c st = (res, set_pre_solvers [p'] st).
Proof. intros Hp Hc. unfold on_pre. by rewrite Hp; simpl; rewrite Hc. Qed.

Lemma on_pre_single_gets {A} (g : Solver -> A) st p :
  pre_solvers st = [p] -> on_pre 0 (gets g) st = (Ok (g p), st).
Proof.
  intros Hp. erewrite on_pre_single; [| exact Hp | reflexivity].
  by rewrite set_pre_solvers_id.
Qed.

Ltac bstep H := rewrite (bind_step _ _ _ _ _ H); cbv beta.

(** C2 (as amended).  For a solver with one pre-solver and a square system
    of its own, [grad_s_vT_pre] has shape [(pre_m, pre_n)] and is block
    upper-triangular: the top-left block is the pre-solver's own
    [grad_s_vT_pre], the bottom-right block is this solver's [grad_s_vT],
    the top-right block is
    [-(pre-solver's grad_s_vT_pre) . (grad_v_r . grad_s_vT)], with [grad_v_r]
    the gradient of this solver's priced rates with respect to the
    pre-solver's variables, and the bottom-left block is zero. *)
Theorem grad_s_vT_pre_single_link (st p p1 st_b st_c : Solver) (Pm Sm : Mat)
    (rs : list D) :
  pre_solvers st = [p] ->
  _grad_s_vT_pre (cache st) = None ->
  grad_s_vT_pre p = (Ok Pm, p1) ->
  r (set_pre_solvers [p1] st) = (Ok rs, st_b) ->
  grad_s_vT st_b = (Ok Sm, st_c) ->
  wf_mat Pm -> nrows Pm = pre_m p -> ncols Pm = pre_n p ->
  nrows Sm = m st -> ncols Sm = n st -> n st = m st -> m st <> 0 ->
  pre_m st = pre_m p + m st -> pre_n st = pre_n p + n st ->
  let Gvr := transpose (of_rows (map (fun ri => dgradient ri (pre_variables p)) rs)) in
  let B := mat_scale (-1)%float (matmul Pm (matmul Gvr Sm)) in
  exists G st',
    grad_s_vT_pre st = (Ok G, st') /\
    nrows G = pre_m st /\ ncols G = pre_n st /\
    forall i j, i < pre_m st -> j < pre_n st ->
      mat_get G i j =
        if decide (i < pre_m p) then
          if decide (j < pre_n p) then mat_get Pm i j else mat_get B i (j - pre_n p)
        else
          if decide (j < pre_n p) then 0%float
          else mat_get Sm (i - pre_m p) (j - pre_n p).
Proof.
  intros Hps Hmiss HP Hr HS HwfP HPr HPc HSr HSc Hsq Hm0 Hpm Hpn Gvr B.
  unfold grad_s_vT_pre in HP.
  (* the states met on the way *)
  set (st_a := set_pre_solvers [p1] st) in *.
  assert (pre_solvers st_a = [p1]) as Hps_a by reflexivity.
  destruct (r_cache_only _ _ _ Hr) as [cb Eb].
  assert (pre_solvers st_b = [p1]) as Hps_b by (by rewrite Eb).
  destruct (grad_s_vT_chain_kept _ _ _ HS) as [Ecfg_c Hchain].
  rewrite Hps_b in Hchain.
  apply Forall2_cons_inv_l in Hchain as (p_c & tl & (Hc1 & Hc2 & Hc3) & Htl & Hps_c).
  apply Forall2_nil_inv_l in Htl as ->.
  pose proof (grad_s_vT_pre_rec_shape_kept _ _ _ _ HP) as [Ecfg_p _].
  assert (grad_s_vT_pre_rec p p_c = (Ok Pm, p_c)) as HP2.
  { apply grad_s_vT_pre_rec_hit. eapply pre_hit_kept; [exact Hc2 | exact Hc3 |].
    eapply grad_s_vT_pre_rec_caches, HP. }
  assert (cfg st_c = cfg st) as Ecfg by (by rewrite Ecfg_c, Eb).
  assert (m st_c = m st) as Em by (unfold m; by rewrite Ecfg).
  assert (grad_s_vT st_c = (Ok Sm, st_c)) as HS2.
  { apply cached_hit. eapply cached_holds in HS; [exact HS | done]. }
  (* the three slice assignments *)
  destruct (assign_block_spec (zeros (pre_m st) (pre_n st)) Pm 0 (pre_m p) 0 (pre_n p))
    as (G1 & HG1 & Hwf1 & Hr1 & Hc1' & Hget1);
    [apply wf_zeros | simpl; lia.. |].
  simpl in Hr1, Hc1', Hget1.
  destruct (assign_block_spec G1 B 0 (pre_m p) (pre_n p) (pre_n st))
    as (G2 & HG2 & Hwf2 & Hr2 & Hc2' & Hget2);
    [exact Hwf1 | rewrite ?Hr1, ?Hc1'; simpl; lia.. |].
  rewrite Hr1, Hc1' in *.
  destruct (assign_block_spec G2 Sm (pre_m p) (pre_m st) (pre_n p) (pre_n st))
    as (G3 & HG3 & Hwf3 & Hr3 & Hc3' & Hget3);
    [exact Hwf2 | rewrite ?Hr2, ?Hc2'; simpl; lia.. |].
  rewrite Hr2, Hc2' in *.
  (* one pass of the loop *)
  assert (grad_s_vT_pre_link (grad_s_vT_pre_rec p) 0 (0, 0, zeros (pre_m st) (pre_n st)) st
          = (Ok (0 + pre_m p, 0 + pre_n p, G2), st_c)) as Hlink.
  { unfold grad_s_vT_pre_link.
    bstep (on_pre_single_gets pre_m st p Hps).
    bstep (on_pre_single_gets pre_n st p Hps).
    bstep (on_pre_single _ st p _ _ Hps HP). fold st_a.
    cbn [nrows ncols zeros]. rewrite !slice_range_le by lia. rewrite HG1.
    cbn [of_option]. rewrite bind_unfold. cbv beta iota delta [ret].
    bstep Hr.
    bstep (on_pre_single_gets pre_variables st_b p1 Hps_b).
    bstep HS.
    bstep (on_pre_single _ st_c p_c _ _ Hps_c HP2).
    rewrite (set_pre_solvers_id st_c [p_c] Hps_c).
    rewrite bind_gets, Em, Hr1, Hc1'.
    rewrite slice_range_le, tail_range_pos by lia.
    replace (pre_n st - m st) with (pre_n p) by lia.
    replace (pre_variables p1) with (pre_variables p)
      by (unfold pre_variables; by rewrite Ecfg_p).
    fold Gvr. fold B. rewrite HG2. reflexivity. }
  exists G3. eexists. split; [| split; [| split]].
  - unfold grad_s_vT_pre. rewrite grad_s_vT_pre_rec_unfold.
    rewrite bind_gets, Hps. rewrite decide_False by done.
    unfold cached. rewrite bind_gets, Hmiss.
    erewrite bind_step; [reflexivity |].
    rewrite !bind_gets. cbn [for_chain].
    erewrite bind_step; [| erewrite bind_step; [reflexivity | exact Hlink]].
    cbn [snd]. rewrite bind_gets, Em. bstep HS2. rewrite Hr2, Hc2'.
    rewrite !tail_range_pos by lia.
    replace (pre_m st - m st) with (pre_m p) by lia.
    replace (pre_n st - m st) with (pre_n p) by lia.
    rewrite HG3. reflexivity.
  - by rewrite Hr3.
  - by rewrite Hc3'.
  - intros i j Hi Hj.
    rewrite Hget3, Hget2, Hget1 by (rewrite ?Hr2, ?Hc2'; lia).
    rewrite mat_get_zeros, !Nat.sub_0_r.
    destruct (decide (i < pre_m p)); destruct (decide (j < pre_n p));
      repeat (destruct (decide _); try lia); reflexivity.
Qed.

(** ** Parsing instruments *)

Lemma default_kwargs_solver self_id self_fx :
  default_kwargs self_id self_fx !! "solver" = Some (KwSolver self_id).
Proof. unfold default_kwargs. apply lookup_insert_eq. Qed.

Lemma default_kwargs_fx self_id self_fx :
  default_kwargs self_id self_fx !! "fx" = Some (kw_of_fx self_fx).
Proof.
  unfold default_kwargs. rewrite lookup_insert_ne by done. apply lookup_singleton_eq.
Qed.

Lemma lookup_over_default (kw dflt : gmap string KwVal) key d :
  dflt !! key = Some d -> (kw ∪ dflt) !! key = Some (default d (kw !! key)).
Proof.
  intros Hd. rewrite lookup_union, Hd. by destruct (kw !! key).
Qed.

(** C7 (as amended).  In the triple parsed from an accepted instrument
    specification the ["solver"] entry is the owning solver and the ["fx"]
    entry is the solver's FX object, unless the caller's keyword arguments
    have an entry under that key, which is then the one kept. *)
Theorem parse_instrument_kwargs (self_id : string) (self_fx : option FX)
    (value : InstrumentSpec) (inst : Instrument) (args : list PyArg)
    (kw : gmap string KwVal) :
  _parse_instrument self_id self_fx value = Ok (inst, args, kw) ->
  kw !! "solver" = Some (default (KwSolver self_id) (caller_kwargs value !! "solver")) /\
  kw !! "fx" = Some (default (kw_of_fx self_fx) (caller_kwargs value !! "fx")).
Proof.
  destruct value as [i|items]; simpl.
  - intros [= <- <- <-]. rewrite !lookup_empty. simpl.
    split; [apply default_kwargs_solver | apply default_kwargs_fx].
  - destruct (decide (length items <> 3)); [discriminate |].
    destruct items as [|[| ret0 | |] [|a [|k [|]]]]; try discriminate.
    destruct a as [| | l |]; try discriminate;
      destruct k as [| | | kw0]; try discriminate; simpl.
    1, 3: intros [= <- <- <-]; rewrite !lookup_empty; simpl;
      split; [apply default_kwargs_solver | apply default_kwargs_fx].
    all: destruct (decide (kw0 = ∅)) as [->|Hne]; intros [= <- <- <-];
      [ rewrite !lookup_empty; simpl;
        split; [apply default_kwargs_solver | apply default_kwargs_fx]
      | split; apply lookup_over_default;
        [apply default_kwargs_solver | apply default_kwargs_fx] ].
Qed.

(** ** The cross-solver Jacobian *)

Lemma hard_kept_refl st : hard_kept st st.
Proof. by repeat split. Qed.

Lemma hard_kept_trans a b c : hard_kept a b -> hard_kept b c -> hard_kept a c.
Proof. intros (?&?&?&?) (?&?&?&?). repeat split; congruence. Qed.

Lemma soft_hard_kept st st' : soft_only st st' -> hard_kept st st'.
Proof. intros (c & it & ->). by repeat split. Qed.

Lemma hard_kept_curves st cs : hard_kept st (set_curves cs st).
Proof. by repeat split. Qed.

Lemma hard_kept_fx st o : hard_kept st (set_fx o st).
Proof. by repeat split. Qed.

Lemma hard_kept_iter st it : hard_kept st (set_iter it st).
Proof. by repeat split. Qed.

Lemma hard_kept_cache st c : hard_kept st (set_cache c st).
Proof. by repeat split. Qed.

Hint Resolve hard_kept_refl hard_kept_trans hard_kept_curves hard_kept_fx
  hard_kept_iter hard_kept_cache : solver.

Lemma soft_hard_preserved {A} (c : M A) : preserves soft_only c -> preserves hard_kept c.
Proof. apply preserves_weaken, soft_hard_kept. Qed.

Hint Resolve soft_hard_preserved : solver.

Lemma update_fx_hard_kept : preserves hard_kept _update_fx.
Proof. unfold _update_fx. preserving. destruct (fx st); eauto with solver. Qed.

Lemma update_curves_hard_kept order v_1 : preserves hard_kept (update_curves order v_1).
Proof. unfold update_curves. preserving. destruct (_.2); preserving. Qed.

Hint Resolve update_fx_hard_kept update_curves_hard_kept : solver.

Lemma iterate_cycle_hard_kept order i : preserves hard_kept (iterate_cycle order i).
Proof.
  unfold iterate_cycle. preserving.
  destruct (_ && _); preserving. destruct (flt _ _); preserving.
Qed.

Lemma iterate_loop_hard_kept order k : forall i, preserves hard_kept (iterate_loop order k i).
Proof.
  induction k as [|k IH]; intros i; simpl.
  - preserving.
  - apply preserves_bind; [apply hard_kept_trans | apply iterate_cycle_hard_kept |].
    intros [o|]; [preserving | apply IH].
Qed.

Lemma iterate_hard_kept : preserves hard_kept iterate.
Proof.
  unfold iterate. preserving. apply iterate_loop_hard_kept.
Qed.






(** ** The cross-gamma report *)

(** Induction along the dependency chain. *)
Lemma Solver_chain_ind (Pr : Solver -> Prop) :
  (forall st, Forall Pr (pre_solvers st) -> Pr st) -> forall st, Pr st.
Proof.
  intros H. fix IH 1. intros st. apply H.
  destruct st as [c ps ? ? ? ? ? ?]. simpl.
  induction ps as [|p ps IHps]; constructor; [apply IH | exact IHps].
Qed.

Section RaisesOnly.
Variable Q : Exn -> Prop.

Lemma ro_ret {A} (a : A) : raises_only Q (ret a).
Proof. intros st e st'. discriminate. Qed.

Lemma ro_gets {A} (g : Solver -> A) : raises_only Q (gets g).
Proof. intros st e st'. discriminate. Qed.

Lemma ro_modify g : raises_only Q (modify g).
Proof. intros st e st'. discriminate. Qed.

Lemma ro_raise {A} e : Q e -> raises_only Q (@raise _ A e).
Proof. intros He st e' st' [= <- <-]. exact He. Qed.

Lemma ro_of_option {A} e (o : option A) : Q e -> raises_only Q (of_option e o).
Proof. intros He. destruct o; [apply ro_ret | by apply ro_raise]. Qed.

Lemma ro_bind {A B} (c : M A) (k : A -> M B) :
  raises_only Q c -> (forall a, raises_only Q (k a)) -> raises_only Q (bind c k).
Proof.
  intros Hc Hk st e st'. rewrite bind_unfold.
  destruct (c st) as [[a|e0] st1] eqn:E.
  - apply Hk.
  - intros [= <- <-]. eapply Hc, E.
Qed.

Lemma ro_cached {A} rd wr (c : M A) : raises_only Q c -> raises_only Q (cached rd wr c).
Proof.
  intros Hc. unfold cached. apply ro_bind; [apply ro_gets |].
  intros [a|]; [apply ro_ret |].
  apply ro_bind; [exact Hc | intros a].
  apply ro_bind; [apply ro_modify | intros; apply ro_ret].
Qed.

Lemma ro_total {A} (c : M A) : total c -> raises_only Q c.
Proof. intros Hc st e st' E. destruct (Hc st) as (a & st1 & E1). congruence. Qed.

Lemma ro_on_pre {A} k (c : M A) :
  Q IndexError -> raises_only Q c -> raises_only Q (on_pre k c).
Proof.
  intros HQ Hc st e st'. unfold on_pre.
  destruct (pre_solvers st !! k) as [p|]; [| by intros [= <- <-]].
  destruct (c p) as [r0 p'] eqn:E. intros [= -> <-]. eapply Hc, E.
Qed.

Lemma ro_for_chain {A} (body : Solver -> nat -> A -> M A) chain :
  Forall (fun p => forall k acc, raises_only Q (body p k acc)) chain ->
  forall k acc, raises_only Q (for_chain body chain k acc).
Proof.
  induction 1 as [|p chain Hp _ IH]; intros k acc; simpl.
  - apply ro_ret.
  - apply ro_bind; [apply Hp | intros; apply IH].
Qed.

Lemma ro_map_m {A B} (body : A -> M B) xs :
  (forall a, raises_only Q (body a)) -> raises_only Q (map_m body xs).
Proof.
  intros Hb. induction xs as [|a xs IH]; simpl; [apply ro_ret |].
  apply ro_bind; [apply Hb | intros b].
  apply ro_bind; [apply IH | intros; apply ro_ret].
Qed.

End RaisesOnly.

Lemma nmf_linalg : not_missing_fx LinAlgError.
Proof. discriminate. Qed.
Lemma nmf_index : not_missing_fx IndexError.
Proof. discriminate. Qed.
Lemma nmf_not_implemented a : not_missing_fx (NotImplementedError a).
Proof. discriminate. Qed.
Lemma nmf_attribute a : not_missing_fx (AttributeError a).
Proof. discriminate. Qed.
Lemma nmf_ad_mode : not_missing_fx (ValueError msg_ad_mode).
Proof. by intros [=]. Qed.
Lemma nmf_gamma_order : not_missing_fx (ValueError msg_gamma_order).
Proof. by intros [=]. Qed.
Lemma nmf_broadcast : not_missing_fx (ValueError msg_broadcast).
Proof. by intros [=]. Qed.

Hint Resolve nmf_linalg nmf_index nmf_not_implemented nmf_attribute nmf_ad_mode
  nmf_gamma_order nmf_broadcast : solver.

Ltac raising :=
  repeat first
    [ solve [eauto with solver]
    | apply ro_total; solve [eauto with solver]
    | apply ro_ret | apply ro_gets | apply ro_modify
    | apply ro_raise | apply ro_of_option | apply ro_on_pre
    | apply ro_cached | apply ro_bind | apply ro_map_m
    | progress intros ].

Lemma update_step_nmf alg : raises_only not_missing_fx (_update_step_ alg).
Proof.
  unfold _update_step_.
  repeat (destruct (decide _) as [_|_]); raising.
  all: destruct (_ =? _); raising.
Qed.

Hint Resolve update_step_nmf : solver.

Lemma grad_s_vT_nmf : raises_only not_missing_fx grad_s_vT.
Proof.
  unfold grad_s_vT, _grad_s_vT_final_iteration_analytical,
    _grad_s_vT_final_iteration_dual, _grad_s_vT_fixed_point_iteration,
    _reset_properties_.
  raising.
  repeat (destruct (decide _) as [_|_]); raising.
Qed.

Lemma J2_nmf : raises_only not_missing_fx J2.
Proof. unfold J2. raising. destruct (decide _); raising. Qed.

Hint Resolve grad_s_vT_nmf J2_nmf : solver.

Lemma grad_s_vT_pre_rec_nmf tree : raises_only not_missing_fx (grad_s_vT_pre_rec tree).
Proof.
  induction tree as [tree IH] using Solver_chain_ind.
  rewrite grad_s_vT_pre_rec_unfold. raising.
  destruct (decide _); raising.
  apply ro_for_chain. eapply Forall_impl; [exact IH |].
  intros p Hp k [[i j] G]. unfold grad_s_vT_pre_link. raising.
Qed.

Lemma J2_pre_rec_unfold tree :
  J2_pre_rec tree =
    (let* ps := gets pre_solvers in
     if decide (length ps = 0) then J2
     else
       cached _J2_pre set_J2_pre
         (let* ad := gets _ad in
          if decide (ad <> 2%Z) then raise (ValueError msg_ad_mode)
          else
            let* pm := gets pre_m in
            let* pn := gets pre_n in
            let* acc := for_chain
                          (fun p k acc => J2_pre_link (J2_pre_rec p) k acc)
                          (pre_solvers tree) 0 (0, 0, ten_zeros pn pn pm) in
            let T := acc.2 in
            let* rates := gets price_all in
            let* pvars := gets pre_variables in
            let B := ten_transpose_120
                       (ten_of_mats (map (fun ri => dgradient2 ri pvars) rates)) in
            let* m0 := gets m in
            of_option (ValueError msg_broadcast)
              (assign_block3 T (full_range (dim0 T)) (full_range (dim1 T))
                               (tail_range m0 (dim2 T)) B))).
Proof. destruct tree; reflexivity. Qed.

Lemma J2_pre_rec_nmf tree : raises_only not_missing_fx (J2_pre_rec tree).
Proof.
  induction tree as [tree IH] using Solver_chain_ind.
  rewrite J2_pre_rec_unfold. raising.
  destruct (decide _); raising.
  destruct (decide _); raising.
  apply ro_for_chain. eapply Forall_impl; [exact IH |].
  intros p Hp k [[i j] G]. unfold J2_pre_link. raising.
Qed.

Lemma grad_s_vT_pre_nmf : raises_only not_missing_fx grad_s_vT_pre.
Proof. intros st. apply grad_s_vT_pre_rec_nmf. Qed.

Lemma J2_pre_nmf : raises_only not_missing_fx J2_pre.
Proof. intros st. apply J2_pre_rec_nmf. Qed.

Hint Resolve grad_s_vT_pre_nmf J2_pre_nmf : solver.

Lemma grad_s_s_vT_pre_nmf : raises_only not_missing_fx grad_s_s_vT_pre.
Proof.
  unfold grad_s_s_vT_pre, grad_s_s_vT, _grad_s_s_vT_final_iteration_analytical.
  raising. destruct (decide _); raising.
Qed.

Hint Resolve grad_s_s_vT_pre_nmf : solver.

Lemma gamma_nmf npv base fx_arg : raises_only not_missing_fx (gamma npv base fx_arg).
Proof.
  unfold gamma, _gamma_inst_arr_local. raising. destruct (decide _); raising.
Qed.

Section ReturnsOn.
Variable I : Solver -> Prop.
Hypothesis I_cache : forall st c, I st -> I (set_cache c st).

Lemma rt_ret {A} (a : A) : returns_on I (ret a).
Proof. intros st H. by exists a, st. Qed.

Lemma rt_gets {A} (g : Solver -> A) : returns_on I (gets g).
Proof. intros st H. by exists (g st), st. Qed.

Lemma rt_bind {A B} (c : M A) (k : A -> M B) :
  returns_on I c -> (forall a, returns_on I (k a)) -> returns_on I (bind c k).
Proof.
  intros Hc Hk st H. destruct (Hc st H) as (a & st1 & E & H1).
  destruct (Hk a st1 H1) as (b & st2 & E2 & H2). exists b, st2.
  by rewrite bind_unfold, E.
Qed.

Lemma rt_cached {A} rd wr (c : M A) : returns_on I c -> returns_on I (cached rd wr c).
Proof using I_cache.
  intros Hc. unfold cached. apply rt_bind; [apply rt_gets |].
  intros [a|]; [apply rt_ret |].
  apply rt_bind; [exact Hc | intros a].
  apply rt_bind; [| intros; apply rt_ret].
  intros st H. eexists tt, _. split; [reflexivity |]. by apply I_cache.
Qed.

Lemma rt_getter {A} (c : M A) : total c -> preserves cache_only c -> returns_on I c.
Proof using I_cache.
  intros Ht Hp st H. destruct (Ht st) as (a & st' & E).
  destruct (Hp _ _ _ E) as [ca ->]. exists a. eexists. split; [exact E |].
  by apply I_cache.
Qed.

Lemma rt_map_m {A B} (body : A -> M B) xs :
  (forall a, returns_on I (body a)) -> returns_on I (map_m body xs).
Proof.
  intros Hb. induction xs as [|a xs IH]; simpl; [apply rt_ret |].
  apply rt_bind; [apply Hb | intros b].
  apply rt_bind; [apply IH | intros; apply rt_ret].
Qed.

End ReturnsOn.

Lemma gamma_ready_cache st c : gamma_ready st -> gamma_ready (set_cache c st).
Proof. by intros (?&?&?). Qed.

Hint Resolve gamma_ready_cache : solver.

Ltac returning :=
  repeat first
    [ solve [eauto with solver]
    | apply rt_getter; solve [eauto with solver]
    | apply rt_ret | apply rt_gets
    | apply rt_cached | apply rt_bind | apply rt_map_m
    | progress intros ].

Lemma J2_at_order_2 st :
  _ad st = 2%Z -> exists T st', J2 st = (Ok T, st') /\ cache_only st st'.
Proof.
  intros Had. unfold J2, cached. rewrite bind_gets.
  destruct (_J2 (cache st)) as [T|]; [exists T, st; eauto with solver |].
  rewrite bind_unfold, bind_gets, Had. rewrite decide_False by (intros H; by apply H).
  rewrite !bind_gets. eexists _, _. split; [reflexivity | eauto with solver].
Qed.

Lemma J2_gamma_ready : returns_on gamma_ready J2.
Proof.
  intros st H. destruct (J2_at_order_2 st) as (T & st' & E & [c ->]); [apply H |].
  exists T. eexists. split; [exact E | by apply gamma_ready_cache].
Qed.

Lemma grad_s_vT_gamma_ready : returns_on gamma_ready grad_s_vT.
Proof.
  unfold grad_s_vT. apply rt_cached; [apply gamma_ready_cache |].
  intros st H. assert (H' := H). destruct H' as (_ & _ & Hm).
  rewrite bind_gets, Hm. rewrite decide_True by done.
  assert (returns_on gamma_ready _grad_s_vT_final_iteration_analytical) as Hr
    by (unfold _grad_s_vT_final_iteration_analytical; returning).
  exact (Hr st H).
Qed.

Hint Resolve J2_gamma_ready grad_s_vT_gamma_ready : solver.

Lemma grad_s_vT_pre_gamma_ready : returns_on gamma_ready grad_s_vT_pre.
Proof.
  intros st H. unfold grad_s_vT_pre. rewrite grad_s_vT_pre_rec_unfold.
  assert (H' := H). destruct H' as (Hp & _). rewrite bind_gets, Hp.
  rewrite decide_True by done. by apply grad_s_vT_gamma_ready.
Qed.

Lemma J2_pre_gamma_ready : returns_on gamma_ready J2_pre.
Proof.
  intros st H. unfold J2_pre. rewrite J2_pre_rec_unfold.
  assert (H' := H). destruct H' as (Hp & _). rewrite bind_gets, Hp.
  rewrite decide_True by done. by apply J2_gamma_ready.
Qed.

Hint Resolve grad_s_vT_pre_gamma_ready J2_pre_gamma_ready : solver.

Lemma grad_s_s_vT_pre_gamma_ready : returns_on gamma_ready grad_s_s_vT_pre.
Proof.
  intros st H. unfold grad_s_s_vT_pre.
  assert (H' := H). destruct H' as (Hp & _). rewrite bind_gets, Hp.
  rewrite decide_True by done.
  assert (returns_on gamma_ready grad_s_s_vT) as Hr
    by (unfold grad_s_s_vT, _grad_s_s_vT_final_iteration_analytical; returning).
  exact (Hr st H).
Qed.

Hint Resolve grad_s_s_vT_pre_gamma_ready : solver.

Lemma gamma_inst_arr_local_gamma_ready npv :
  returns_on gamma_ready (_gamma_inst_arr_local npv).
Proof. unfold _gamma_inst_arr_local. returning. Qed.

Lemma set_ad_order_2_ready st :
  pre_solvers st = [] ->
  cfg_grad_s_vT_method (cfg st) = "_grad_s_vT_final_iteration_analytical" ->
  gamma_ready (_set_ad_order 2 st).
Proof.
  intros Hp Hm. destruct st; simpl in *. subst. by repeat split.
Qed.

(** C6 (as amended).  At differentiation order 1, [gamma] fails with a
    state error, and so does [J2] unless a [J2] tensor is already cached, in
    which case that tensor is returned.  After switching to order 2, [J2]
    returns for a solver with at least one instrument, and [gamma] passes
    its order check and computes the local cross-gamma table, returning it
    for a solver with at least one instrument, no pre-solver and the
    default analytical first-order strategy. *)
Theorem second_order_needs_order_2 (st : Solver) (npv : list (string * D))
    (base : option string) (fx_arg : option FX) :
  _ad st = 1%Z ->
  gamma npv base fx_arg st = (Raise (ValueError msg_gamma_order), st) /\
  (_J2 (cache st) = None -> J2 st = (Raise (ValueError msg_ad_mode), st)) /\
  (forall T, _J2 (cache st) = Some T -> J2 st = (Ok T, st)) /\
  (instruments st <> [] -> exists T st', J2 (_set_ad_order 2 st) = (Ok T, st')) /\
  gamma npv base fx_arg (_set_ad_order 2 st)
    = _gamma_inst_arr_local npv (_set_ad_order 2 st) /\
  (instruments st <> [] -> pre_solvers st = [] ->
   cfg_grad_s_vT_method (cfg st) = "_grad_s_vT_final_iteration_analytical" ->
   exists df st', gamma npv base fx_arg (_set_ad_order 2 st) = (Ok df, st')).
Proof.
  intros Had.
  assert (_ad (_set_ad_order 2 st) = 2%Z) as Had2 by apply set_ad_order_fields.
  assert (gamma npv base fx_arg (_set_ad_order 2 st)
          = _gamma_inst_arr_local npv (_set_ad_order 2 st)) as Hg.
  { unfold gamma. rewrite bind_gets, Had2. by rewrite decide_False by (intros H; by apply H). }
  split; [| split; [| split; [| split; [| split]]]].
  - unfold gamma. rewrite bind_gets, Had. by rewrite decide_True by done.
  - intros Hmiss. unfold J2, cached. rewrite bind_gets, Hmiss.
    rewrite bind_unfold, bind_gets, Had. by rewrite decide_True by done.
  - intros T Hhit. by apply cached_hit.
  - intros _. destruct (J2_at_order_2 _ Had2) as (T & st' & E & _). eauto.
  - exact Hg.
  - intros _ Hp Hm. rewrite Hg.
    destruct (gamma_inst_arr_local_gamma_ready npv _ (set_ad_order_2_ready _ Hp Hm))
      as (df & st' & E & _).
    eauto.
Qed.

Lemma map_m_blocks {A} (body : A -> M (string * string * Mat)) (key : A -> string) xs :
  (forall a st b st', body a st = (Ok b, st') -> b.1.1 = key a /\ b.1.2 = key a) ->
  forall st bs st', map_m body xs st = (Ok bs, st') ->
    Forall2 (fun a b => b.1.1 = key a /\ b.1.2 = key a) xs bs.
Proof.
  intros Hb. induction xs as [|a xs IH]; simpl; intros st bs st'.
  - intros [= <- <-]. constructor.
  - intros H. apply bind_Ok_inv in H as (b & st1 & Eb & H).
    apply bind_Ok_inv in H as (bs' & st2 & Ebs & H).
    injection H as <- <-. constructor; [eapply Hb, Eb | eapply IH, Ebs].
Qed.

(** C9.  At order 2, [gamma(npv, base, fx)] is the local cross-gamma
    computation on [npv] alone: its outcome is the one of
    [gamma(npv, None, None)] whatever [base] and [fx] are; the table it
    returns has rows and columns for the currencies of [npv] only, each
    block written under one and the same currency for its rows and its
    columns; and it never raises the configuration error for a [base]
    given without an FX object. *)
Theorem gamma_ignores_base_and_fx (st : Solver) (npv : list (string * D))
    (base : option string) (fx_arg : option FX) :
  _ad st = 2%Z ->
  gamma npv base fx_arg st = _gamma_inst_arr_local npv st /\
  gamma npv base fx_arg st = gamma npv None None st /\
  (forall df st',
     gamma npv base fx_arg st = (Ok df, st') ->
     gf_index df = gamma_keys (map fst npv) (pre_instrument_labels st) /\
     gf_columns df = gamma_keys (map fst npv) (pre_instrument_labels st) /\
     Forall2 (fun cv b => b.1.1 = cv.1 /\ b.1.2 = cv.1) npv (gf_blocks df)) /\
  (forall st', gamma npv base fx_arg st <> (Raise (ValueError msg_base_without_fx), st')).
Proof.
  intros Had.
  assert (gamma npv base fx_arg st = _gamma_inst_arr_local npv st) as Hg.
  { unfold gamma. rewrite bind_gets, Had. by rewrite decide_False by (intros H; by apply H). }
  split; [exact Hg |]. split; [reflexivity |]. split.
  - intros df st'. rewrite Hg. unfold _gamma_inst_arr_local.
    rewrite !bind_gets. intros H.
    apply bind_Ok_inv in H as (blocks & st1 & Hb & H). injection H as <- <-. simpl.
    repeat split.
    eapply (map_m_blocks _ fst); [| exact Hb].
    intros cv sa b sb H.
    apply bind_Ok_inv in H as (G1 & sa1 & _ & H). rewrite bind_gets in H.
    apply bind_Ok_inv in H as (G2 & sa2 & _ & H).
    apply bind_Ok_inv in H as (T & sa3 & _ & H).
    by injection H as <- <-.
  - intros st' H. by apply gamma_nmf in H.
Qed.

(** * Further properties of the solver *)

(** ** Calculated attributes *)

Lemma cached_memoised {A} (rd : Cache -> option A) wr (c : M A) :
  (forall o ca, rd (wr o ca) = o) ->
  preserves cache_only c -> memoised (cached rd wr c).
Proof.
  intros Hrw Hp st a st' E. split.
  - eapply preserves_cached; [| | | exact Hp | exact E]; eauto with solver.
  - intros ss cs. apply cached_hit. simpl. eapply cached_holds; [exact Hrw | exact E].
Qed.

(** X1.  [v], [r], [x], [f] and [J] are memoised: the first read computes
    and stores the value, and later reads return the stored value unchanged
    even when the targets [s] or the curves have been replaced in between,
    until the attributes are reset. *)
Theorem calculated_attributes_are_memoised :
  memoised v /\ memoised r /\ memoised x /\ memoised f /\ memoised J.
Proof.
  split; [| split; [| split; [| split]]]; apply cached_memoised; try done; preserving.
Qed.

Lemma reset_cache_full c : reset_cache false c = empty_cache.
Proof. reflexivity. Qed.

Lemma price_all_cache st c : price_all (set_cache c st) = price_all st.
Proof. by destruct st. Qed.

(** X2.  After [_reset_properties_()] no calculated attribute is left, so
    the next reads of [v] and [r] compute from the curves and the
    instruments as they are now, whatever was stored before.  After [_reset_properties_(dual2_only=True)] the seven
    first-order attributes are the stored ones and the four second-order
    ones are gone.  Nothing but calculated attributes is touched. *)
Theorem reset_properties_forces_recomputation (st : Solver) :
  let st0 := (_reset_properties_ false st).2 in
  let st2 := (_reset_properties_ true st).2 in
  st0 = set_cache empty_cache st /\
  (v st0).1 = Ok (controlled_nodes (curves st)) /\
  (r st0).1 = Ok (price_all st) /\
  cache_only st st2 /\
  (_v (cache st2), _r (cache st2), _x (cache st2), _f (cache st2), _J (cache st2),
   _grad_s_vT (cache st2), _grad_s_vT_pre (cache st2))
  = (_v (cache st), _r (cache st), _x (cache st), _f (cache st), _J (cache st),
     _grad_s_vT (cache st), _grad_s_vT_pre (cache st)) /\
  (_J2 (cache st2), _J2_pre (cache st2), _grad_s_s_vT (cache st2),
   _grad_s_s_vT_pre (cache st2)) = (None, None, None, None).
Proof.
  cbv zeta. split; [reflexivity |]. split; [reflexivity |].
  split; [by destruct st |].
  split; [eexists; reflexivity |].
  split; reflexivity.
Qed.

(** ** The step *)

Lemma update_step_unknown alg st :
  ~ known_algorithm alg ->
  _update_step_ alg st = (Raise (NotImplementedError (msg_algorithm alg)), st).
Proof.
  intros Hk. unfold _update_step_, known_algorithm in *.
  repeat case_decide; try reflexivity; exfalso; apply Hk; auto.
Qed.

(** X3.  [_update_step_] knows four algorithm names: [gradient_descent],
    [gauss_newton], [levenberg_marquardt] and [gauss_newton_final].  Under
    any other name, the empty one and a name differing in case included, it
    raises [NotImplementedError] with a message naming it, before any
    attribute is read, computed or written. *)
Theorem update_step_unknown_algorithm (alg : string) (st : Solver) :
  (alg <> "gradient_descent" -> alg <> "gauss_newton" ->
   alg <> "levenberg_marquardt" -> alg <> "gauss_newton_final" ->
   _update_step_ alg st = (Raise (NotImplementedError (msg_algorithm alg)), st)) /\
  _update_step_ "" st = (Raise (NotImplementedError (msg_algorithm "")), st) /\
  _update_step_ "Gauss_Newton" st
    = (Raise (NotImplementedError (msg_algorithm "Gauss_Newton")), st).
Proof.
  split; [| split].
  - intros H1 H2 H3 H4. apply update_step_unknown. unfold known_algorithm. tauto.
  - apply update_step_unknown. unfold known_algorithm. by intros [? | [? | [? | ?]]].
  - apply update_step_unknown. unfold known_algorithm. by intros [? | [? | [? | ?]]].
Qed.

(** ** The iteration history *)

Lemma history_kept_refl st : history_kept st st.
Proof. by repeat split. Qed.

Lemma history_kept_trans a b c : history_kept a b -> history_kept b c -> history_kept a c.
Proof. intros (?&?&?) (?&?&?). repeat split; congruence. Qed.

Lemma history_kept_cache st c : history_kept st (set_cache c st).
Proof. by repeat split. Qed.

Lemma history_kept_lambd st l : history_kept st (set_lambd l st).
Proof. by repeat split. Qed.

Lemma history_kept_curves st cs : history_kept st (set_curves cs st).
Proof. by repeat split. Qed.

Lemma history_kept_fx st o : history_kept st (set_fx o st).
Proof. by repeat split. Qed.

Hint Resolve history_kept_refl history_kept_trans history_kept_cache history_kept_lambd
  history_kept_curves history_kept_fx : solver.

Lemma cache_history_kept {A} (c : M A) : preserves cache_only c -> preserves history_kept c.
Proof. apply preserves_weaken. intros a b [ca ->]. apply history_kept_cache. Qed.

Hint Resolve cache_history_kept : solver.

Lemma update_step_history_kept alg : preserves history_kept (_update_step_ alg).
Proof.
  unfold _update_step_.
  repeat (destruct (decide _) as [_|_]); preserving.
  destruct (_ =? _); preserving.
Qed.

Lemma update_curves_history_kept order v_1 : preserves history_kept (update_curves order v_1).
Proof. unfold update_curves. preserving. destruct (_.2); preserving. Qed.

Lemma update_fx_history_kept : preserves history_kept _update_fx.
Proof. unfold _update_fx. preserving. destruct (fx st); eauto with solver. Qed.

Hint Resolve update_step_history_kept update_curves_history_kept update_fx_history_kept
  reset_cache_only : solver.

(** What a pass of the loop records: the objective it found is appended to
    [f_list] on every path; a pass that ends the method met one of the two
    tests against the stored [f_prev]; a pass after which the loop goes on
    has stored the objective as [f_prev]. *)
Lemma iterate_cycle_history order i st res st' :
  iterate_cycle order i st = (res, st') ->
  cfg st' = cfg st /\
  exists a,
    f_list (it_state st') = f_list (it_state st) ++ [a] /\
    match res with
    | Ok None => f_prev (it_state st') = a
    | Ok (Some o) =>
        let fp := f_prev (it_state st) in
        (o = ConvTolReached i /\ flt a fp = true /\ flt (fsub fp a) (conv_tol st) = true) \/
        (o = FuncTolReached i /\ flt a (func_tol st) = true)
    | Raise _ => True
    end.
Proof.
  destruct (f_total st) as (fv & st1 & Hf).
  destruct (f_cache_only _ _ _ Hf) as [c1 E1].
  unfold iterate_cycle. rewrite bind_unfold, Hf. run.
  subst st1. cbn [it_state set_cache append_f_list set_iter f_prev f_list conv_tol cfg].
  assert (forall b o, b = true ->
            ((o = ConvTolReached i /\ flt (dreal fv) (f_prev (it_state st)) = true /\
              flt (fsub (f_prev (it_state st)) (dreal fv)) (conv_tol st) = true) \/
             (o = FuncTolReached i /\ flt (dreal fv) (func_tol st) = true)) ->
            (Ok (Some o), append_f_list (dreal fv) (set_cache c1 st)) = (res, st') ->
            cfg st' = cfg st /\
            exists a, f_list (it_state st') = f_list (it_state st) ++ [a] /\
              match res with
              | Ok None => f_prev (it_state st') = a
              | Ok (Some o) =>
                  let fp := f_prev (it_state st) in
                  (o = ConvTolReached i /\ flt a fp = true /\
                   flt (fsub fp a) (conv_tol st) = true) \/
                  (o = FuncTolReached i /\ flt a (func_tol st) = true)
              | Raise _ => True
              end) as Hend.
  { intros b o _ Ho [= <- <-]. split; [reflexivity |]. exists (dreal fv).
    split; [reflexivity | exact Ho]. }
  change (conv_tol (append_f_list (dreal fv) (set_cache c1 st))) with (conv_tol st).
  destruct (flt (dreal fv) (f_prev (it_state st)) &&
            flt (fsub (f_prev (it_state st)) (dreal fv)) (conv_tol st)) eqn:Hab.
  { apply andb_true_iff in Hab as [Ha Hb]. apply (Hend true); [reflexivity |].
    left. by repeat split. }
  cbv beta iota.
  change (func_tol (append_f_list (dreal fv) (set_cache c1 st))) with (func_tol st).
  destruct (flt (dreal fv) (func_tol st)) eqn:Hc.
  { apply (Hend true); [reflexivity |]. right. by split. }
  clear Hend.
  set (st2 := set_f_prev _ _).
  change (algorithm st2) with (algorithm st).
  assert (cfg st2 = cfg st) as Hc2 by reflexivity.
  assert (f_list (it_state st2) = f_list (it_state st) ++ [dreal fv]) as Hl2 by reflexivity.
  assert (f_prev (it_state st2) = dreal fv) as Hp2 by reflexivity.
  clearbody st2.
  destruct (_update_step_ _ st2) as [[v_1|e] st3] eqn:Hstep;
    destruct (update_step_history_kept _ _ _ _ Hstep) as (Hc3 & Hl3 & Hp3).
  all: try (intros [= <- <-]; split; [congruence |]; exists (dreal fv);
            split; [congruence | exact I]).
  all: destruct (update_curves order v_1 st3) as [[[]|e] st4] eqn:Hupd;
         destruct (update_curves_history_kept _ _ _ _ _ Hupd) as (Hc4 & Hl4 & Hp4).
  all: try (intros [= <- <-]; split; [congruence |]; exists (dreal fv);
            split; [congruence | exact I]).
  all: unfold _update_fx, _reset_properties_, modify; intros [= <- <-].
  all: split; [destruct (fx st4); simpl; congruence |].
  all: exists (dreal fv); split; destruct (fx st4); simpl; congruence.
Qed.

Lemma iterate_loop_history order left : forall i st res st',
  f_prev (it_state st) = default 1e10%float (last (f_list (it_state st))) ->
  iterate_loop order left i st = (res, st') ->
  cfg st' = cfg st /\
  let fl := f_list (it_state st') in
  let len := length (f_list (it_state st)) in
  match res with
  | Ok MaxIterBreached => length fl = len + left
  | Ok (ConvTolReached j) =>
      i <= j < i + left /\
      exists l a, fl = l ++ [a] /\ length l = len + (j - i) /\
        let p := default 1e10%float (last l) in
        flt a p = true /\ flt (fsub p a) (conv_tol st) = true
  | Ok (FuncTolReached j) =>
      i <= j < i + left /\
      exists l a, fl = l ++ [a] /\ length l = len + (j - i) /\
        flt a (func_tol st) = true
  | Raise _ => len < length fl <= len + left
  end.
Proof.
  induction left as [|left IH]; intros i st res st' Hinv; simpl.
  - rewrite bind_unfold. destruct (f_total st) as (fv & st1 & Hf). rewrite Hf.
    destruct (f_cache_only _ _ _ Hf) as [c ->]. intros [= <- <-]. simpl. split; [done | lia].
  - rewrite bind_unfold.
    destruct (iterate_cycle order i st) as [[[o|]|e] st1] eqn:Hc;
      destruct (iterate_cycle_history _ _ _ _ _ Hc) as (Hcfg & a & Hl & Hres).
    + intros [= <- <-]. split; [exact Hcfg |]. cbv zeta in *.
      destruct Hres as [(-> & Ha & Hb) | (-> & Ha)].
      * split; [lia |]. exists (f_list (it_state st)), a.
        split; [exact Hl |]. split; [lia |]. by rewrite <- Hinv.
      * split; [lia |]. exists (f_list (it_state st)), a.
        split; [exact Hl |]. split; [lia | exact Ha].
    + intros H. apply IH in H; [| by rewrite Hl, last_snoc].
      destruct H as [Hcfg' H]. split; [congruence |]. cbv zeta in *.
      rewrite Hl, length_app in H. simpl in H.
      unfold conv_tol, func_tol in *. rewrite Hcfg in H.
      destruct res as [[j|j|]|e]; [| | lia | lia].
      * destruct H as (Hj & l & b & Hfl & Hlen & Hab).
        split; [lia |]. exists l, b. split; [exact Hfl |]. split; [lia | exact Hab].
      * destruct H as (Hj & l & b & Hfl & Hlen & Hab).
        split; [lia |]. exists l, b. split; [exact Hfl |]. split; [lia | exact Hab].
    + intros [= <- <-]. split; [exact Hcfg |]. cbv zeta. rewrite Hl, length_app. simpl. lia.
Qed.

(** X4.  [f_list] after [iterate] holds one objective per pass made.  On
    the outcome "[conv_tol] reached after [j] iterations" it has [j + 1]
    entries, [j < max_iter], and the last entry is below the one before it
    (below [1e10] when it is the first) by less than [conv_tol]; on
    "[func_tol] reached after [j] iterations" it has [j + 1] entries and the
    last is below [func_tol]; on the failure outcome it has [max_iter]
    entries; and when a pass raises it has one entry for every pass up to
    the one that raised. *)
Theorem iterate_history (st : Solver) :
  let fl := f_list (it_state (iterate st).2) in
  match (iterate st).1 with
  | Ok MaxIterBreached => length fl = max_iter st
  | Ok (ConvTolReached j) =>
      j < max_iter st /\
      exists l a, fl = l ++ [a] /\ length l = j /\
        let p := default 1e10%float (last l) in
        flt a p = true /\ flt (fsub p a) (conv_tol st) = true
  | Ok (FuncTolReached j) =>
      j < max_iter st /\
      exists l a, fl = l ++ [a] /\ length l = j /\ flt a (func_tol st) = true
  | Raise _ => 0 < length fl <= max_iter st
  end.
Proof.
  rewrite iterate_unfold.
  destruct (iterate_loop _ _ _ _) as [res st'] eqn:H.
  apply iterate_loop_history in H; [| by rewrite iterate_entry_state].
  destruct H as [_ H]. cbv zeta in *. simpl.
  rewrite iterate_entry_state in H. simpl in H.
  assert (cfg (iterate_entry st) = cfg st) as Hcfg.
  { unfold iterate_entry. run. unfold _update_fx, _reset_properties_, modify. simpl.
    by destruct (fx st). }
  unfold conv_tol, func_tol in *. rewrite Hcfg in H.
  destruct res as [[j|j|]|e]; [| | exact H | exact H].
  - destruct H as (Hj & l & a & Hfl & Hlen & Hab).
    split; [lia |]. exists l, a. split; [exact Hfl |]. split; [lia | exact Hab].
  - destruct H as (Hj & l & a & Hfl & Hlen & Hab).
    split; [lia |]. exists l, a. split; [exact Hfl |]. split; [lia | exact Hab].
Qed.

Lemma iterate_entry_afresh st it c :
  iterate_entry (set_iter it (set_cache c st)) = iterate_entry st.
Proof.
  unfold iterate_entry. run. unfold _update_fx, _reset_properties_, modify.
  destruct st as [? ? ? ? [o|] ? ? ?]; reflexivity.
Qed.

(** X5.  [iterate] starts afresh: what it returns and the state it leaves
    depend neither on the history of an earlier run ([f_prev], [f_list],
    [lambd]) nor on any calculated attribute stored before the call. *)
Theorem iterate_starts_afresh (st : Solver) (it : IterState) (c : Cache) :
  iterate (set_iter it (set_cache c st)) = iterate st.
Proof.
  rewrite !iterate_unfold, iterate_entry_afresh. reflexivity.
Qed.

(** X6.  A solver whose objective, computed afresh, is already below
    [func_tol] is not stepped: with [max_iter] not 0, [iterate] returns in
    its first pass, with a success outcome after 0 iterations, one entry in
    [f_list], and the curves as they were. *)
Theorem iterate_on_calibrated_solver (st : Solver) (fv : D) :
  max_iter st <> 0 ->
  (f (iterate_entry st)).1 = Ok fv ->
  flt (dreal fv) (func_tol st) = true ->
  exists o st',
    iterate st = (Ok o, st') /\ (o = ConvTolReached 0 \/ o = FuncTolReached 0) /\
    curves st' = curves st /\ s st' = s st /\ f_list (it_state st') = [dreal fv].
Proof.
  intros Hmi Hf Hft. rewrite iterate_unfold.
  destruct (max_iter st) as [|k]; [done |]. simpl. rewrite bind_unfold.
  destruct (f (iterate_entry st)) as [r0 st1] eqn:Hf0. simpl in Hf. subst r0.
  destruct (f_cache_only _ _ _ Hf0) as [c1 ->].
  unfold iterate_cycle. rewrite bind_unfold, Hf0. run.
  assert (func_tol (append_f_list (dreal fv) (set_cache c1 (iterate_entry st)))
          = func_tol st) as Hft'.
  { unfold func_tol. simpl. f_equal. unfold iterate_entry. run.
    unfold _update_fx, _reset_properties_, modify. simpl. by destruct (fx st). }
  assert (s (iterate_entry st) = s st) as Hs.
  { unfold iterate_entry. run. unfold _update_fx, _reset_properties_, modify. simpl.
    by destruct (fx st). }
  destruct (_ && _); cbv beta iota.
  - eexists _, _. split; [reflexivity |]. split; [by left |]. simpl.
    rewrite iterate_entry_curves, iterate_entry_state, Hs. done.
  - rewrite Hft', Hft. cbv beta iota.
    eexists _, _. split; [reflexivity |]. split; [by right |]. simpl.
    rewrite iterate_entry_curves, iterate_entry_state, Hs. done.
Qed.

(** ** What iteration does to the curves *)

Lemma curve_frame_refl c : curve_frame c c.
Proof. by repeat split. Qed.

Lemma curve_frame_trans a b c : curve_frame a b -> curve_frame b c -> curve_frame a c.
Proof.
  intros (?&Hi&?&?) (?&?&?&?). repeat split; congruence.
Qed.

Lemma curves_frame_refl st : curves_frame st st.
Proof. apply Forall2_same_length_lookup. split; [done |]. intros i c c' H1 H2.
  assert (c = c') as -> by congruence. apply curve_frame_refl. Qed.

Lemma curves_frame_eq st st' : curves st' = curves st -> curves_frame st st'.
Proof. intros E. unfold curves_frame. rewrite E. apply (curves_frame_refl st). Qed.

Lemma curves_frame_trans a b c : curves_frame a b -> curves_frame b c -> curves_frame a c.
Proof. unfold curves_frame. apply Forall2_trans. intros ? ? ?. apply curve_frame_trans. Qed.

Lemma curves_frame_soft st st' : soft_only st st' -> curves_frame st st'.
Proof. intros (c & it & ->). by apply curves_frame_eq. Qed.

Lemma curves_frame_fx st o : curves_frame st (set_fx o st).
Proof. by apply curves_frame_eq. Qed.

Lemma curves_frame_cache st c : curves_frame st (set_cache c st).
Proof. by apply curves_frame_eq. Qed.

Lemma curves_frame_iter st it : curves_frame st (set_iter it st).
Proof. by apply curves_frame_eq. Qed.

Lemma retag_nodes_any_length order v_1 nds : forall k,
  length (retag_nodes order v_1 k nds).1 = length nds.
Proof.
  induction nds as [|nd rest IH]; intros k; simpl; [done |].
  destruct (v_1 !! k); [| done].
  specialize (IH (S k)). destruct (retag_nodes order v_1 (S k) rest). simpl in *. lia.
Qed.

Lemma take_take_app {A} (l x : list A) i :
  length x = length (drop i l) -> take i (take i l ++ x) = take i l.
Proof.
  intros Hx. destruct (decide (i <= length l)).
  - rewrite take_app_length'; [done |]. rewrite length_take. lia.
  - rewrite length_drop in Hx. destruct x; [| simpl in Hx; lia].
    rewrite app_nil_r, take_take. f_equal. lia.
Qed.

Lemma retag_curves_frame order v_1 cs : forall k,
  Forall2 curve_frame cs (retag_curves order v_1 k cs).1.
Proof.
  induction cs as [|c cs IH]; intros k; simpl; [constructor |].
  pose proof (retag_nodes_any_length order v_1 (drop (_ini_solve c) (nodes c)) k) as Hlen.
  destruct (retag_nodes order v_1 k (drop (_ini_solve c) (nodes c))) as [nds k'].
  simpl in Hlen.
  assert (curve_frame c (mkCurve (curve_id c) (take (_ini_solve c) (nodes c) ++ nds)
                                 (_ini_solve c) (curve_aux c))) as Hc.
  { repeat split; simpl.
    - rewrite length_app, Hlen, length_take, length_drop. lia.
    - by apply take_take_app. }
  destruct k' as [k2|]; simpl.
  - specialize (IH k2). destruct (retag_curves order v_1 k2 cs) as [cs2 k3]. simpl in *.
    constructor; [exact Hc | exact IH].
  - constructor; [exact Hc |].
    apply Forall2_same_length_lookup. split; [done |]. intros i a b H1 H2.
    assert (a = b) as -> by congruence. apply curve_frame_refl.
Qed.

Hint Resolve curves_frame_refl curves_frame_trans curves_frame_fx curves_frame_cache
  curves_frame_iter : solver.

Lemma soft_curves_frame {A} (c : M A) : preserves soft_only c -> preserves curves_frame c.
Proof. apply preserves_weaken, curves_frame_soft. Qed.

Lemma cache_curves_frame {A} (c : M A) : preserves cache_only c -> preserves curves_frame c.
Proof. apply preserves_weaken. intros a b [ca ->]. apply curves_frame_cache. Qed.

Hint Resolve soft_curves_frame cache_curves_frame : solver.

Lemma update_curves_frame order v_1 : preserves curves_frame (update_curves order v_1).
Proof.
  intros st res st' H. apply update_curves_inv in H as [-> _].
  apply retag_curves_frame.
Qed.

Lemma update_fx_curves_frame : preserves curves_frame _update_fx.
Proof. unfold _update_fx. preserving. destruct (fx st); eauto with solver. Qed.

Hint Resolve update_curves_frame update_fx_curves_frame : solver.

Lemma iterate_cycle_curves_frame order i : preserves curves_frame (iterate_cycle order i).
Proof.
  unfold iterate_cycle. preserving.
  destruct (_ && _); preserving. destruct (flt _ _); preserving.
Qed.

Lemma iterate_loop_curves_frame order k : forall i,
  preserves curves_frame (iterate_loop order k i).
Proof.
  induction k as [|k IH]; intros i; simpl.
  - preserving.
  - apply preserves_bind; [apply curves_frame_trans | apply iterate_cycle_curves_frame |].
    intros [o|]; [preserving | apply IH].
Qed.

(** X7.  Whatever its outcome, and also when a pass raises, [iterate]
    leaves the configuration, the pre-solvers, the targets and the order as
    they were, and of every curve its id, its [_ini_solve], its number of
    nodes and the nodes before [_ini_solve]: only the solver-controlled
    nodes are rewritten. *)
Theorem iterate_keeps_curve_layout (st : Solver) :
  hard_kept st (iterate st).2 /\ curves_frame st (iterate st).2.
Proof.
  destruct (iterate st) as [res st'] eqn:H. simpl. split.
  - eapply iterate_hard_kept, H.
  - revert H. apply (preserves_bind curves_frame curves_frame_trans); [preserving |].
    intros order. preserving. apply iterate_loop_curves_frame.
Qed.

Lemma retag_nodes_bounds order v_1 nds : forall k,
  (retag_nodes order v_1 k nds).2 =
    if decide (nds = [] \/ k + length nds <= length v_1) then Some (k + length nds)
    else None.
Proof.
  induction nds as [|nd rest IH]; intros k; cbn [retag_nodes].
  - case_decide as H; [| by destruct H; left]. cbn. f_equal. lia.
  - destruct (v_1 !! k) as [a|] eqn:E.
    + apply lookup_lt_Some in E. specialize (IH (S k)).
      destruct (retag_nodes order v_1 (S k) rest) as [rest' k']. cbn [snd] in *. subst k'.
      cbn [length]. destruct rest as [|nd' rest].
      * repeat case_decide; cbn [length] in *; try (f_equal; lia).
        all: exfalso; intuition (try discriminate; try lia).
      * repeat case_decide; cbn [length] in *; try (f_equal; lia); try done.
        all: exfalso; intuition (try discriminate; try lia).
    + apply lookup_ge_None in E. cbn [snd].
      case_decide as H; [| done]. exfalso. destruct H as [? | ?]; [done |]. cbn in *. lia.
Qed.

Lemma retag_curves_bounds order v_1 cs : forall k,
  k <= length v_1 ->
  (retag_curves order v_1 k cs).2 =
    if decide (k + length (controlled_nodes cs) <= length v_1)
    then Some (k + length (controlled_nodes cs)) else None.
Proof.
  induction cs as [|c cs IH]; intros k Hk; cbn [retag_curves].
  - unfold controlled_nodes. cbn. case_decide; [f_equal; lia | lia].
  - assert (length (controlled_nodes (c :: cs))
            = length (drop (_ini_solve c) (nodes c)) + length (controlled_nodes cs)) as ->.
    { unfold controlled_nodes. cbn. by rewrite length_app. }
    pose proof (retag_nodes_bounds order v_1 (drop (_ini_solve c) (nodes c)) k) as Hb.
    destruct (retag_nodes order v_1 k (drop (_ini_solve c) (nodes c))) as [nds k'].
    cbn [snd] in Hb. subst k'.
    set (a := length (drop (_ini_solve c) (nodes c))) in *.
    destruct (decide (drop (_ini_solve c) (nodes c) = [] \/ k + a <= length v_1))
      as [Hin | Hout].
    + assert (k + a <= length v_1) as Hka.
      { destruct Hin as [E | ?]; [| done]. subst a. rewrite E. cbn. lia. }
      specialize (IH (k + a) Hka).
      destruct (retag_curves order v_1 (k + a) cs) as [cs2 k3]. cbn [snd] in *. rewrite IH.
      repeat case_decide; try lia; try done. f_equal. lia.
    + cbn [snd]. case_decide; [| done]. exfalso. apply Hout. right. lia.
Qed.

(** X8.  Writing a step [v_1] to the curves consumes one entry per
    solver-controlled node, in order.  With at least that many entries the
    write returns, the real parts of the controlled nodes are the leading
    entries of [v_1], and entries beyond them are ignored; with fewer
    entries it raises [IndexError] (the nodes written before stay
    written). *)
Theorem update_curves_bounds (order : Z) (v_1 : list D) (st : Solver) :
  let nctl := length (controlled_nodes (curves st)) in
  (nctl <= length v_1 ->
   exists st', update_curves order v_1 st = (Ok tt, st') /\
     map dreal (controlled_nodes (curves st')) = take nctl (map dreal v_1)) /\
  (length v_1 < nctl ->
   exists st', update_curves order v_1 st = (Raise IndexError, st') /\
     curves_frame st st').
Proof.
  cbv zeta.
  pose proof (retag_curves_bounds order v_1 (curves st) 0 ltac:(lia)) as Hb.
  cbn [Nat.add] in Hb.
  destruct (update_curves order v_1 st) as [res st'] eqn:H.
  pose proof (update_curves_frame _ _ _ _ _ H) as Hfr.
  destruct (update_curves_inv _ _ _ _ _ H) as [Hst Hres].
  assert (forall e, res = Raise e -> e = IndexError) as Hexn.
  { intros e ->. revert H. unfold update_curves. run.
    destruct (retag_curves _ _ _ _).2; by intros [= <-]. }
  destruct (retag_curves order v_1 0 (curves st)) as [cs ko] eqn:Hr. cbn [fst snd] in *.
  split; intros Hlen.
  - rewrite decide_True in Hb by lia. subst ko.
    assert (res = Ok tt) as -> by (apply Hres; eauto).
    eexists. split; [reflexivity |]. subst st'. cbn [curves set_curves].
    apply retag_curves_spec in Hr as [_ Hr]. by rewrite drop_0 in Hr.
  - rewrite decide_False in Hb by lia. subst ko.
    destruct res as [[]|e].
    + destruct (proj1 Hres eq_refl) as [k Hk]. discriminate.
    + rewrite (Hexn e eq_refl). eexists. split; [reflexivity | exact Hfr].
Qed.

(** ** The differentiation order along the chain *)

(** X9.  [_set_ad_order(order)] reaches the whole chain: afterwards the
    solver and every pre-solver, to any depth, is at [order], and every
    curve of [pre_curves] has been switched by its own [_set_ad_order].  The
    configuration, the targets and the calculated attributes stay as they
    are: nothing stored is cleared. *)
Theorem set_ad_order_reaches_chain (o : Z) (st : Solver) :
  Forall (fun a => a = o) (chain_orders (_set_ad_order o st)) /\
  length (chain_orders (_set_ad_order o st)) = length (chain_orders st) /\
  pre_curves (_set_ad_order o st) = map (curve_set_ad_order o) (pre_curves st) /\
  cfg (_set_ad_order o st) = cfg st /\ s (_set_ad_order o st) = s st /\
  cache (_set_ad_order o st) = cache st.
Proof.
  split; [| split; [| split; [| by destruct st]]].
  - induction st as [st IH] using Solver_chain_ind.
    destruct st as [c ps ? ? ? ? ? ?]. simpl in *. constructor; [done |].
    apply Forall_concat, Forall_map, Forall_map. exact IH.
  - induction st as [st IH] using Solver_chain_ind.
    destruct st as [c ps ? ? ? ? ? ?]. simpl in *. f_equal.
    rewrite !length_concat. f_equal. rewrite <- !list_fmap_compose.
    apply Forall_fmap_ext_1. exact IH.
  - induction st as [st IH] using Solver_chain_ind.
    destruct st as [c ps ? cs ? ? ? ?]. simpl in *.
    rewrite map_app. f_equal.
    induction IH as [|p ps' Hp _ IHps]; simpl; [done |].
    rewrite map_app, Hp. f_equal. exact IHps.
Qed.

(** ** Construction *)

Lemma parse_all_length self_id self_fx l : forall ts,
  parse_all self_id self_fx l = Ok ts -> length ts = length l.
Proof.
  induction l as [|value l IH]; simpl; intros ts.
  - by intros [= <-].
  - destruct (_parse_instrument self_id self_fx value); [| discriminate].
    destruct (parse_all self_id self_fx l); [| discriminate].
    intros [= <-]. simpl. f_equal. by apply IH.
Qed.

Lemma foldl_add_sum {A} (g : A -> nat) (l : list A) : forall a,
  foldl (fun acc p => acc + g p) a l = a + sum_list (map g l).
Proof.
  induction l as [|x l IH]; intros a; simpl; [lia |]. rewrite IH. lia.
Qed.

Lemma iterate_curves_frame : preserves curves_frame iterate.
Proof.
  apply (preserves_bind curves_frame curves_frame_trans); [preserving |].
  intros order. preserving. apply iterate_loop_curves_frame.
Qed.

Lemma curves_frame_ids st st' :
  curves_frame st st' -> map curve_id (curves st') = map curve_id (curves st).
Proof.
  unfold curves_frame. induction 1 as [|c c' cs cs' Hc _ IH]; simpl; [done |].
  destruct Hc as (-> & _). by rewrite IH.
Qed.

Lemma curve_set_ad_order_id o c : curve_id (curve_set_ad_order o c) = curve_id c.
Proof. unfold curve_set_ad_order. by destruct (curve_set_order _ _ _). Qed.

(** X10.  [Solver(...)] checks its arguments in a fixed order and raises
    [ValueError] at the first that fails: the number of targets [s] against
    the number of instruments; then the number of labels, when labels are
    given; then the number of weights, when weights are given; then the
    curve ids, which must be distinct over the curves given and every curve
    of the pre-solvers' chains. *)
Theorem Solver_init_validation (a : InitArgs) (uuid : string) :
  let m0 := length (arg_instruments a) in
  let bad_labels := exists l, arg_instrument_labels a = Some l /\ length l <> m0 in
  let bad_weights := exists w, arg_weights a = Some w /\ length w <> m0 in
  let ids := map curve_id (concat (map pre_curves (arg_pre_solvers a)) ++ arg_curves a) in
  (length (arg_s a) <> m0 ->
   Solver_init a uuid = (Raise (ValueError msg_len_s), None)) /\
  (length (arg_s a) = m0 -> bad_labels ->
   Solver_init a uuid = (Raise (ValueError msg_len_labels), None)) /\
  (length (arg_s a) = m0 -> ~ bad_labels -> bad_weights ->
   Solver_init a uuid = (Raise (ValueError msg_len_weights), None)) /\
  (length (arg_s a) = m0 -> ~ bad_labels -> ~ bad_weights -> ~ NoDup ids ->
   Solver_init a uuid = (Raise (ValueError msg_curve_ids), None)).
Proof.
  cbv zeta. unfold Solver_init.
  split; [| split; [| split]].
  - intros H. by rewrite decide_True.
  - intros Hs (l & Hl & Hlen). rewrite decide_False by (intros ?; lia). rewrite Hl.
    by rewrite decide_True by (intros ?; lia).
  - intros Hs Hl (w & Hw & Hlen). rewrite decide_False by (intros ?; lia).
    destruct (arg_instrument_labels a) as [l|].
    + rewrite decide_False by (intros ?; apply Hl; exists l; split; [done | lia]).
      rewrite Hw. by rewrite decide_True.
    + rewrite Hw. by rewrite decide_True.
  - intros Hs Hl Hw Hids. rewrite decide_False by (intros ?; lia).
    assert (map curve_id (concat (map pre_curves (arg_pre_solvers a)) ++
                          map (curve_set_ad_order 1) (arg_curves a))
            = map curve_id (concat (map pre_curves (arg_pre_solvers a)) ++ arg_curves a))
      as Heq.
    { rewrite !map_app. f_equal. rewrite map_map. apply map_ext.
      intros c. apply curve_set_ad_order_id. }
    destruct (arg_instrument_labels a) as [l|].
    + rewrite decide_False by (intros ?; apply Hl; exists l; split; [done | lia]).
      destruct (arg_weights a) as [w|].
      * rewrite decide_False by (intros ?; apply Hw; exists w; split; [done | lia]).
        rewrite decide_False; [done |]. by rewrite Heq.
      * rewrite decide_False; [done |]. by rewrite Heq.
    + destruct (arg_weights a) as [w|].
      * rewrite decide_False by (intros ?; apply Hw; exists w; split; [done | lia]).
        rewrite decide_False; [done |]. by rewrite Heq.
      * rewrite decide_False; [done |]. by rewrite Heq.
Qed.

(** X11.  A solver that [Solver(...)] returns has been iterated once and
    is at order 1, with the pre-solvers and the targets it was given; its
    counts agree: [m] instruments, [m] targets, [m] weights (all 1 when
    none were given), [n] variables, and [pre_m], [pre_n], [pre_variables],
    [pre_instrument_labels] and [pre_rate_scalars] are those of the
    pre-solvers followed by its own; the curve ids of [pre_curves] are
    distinct; the id is the one given, unless it is missing or empty. *)
Theorem Solver_init_postconditions (a : InitArgs) (uuid : string) (st : Solver)
    (o : option Outcome) :
  Solver_init a uuid = (Ok st, o) ->
  (exists out, o = Some out) /\
  _ad st = 1%Z /\ pre_solvers st = arg_pre_solvers a /\ s st = map Flt (arg_s a) /\
  algorithm st = arg_algorithm a /\
  m st = length (arg_instruments a) /\ length (instruments st) = m st /\
  length (s st) = m st /\ length (weights st) = m st /\
  (arg_weights a = None -> weights st = replicate (m st) 1%float) /\
  n st = length (variables st) /\
  pre_m st = m st + sum_list (map pre_m (pre_solvers st)) /\
  pre_n st = n st + sum_list (map pre_n (pre_solvers st)) /\
  pre_variables st = concat (map pre_variables (pre_solvers st)) ++ variables st /\
  length (pre_instrument_labels st)
    = sum_list (map (fun p => length (pre_instrument_labels p)) (pre_solvers st)) + m st /\
  length (pre_rate_scalars st)
    = sum_list (map (fun p => length (pre_rate_scalars p)) (pre_solvers st)) + m st /\
  NoDup (map curve_id (pre_curves st)) /\
  (forall i, arg_id a = Some i -> i <> "" -> solver_id st = i).
Proof.
  unfold Solver_init.
  case_decide as Hs; [discriminate |].
  destruct (match arg_instrument_labels a with
            | Some l => _ | None => _ end) as [labels|] eqn:Hlab; [| discriminate].
  destruct (match arg_weights a with
            | Some w => _ | None => _ end) as [w|] eqn:Hw; [| discriminate].
  case_decide as Hids; [| discriminate].
  destruct (parse_all _ _ _) as [insts|e] eqn:Hp; [| discriminate].
  match goal with |- context [iterate ?s0] => set (st0 := s0) end.
  destruct (iterate st0) as [[out|e] st'] eqn:Hit; [| discriminate].
  intros [= <- <-].
  destruct (iterate_hard_kept _ _ _ Hit) as (Hcfg & Hps & Hss & Had).
  pose proof (curves_frame_ids _ _ (iterate_curves_frame _ _ _ Hit)) as Hcid.
  apply parse_all_length in Hp.
  assert (length labels = length (arg_instruments a)) as Hll.
  { destruct (arg_instrument_labels a) as [l|].
    - case_decide; [discriminate |]. injection Hlab as <-. lia.
    - injection Hlab as <-. by rewrite length_map, length_seq. }
  assert (length w = length (arg_instruments a)) as Hwl.
  { destruct (arg_weights a) as [w0|].
    - case_decide; [discriminate |]. injection Hw as <-. lia.
    - injection Hw as <-. by rewrite length_replicate. }
  unfold algorithm, m, n, instruments, weights, variables, pre_m, pre_n, pre_variables,
    pre_instrument_labels, pre_rate_scalars, solver_id.
  rewrite Hcfg, Hps, Hss, Had. subst st0. cbn.
  rewrite !foldl_add_sum.
  split; [eauto |]. do 4 (split; [reflexivity |]). split; [reflexivity |].
  split; [exact Hp |]. split; [rewrite length_map; lia |]. split; [exact Hwl |].
  split; [intros Hn; rewrite Hn in Hw; by injection Hw as <- |].
  split; [reflexivity |]. split; [reflexivity |]. split; [reflexivity |].
  split; [reflexivity |].
  split; [rewrite length_app, length_concat, length_map, <- list_fmap_compose, Hll;
          reflexivity |].
  split; [rewrite length_app, length_concat, length_map, <- list_fmap_compose, Hp;
          reflexivity |].
  split.
  - destruct st' as [? ? ? cs' ? ? ? ?]. cbn in *. subst.
    rewrite map_app, Hcid, <- map_app. exact Hids.
  - intros i -> Hne. by rewrite decide_False.
Qed.

(** X12.  [_parse_instrument] on a tuple: a tuple that does not have three
    items raises [ValueError]; positional arguments are kept as given and
    the caller's keyword arguments are merged over the defaults
    [solver] and [fx]; and [None] or an empty tuple, [None] or an empty
    dict, stand for no arguments, so that such a tuple parses like the bare
    instrument. *)
Theorem parse_instrument_tuples (self_id : string) (self_fx : option FX)
    (i : Instrument) :
  (forall items, length items <> 3 ->
     _parse_instrument self_id self_fx (Tup items) = Raise (ValueError msg_tuple)) /\
  (forall args kw,
     _parse_instrument self_id self_fx (Tup [ItInst i; ItArgs args; ItKw kw])
     = Ok (i, args, kw ∪ default_kwargs self_id self_fx)) /\
  (forall a k, a = ItNone \/ a = ItArgs [] -> k = ItNone \/ k = ItKw ∅ ->
     _parse_instrument self_id self_fx (Tup [ItInst i; a; k])
     = _parse_instrument self_id self_fx (Bare i)) /\
  _parse_instrument self_id self_fx (Bare i) = Ok (i, [], default_kwargs self_id self_fx).
Proof.
  split; [| split; [| split]].
  - intros items H. unfold _parse_instrument. by rewrite decide_True.
  - intros args kw. unfold _parse_instrument. rewrite decide_False by (by intros H; apply H).
    case_decide as Hkw; [| reflexivity]. subst kw. by rewrite (left_id_L ∅ (∪)).
  - intros a k [-> | ->] [-> | ->]; unfold _parse_instrument;
      rewrite decide_False by (by intros H; apply H); try reflexivity.
    all: by rewrite decide_True.
  - reflexivity.
Qed.

(** ** Shapes *)

Lemma assign_block_shape A rr cr B A' :
  assign_block A rr cr B = Some A' -> nrows A' = nrows A /\ ncols A' = ncols A.
Proof.
  unfold assign_block. destruct rr, cr. destruct (_ && _); [| discriminate].
  by intros [= <-].
Qed.

Lemma assign_block3_shape T ar br cr B T' :
  assign_block3 T ar br cr B = Some T' ->
  dim0 T' = dim0 T /\ dim1 T' = dim1 T /\ dim2 T' = dim2 T.
Proof.
  unfold assign_block3. destruct ar, br, cr. destruct (_ && _); [| discriminate].
  by intros [= <-].
Qed.

Lemma of_option_Ok {A} e (o : option A) st a st' :
  of_option e o st = (Ok a, st') -> o = Some a.
Proof. destruct o; simpl; unfold ret, raise; congruence. Qed.

Lemma for_chain_inv {A} (Inv : A -> Prop) (body : Solver -> nat -> A -> M A) :
  (forall p k acc st acc' st', body p k acc st = (Ok acc', st') -> Inv acc -> Inv acc') ->
  forall chain k acc st acc' st',
    for_chain body chain k acc st = (Ok acc', st') -> Inv acc -> Inv acc'.
Proof.
  intros Hb. induction chain as [|p chain IH]; intros k acc st acc' st'; simpl.
  - by intros [= <- <-].
  - intros H. apply bind_Ok_inv in H as (acc1 & st1 & H1 & H2).
    intros Hi. eapply IH; [exact H2 |]. eapply Hb; [exact H1 | exact Hi].
Qed.

Lemma grad_s_vT_pre_link_shape pre_grad k acc st acc' st' r0 c0 :
  grad_s_vT_pre_link pre_grad k acc st = (Ok acc', st') ->
  nrows acc.2 = r0 /\ ncols acc.2 = c0 -> nrows acc'.2 = r0 /\ ncols acc'.2 = c0.
Proof.
  destruct acc as [[i j] G]. unfold grad_s_vT_pre_link. intros H.
  apply bind_Ok_inv in H as (m_ & s1 & _ & H).
  apply bind_Ok_inv in H as (n_ & s2 & _ & H).
  apply bind_Ok_inv in H as (P1 & s3 & _ & H).
  apply bind_Ok_inv in H as (G1 & s4 & HG1 & H).
  apply bind_Ok_inv in H as (rs & s5 & _ & H).
  apply bind_Ok_inv in H as (pvars & s6 & _ & H).
  apply bind_Ok_inv in H as (Sm & s7 & _ & H).
  apply bind_Ok_inv in H as (P2 & s8 & _ & H).
  apply bind_Ok_inv in H as (m0 & s9 & _ & H).
  apply bind_Ok_inv in H as (G2 & s10 & HG2 & H).
  injection H as <- <-. simpl.
  apply of_option_Ok, assign_block_shape in HG1 as [? ?].
  apply of_option_Ok, assign_block_shape in HG2 as [? ?].
  intros [? ?]. split; congruence.
Qed.

Lemma J2_pre_link_shape pre_J2 k acc st acc' st' a b c :
  J2_pre_link pre_J2 k acc st = (Ok acc', st') ->
  dim0 acc.2 = a /\ dim1 acc.2 = b /\ dim2 acc.2 = c ->
  dim0 acc'.2 = a /\ dim1 acc'.2 = b /\ dim2 acc'.2 = c.
Proof.
  destruct acc as [[i j] T]. unfold J2_pre_link. intros H.
  apply bind_Ok_inv in H as (n_ & s1 & _ & H).
  apply bind_Ok_inv in H as (m_ & s2 & _ & H).
  apply bind_Ok_inv in H as (B & s3 & _ & H).
  apply bind_Ok_inv in H as (T1 & s4 & HT1 & H).
  injection H as <- <-. simpl.
  apply of_option_Ok, assign_block3_shape in HT1 as (? & ? & ?).
  intros (? & ? & ?). repeat split; congruence.
Qed.

(** X13.  For a solver with pre-solvers, whatever the length and the depth
    of the chain: when [grad_s_vT_pre] computes its matrix and returns, the
    matrix has [pre_m] rows and [pre_n] columns; when [J2_pre] computes its
    tensor and returns, the tensor has shape [(pre_n, pre_n, pre_m)]. *)
Theorem chain_attribute_shapes (st : Solver) :
  pre_solvers st <> [] ->
  (forall G st', _grad_s_vT_pre (cache st) = None -> grad_s_vT_pre st = (Ok G, st') ->
     nrows G = pre_m st /\ ncols G = pre_n st) /\
  (forall T st', _J2_pre (cache st) = None -> J2_pre st = (Ok T, st') ->
     dim0 T = pre_n st /\ dim1 T = pre_n st /\ dim2 T = pre_m st).
Proof.
  intros Hp.
  assert (length (pre_solvers st) <> 0) as Hlen by (by destruct (pre_solvers st)).
  split.
  - intros G st' Hmiss. unfold grad_s_vT_pre.
    rewrite grad_s_vT_pre_rec_unfold, bind_gets. rewrite decide_False by done.
    unfold cached. rewrite bind_gets, Hmiss. intros H.
    apply bind_Ok_inv in H as (G0 & s1 & H & Hret).
    revert Hret. run. intros [= <- _].
    rewrite !bind_gets in H.
    apply bind_Ok_inv in H as (acc & s2 & Hacc & H).
    rewrite bind_gets in H.
    apply bind_Ok_inv in H as (Sm & s3 & _ & H).
    apply of_option_Ok, assign_block_shape in H as [H1 H2].
    eapply (for_chain_inv (fun acc => nrows acc.2 = pre_m st /\ ncols acc.2 = pre_n st))
      in Hacc.
    + destruct Hacc. split; congruence.
    + intros p k a0 sa a1 sb Hb. eapply grad_s_vT_pre_link_shape, Hb.
    + by split.
  - intros T st' Hmiss. unfold J2_pre.
    rewrite J2_pre_rec_unfold, bind_gets. rewrite decide_False by done.
    unfold cached. rewrite bind_gets, Hmiss. intros H.
    apply bind_Ok_inv in H as (T0 & s1 & H & Hret).
    revert Hret. run. intros [= <- _].
    rewrite bind_gets in H. case_decide; [discriminate |].
    rewrite !bind_gets in H.
    apply bind_Ok_inv in H as (acc & s2 & Hacc & H).
    rewrite !bind_gets in H.
    apply of_option_Ok, assign_block3_shape in H as (Hd0 & Hd1 & Hd2).
    eapply (for_chain_inv (fun acc => dim0 acc.2 = pre_n st /\ dim1 acc.2 = pre_n st /\
                                      dim2 acc.2 = pre_m st)) in Hacc.
    + destruct Hacc as (? & ? & ?). repeat split; congruence.
    + intros p k a0 sa a1 sb Hb. eapply J2_pre_link_shape, Hb.
    + by repeat split.
Qed.

Lemma J_fresh_shape st J0 st1 :
  instruments st <> [] -> J (set_cache empty_cache st) = (Ok J0, st1) ->
  nrows J0 = length (variables st) /\ ncols J0 = length (instruments st).
Proof.
  intros Hne HJ. by apply J_shape in HJ.
Qed.

(** X14.  Computed afresh for a solver with at least one instrument, the
    Jacobian [J] has one row per variable and one column per instrument,
    and [r] has one rate per instrument. *)
Theorem jacobian_shape (st : Solver) (J0 : Mat) (st1 : Solver) :
  instruments st <> [] ->
  J (set_cache empty_cache st) = (Ok J0, st1) ->
  nrows J0 = length (variables st) /\ ncols J0 = length (instruments st) /\
  exists rs, r st1 = (Ok rs, st1) /\ length rs = length (instruments st).
Proof.
  intros Hne HJ. destruct (J_fresh_shape _ _ _ Hne HJ) as [Hr Hc].
  split; [exact Hr |]. split; [exact Hc |].
  revert HJ. unfold J, r, cached. run. cbn [cache set_cache _J _r empty_cache set_r set_J].
  intros [= _ <-]. cbn [cache set_cache _r set_J set_r].
  eexists. split; [reflexivity |].
  rewrite price_all_cache. unfold price_all. by rewrite length_map.
Qed.

(** ** The damping factor under Levenberg-Marquardt *)

Lemma SFltb_irrefl (a : spec_float) : SFltb a a = false.
Proof.
  unfold SFltb. destruct a as [[] | [] | | [] mt e]; simpl; try reflexivity.
  all: rewrite Z.compare_refl, Pos.compare_cont_refl; reflexivity.
Qed.

Lemma flt_irrefl (a : float) : flt a a = false.
Proof. unfold flt. rewrite ltb_spec. apply SFltb_irrefl. Qed.

Lemma iter_kept_refl st : iter_kept st st.
Proof. by split. Qed.

Lemma iter_kept_trans a b c : iter_kept a b -> iter_kept b c -> iter_kept a c.
Proof. intros [? ?] [? ?]. split; congruence. Qed.

Lemma iter_kept_cache st c : iter_kept st (set_cache c st).
Proof. by split. Qed.

Lemma iter_kept_curves st cs : iter_kept st (set_curves cs st).
Proof. by split. Qed.

Lemma iter_kept_fx st o : iter_kept st (set_fx o st).
Proof. by split. Qed.

Hint Resolve iter_kept_refl iter_kept_trans iter_kept_cache iter_kept_curves
  iter_kept_fx : solver.

Lemma cache_iter_kept {A} (c : M A) : preserves cache_only c -> preserves iter_kept c.
Proof. apply preserves_weaken. intros a b [ca ->]. apply iter_kept_cache. Qed.

Hint Resolve cache_iter_kept : solver.

Lemma update_curves_iter_kept order v_1 : preserves iter_kept (update_curves order v_1).
Proof. unfold update_curves. preserving. destruct (_.2); preserving. Qed.

Lemma update_fx_iter_kept : preserves iter_kept _update_fx.
Proof. unfold _update_fx. preserving. destruct (fx st); eauto with solver. Qed.

Hint Resolve update_curves_iter_kept update_fx_iter_kept : solver.

(** A step under an algorithm other than Levenberg-Marquardt leaves the
    attributes of [iterate] alone. *)
Lemma update_step_iter_kept alg :
  alg <> "levenberg_marquardt" -> preserves iter_kept (_update_step_ alg).
Proof.
  intros Hne. unfold _update_step_.
  repeat (destruct (decide _) as [?|?]); try done; preserving.
  destruct (_ =? _); preserving.
Qed.

(** A Levenberg-Marquardt step taken when [f_prev] holds the current
    objective, as it does inside [iterate]: [lambd] is quartered. *)
Lemma lm_step_after_f_prev st fv res st' :
  _f (cache st) = Some fv -> f_prev (it_state st) = dreal fv ->
  _update_step_ "levenberg_marquardt" st = (res, st') ->
  cfg st' = cfg st /\
  it_state st' = it_state (set_lambd (fmul (lambd (it_state st)) 0.25%float) st).
Proof.
  intros Hhit Hfp. unfold _update_step_.
  rewrite decide_False by done. rewrite decide_False by done. rewrite decide_True by done.
  rewrite !bind_gets.
  assert (f st = (Ok fv, st)) as Hf by (by apply cached_hit).
  bstep Hf. rewrite Hfp, flt_irrefl.
  rewrite bind_unfold. cbn [modify].
  set (st1 := set_lambd _ st).
  assert (preserves iter_kept
            (let* J0 := J in
             let* Wm := gets W in
             let A := matmul J0 (matmul Wm (transpose J0)) in
             let* l1 := gets (fun st => lambd (it_state st)) in
             let* n0 := gets n in
             let A := mat_add A (mat_scale l1 (eye n0)) in
             let* vars := gets variables in
             let b := vscale (-0.5)%float (dgradient fv vars) in
             let* delta := of_option LinAlgError (linalg_solve A b) in
             let* v0 := v in
             ret (add_delta v0 delta))) as Hrest by preserving.
  intros H. apply Hrest in H as [Hc Hi]. split; [by rewrite Hc | exact Hi].
Qed.

Lemma iterate_cycle_lambd order i st res st' :
  algorithm st = "levenberg_marquardt" ->
  iterate_cycle order i st = (res, st') ->
  match res with
  | Ok None => lambd (it_state st') = fmul (lambd (it_state st)) 0.25%float
  | Ok (Some _) => lambd (it_state st') = lambd (it_state st)
  | Raise _ => True
  end.
Proof.
  intros Halg.
  destruct (f_total st) as (fv & st1 & Hf).
  assert (_f (cache st1) = Some fv) as Hhit.
  { unfold f in Hf. eapply cached_holds; [| exact Hf]. done. }
  destruct (f_cache_only _ _ _ Hf) as [c1 E1].
  unfold iterate_cycle. rewrite bind_unfold, Hf. run. subst st1.
  destruct (_ && _); [by intros [= <- <-] |]. cbv beta iota.
  destruct (flt _ _); [by intros [= <- <-] |].
  set (st2 := set_f_prev _ _).
  change (algorithm st2) with (algorithm st). rewrite Halg.
  destruct (_update_step_ _ st2) as [[v_1|e] st3] eqn:Hstep; [| by intros [= <- <-]].
  apply (lm_step_after_f_prev st2 fv) in Hstep as [Hc3 Hi3]; [| exact Hhit | reflexivity].
  destruct (update_curves order v_1 st3) as [[[]|e] st4] eqn:Hupd; [| by intros [= <- <-]].
  apply update_curves_iter_kept in Hupd as [Hc4 Hi4].
  unfold _update_fx, _reset_properties_, modify. intros [= <- <-].
  replace (it_state _) with (it_state st4) by (by destruct (fx st4)).
  by rewrite Hi4, Hi3.
Qed.

Lemma iterate_loop_lambd order left : forall i st res st',
  algorithm st = "levenberg_marquardt" ->
  f_prev (it_state st) = default 1e10%float (last (f_list (it_state st))) ->
  iterate_loop order left i st = (res, st') ->
  match res with
  | Ok (ConvTolReached j) | Ok (FuncTolReached j) =>
      lambd (it_state st')
      = Nat.iter (j - i) (fun l => fmul l 0.25%float) (lambd (it_state st))
  | Ok MaxIterBreached =>
      lambd (it_state st')
      = Nat.iter left (fun l => fmul l 0.25%float) (lambd (it_state st))
  | Raise _ => True
  end.
Proof.
  induction left as [|left IH]; intros i st res st' Halg Hinv; simpl.
  - rewrite bind_unfold. destruct (f_total st) as (fv & st1 & Hf). rewrite Hf.
    destruct (f_cache_only _ _ _ Hf) as [c ->]. by intros [= <- <-].
  - rewrite bind_unfold.
    destruct (iterate_cycle order i st) as [[[o|]|e] st1] eqn:Hc.
    + pose proof (iterate_cycle_lambd _ _ _ _ _ Halg Hc) as Hl. simpl in Hl.
      destruct (iterate_cycle_history _ _ _ _ _ Hc) as (_ & a & _ & Ho).
      intros [= <- <-]. cbv zeta in Ho.
      destruct Ho as [(-> & _) | (-> & _)]; by rewrite Nat.sub_diag.
    + pose proof (iterate_cycle_lambd _ _ _ _ _ Halg Hc) as Hl. simpl in Hl.
      destruct (iterate_cycle_history _ _ _ _ _ Hc) as (Hcfg & a & Hfl & Hfp).
      assert (algorithm st1 = "levenberg_marquardt") as Halg1
        by (unfold algorithm in *; by rewrite Hcfg).
      assert (f_prev (it_state st1) = default 1e10%float (last (f_list (it_state st1))))
        as Hinv1 by (by rewrite Hfl, last_snoc).
      intros H. pose proof H as H'. apply IH in H; [| exact Halg1 | exact Hinv1].
      apply iterate_loop_history in H' as [_ H']; [| exact Hinv1]. cbv zeta in H'.
      rewrite Hl in H.
      destruct res as [[j|j|]|e]; [| | | exact I].
      * destruct H' as [Hj _]. replace (j - i) with (S (j - S i)) by lia.
        rewrite H. symmetry. apply (Nat.iter_succ_r _ (fun l => fmul l 0.25%float)).
      * destruct H' as [Hj _]. replace (j - i) with (S (j - S i)) by lia.
        rewrite H. symmetry. apply (Nat.iter_succ_r _ (fun l => fmul l 0.25%float)).
      * rewrite H. symmetry. apply (Nat.iter_succ_r _ (fun l => fmul l 0.25%float)).
    + by intros [= <- <-].
Qed.

(** X15.  Inside [iterate], [f_prev] is set to the current objective
    before the step is computed, so a Levenberg-Marquardt step never sees a
    worse objective: every pass that steps multiplies [lambd] by 0.25.  A
    run that ends after [j] iterations leaves [lambd] at 1000 quartered [j]
    times, and a run that exhausts [max_iter] at 1000 quartered [max_iter]
    times, whatever the objectives were. *)
Theorem levenberg_marquardt_damping_in_iterate (st : Solver) :
  algorithm st = "levenberg_marquardt" ->
  let quartered k := Nat.iter k (fun l => fmul l 0.25%float) 1000%float in
  match (iterate st).1 with
  | Ok (ConvTolReached j) | Ok (FuncTolReached j) =>
      lambd (it_state (iterate st).2) = quartered j
  | Ok MaxIterBreached => lambd (it_state (iterate st).2) = quartered (max_iter st)
  | Raise _ => True
  end.
Proof.
  intros Halg. cbv zeta. rewrite iterate_unfold.
  destruct (iterate_loop _ _ _ _) as [res st'] eqn:H. simpl.
  apply iterate_loop_lambd in H.
  - rewrite iterate_entry_state in H. simpl in H.
    destruct res as [[j|j|]|e]; try done; by rewrite Nat.sub_0_r in H.
  - unfold algorithm in *. rewrite <- Halg. f_equal.
    unfold iterate_entry. run. unfold _update_fx, _reset_properties_, modify. simpl.
    by destruct (fx st).
  - by rewrite iterate_entry_state.
Qed.

(** X16.  [_update_step_] only proposes: it returns the new variable
    values [v_1] and writes nothing to the curves, the targets, the FX
    object, the order or the configuration, and nothing to the recorded
    history; calculated attributes apart, the only attribute it writes is
    [lambd], and only under Levenberg-Marquardt. *)
Theorem update_step_only_proposes (alg : string) (st : Solver) :
  let st' := (_update_step_ alg st).2 in
  hard_kept st st' /\ curves st' = curves st /\ fx st' = fx st /\
  f_list (it_state st') = f_list (it_state st) /\
  f_prev (it_state st') = f_prev (it_state st) /\
  (alg <> "levenberg_marquardt" -> it_state st' = it_state st).
Proof.
  cbv zeta. destruct (_update_step_ alg st) as [res st'] eqn:H. simpl.
  destruct (update_step_soft_only _ _ _ _ H) as (c & it & E).
  destruct (update_step_history_kept _ _ _ _ H) as (_ & Hl & Hp).
  split; [apply soft_hard_kept; by exists c, it |].
  split; [by rewrite E |]. split; [by rewrite E |].
  split; [exact Hl |]. split; [exact Hp |].
  intros Hne. by apply (update_step_iter_kept _ Hne) in H as [_ ?].
Qed.

(** ** The other two step algorithms *)

(** X17.  For a solver with at least one instrument, a gradient-descent
    step solves nothing: with [g] the gradient of the objective in the
    variables, [y = J^T g] and [alpha = (y . (w * x)) / (y . (w * y))], it
    returns [v - g * alpha.real], entry by entry. *)
Theorem gradient_descent_step (st st1 st2 st3 st4 : Solver) (fv : D) (J0 : Mat)
    (xs v0 : list D) :
  instruments st <> [] ->
  f st = (Ok fv, st1) -> J st1 = (Ok J0, st2) -> x st2 = (Ok xs, st3) ->
  v st3 = (Ok v0, st4) ->
  let g := dgradient fv (variables st) in
  let y := matvec (transpose J0) g in
  let alpha := ddiv (dot_fD y (weighted (weights st) xs))
                    (dconst (dot y (vmul (weights st) y))) in
  _update_step_ "gradient_descent" st =
    (Ok (zip_with (fun vi gi => dsub vi (dconst (fmul gi (dreal alpha)))) v0 g), st4).
Proof.
  intros _ Hf HJ Hx Hv. cbv zeta.
  destruct (f_cache_only _ _ _ Hf) as [c1 E1].
  destruct (J_cache_only _ _ _ HJ) as [c2 E2].
  destruct (x_cache_only _ _ _ Hx) as [c3 E3].
  unfold _update_step_. rewrite decide_True by done.
  bstep Hf. rewrite bind_gets. bstep HJ. rewrite bind_gets. bstep Hx. bstep Hv.
  unfold ret. subst. reflexivity.
Qed.

(** X18.  For a solver with at least one instrument, a
    [gauss_newton_final] step hands [J^T] and [-x] to [dual_solve],
    whatever the shape of [J], the square test of [gauss_newton] not being
    made; when [dual_solve] returns a [delta], the step returns [v + delta]
    in Dual arithmetic, so that the new values carry the derivatives of
    [delta]. *)
Theorem gauss_newton_final_step (st st1 st2 st3 : Solver) (J0 : Mat) (xs v0 : list D)
    (delta : list D) :
  instruments st <> [] ->
  J st = (Ok J0, st1) -> x st1 = (Ok xs, st2) -> v st2 = (Ok v0, st3) ->
  dual_solve (transpose J0) (map dneg xs) = Some delta ->
  _update_step_ "gauss_newton_final" st = (Ok (zip_with dadd v0 delta), st3).
Proof.
  intros _ HJ Hx Hv Hsol. unfold _update_step_.
  rewrite decide_False by done. rewrite decide_False by done.
  rewrite decide_False by done. rewrite decide_True by done.
  bstep HJ. bstep Hx. rewrite Hsol. cbn [of_option].
  rewrite bind_unfold. unfold ret at 1. bstep Hv. reflexivity.
Qed.

(** ** An algorithm name that does not exist

    [Solver(...)] does not check [algorithm]; the name is first looked at by
    the step of the first pass that has to step. *)

(** X19.  A solver under an algorithm name the step does not know, whose
    objective computed afresh meets neither convergence test, raises
    [NotImplementedError] naming the algorithm in the first pass of
    [iterate], with [max_iter] not 0: one objective is recorded in
    [f_list], and the curves and the targets are as they were. *)
Theorem iterate_detects_unknown_algorithm (st : Solver) (fv : D) :
  ~ known_algorithm (algorithm st) ->
  max_iter st <> 0 ->
  (f (iterate_entry st)).1 = Ok fv ->
  flt (dreal fv) 1e10%float && flt (fsub 1e10%float (dreal fv)) (conv_tol st) = false ->
  flt (dreal fv) (func_tol st) = false ->
  exists st',
    iterate st = (Raise (NotImplementedError (msg_algorithm (algorithm st))), st') /\
    curves st' = curves st /\ s st' = s st /\ f_list (it_state st') = [dreal fv].
Proof.
  intros Hk Hmi Hf Hconv Hft. rewrite iterate_unfold.
  destruct (max_iter st) as [|k]; [done |]. simpl. rewrite bind_unfold.
  destruct (f (iterate_entry st)) as [r0 st1] eqn:Hf0. simpl in Hf. subst r0.
  destruct (f_cache_only _ _ _ Hf0) as [c1 ->].
  assert (cfg (iterate_entry st) = cfg st) as Hcfg.
  { unfold iterate_entry. run. unfold _update_fx, _reset_properties_, modify. simpl.
    by destruct (fx st). }
  assert (s (iterate_entry st) = s st) as Hs.
  { unfold iterate_entry. run. unfold _update_fx, _reset_properties_, modify. simpl.
    by destruct (fx st). }
  assert (conv_tol (append_f_list (dreal fv) (set_cache c1 (iterate_entry st)))
          = conv_tol st) as Hct by (unfold conv_tol; f_equal; exact Hcfg).
  assert (func_tol (append_f_list (dreal fv) (set_cache c1 (iterate_entry st)))
          = func_tol st) as Hft' by (unfold func_tol; f_equal; exact Hcfg).
  assert (f_prev (it_state (append_f_list (dreal fv) (set_cache c1 (iterate_entry st))))
          = 1e10%float) as Hfp
    by (change (f_prev (it_state (iterate_entry st)) = 1e10%float);
        by rewrite iterate_entry_state).
  unfold iterate_cycle. rewrite bind_unfold, Hf0. run.
  rewrite Hfp, Hct, Hconv. cbv beta iota. rewrite Hft', Hft. cbv beta iota.
  set (st2 := set_f_prev _ _).
  assert (algorithm st2 = algorithm st) as ->
    by (unfold algorithm; f_equal; exact Hcfg).
  rewrite (update_step_unknown _ st2 Hk).
  eexists. split; [reflexivity |]. subst st2.
  cbn [curves s it_state f_list set_f_prev append_f_list set_iter set_cache].
  rewrite iterate_entry_curves, Hs, iterate_entry_state. repeat split; reflexivity.
Qed.

End Theorems.

(** * The properties on the concrete market *)

Import Toy Runs.

(** C1, counterexample.  Started one hundredth off the solution with
    [func_tol = 1e-6] and [conv_tol = 1e-3], the second pass finds the
    objective at 0, below [func_tol], and the run ends in the converged
    (tolerance) state. *)
Lemma iterate_reports_tolerance_below_func_tol :
  f near1 = (Ok (val d0 (f near1)), (f near1).2) /\
  flt (dreal (val d0 (f near1))) (func_tol near1) = true /\
  (iterate_cycle 1 1 near1).1 = Ok (Some (ConvTolReached 1)) /\
  (Solver_init (near_args 100) "u").2 = Some (ConvTolReached 1) /\
  f_list (it_state (built (near_args 100))) = [0.00040000000000000072%float; 0%float].
Proof. repeat split; vm_compute; reflexivity. Qed.

Lemma iterate_cycle_decision_witness :
  f near1 = (Ok (val d0 (f near1)), (f near1).2) /\
  iterate_cycle 1 1 near1 =
    (Ok (Some (ConvTolReached 1)), append_f_list (dreal (val d0 (f near1))) (f near1).2).
Proof.
  assert (f near1 = (Ok (val d0 (f near1)), (f near1).2)) as H
    by (vm_compute; reflexivity).
  split; [exact H |].
  destruct (iterate_cycle_decision 1 1 _ _ _ H) as [Hconv _].
  apply Hconv. vm_compute; reflexivity.
Defined.

(** C2, counterexample.  With one pre-solver the matrix is
    [[0.5, -0.125], [0, 0.25]]: the coupling block sits above the diagonal
    and the block below it is zero.  With two pre-solvers the diagonal block
    of the second one is left at zero. *)
Lemma grad_s_vT_pre_not_lower_triangular :
  (grad_s_vT_pre sB).1 = Ok (mkMat 2 2 [[0.5; -0.125]; [0; 0.25]]%float) /\
  (grad_s_vT_pre sB2).1 =
    Ok (mkMat 3 3 [[0.5; 0; -0.125]; [0; 0; 0]; [0; 0; 0.25]]%float) /\
  (grad_s_vT_pre pC).1 = Ok (mkMat 1 1 [[0.5%float]]).
Proof. repeat split; vm_compute; reflexivity. Qed.

(** The chain [sB] at the arguments of the single-link theorem. *)
Lemma grad_s_vT_pre_single_link_witness :
  pre_solvers sB = [pA] /\
  exists G st',
    grad_s_vT_pre sB = (Ok G, st') /\ nrows G = 2 /\ ncols G = 2 /\
    mat_get G 1 0 = 0%float.
Proof.
  assert (pre_solvers sB = [pA]) as Hp by (vm_compute; reflexivity).
  split; [exact Hp |].
  pose (Pm := val m0 (grad_s_vT_pre pA)). pose (p1 := (grad_s_vT_pre pA).2).
  pose (rb := r (set_pre_solvers [p1] sB)).
  pose (gc := grad_s_vT rb.2).
  destruct (grad_s_vT_pre_single_link sB pA p1 rb.2 gc.2 Pm (val m0 gc) (val [] rb))
    as (G & st' & HG & Hr & Hc & Hent).
  1-5: vm_compute; reflexivity.
  - vm_compute. split; [reflexivity | repeat constructor].
  - vm_compute; reflexivity.
  - vm_compute; reflexivity.
  - vm_compute; reflexivity.
  - vm_compute; reflexivity.
  - vm_compute; reflexivity.
  - vm_compute; discriminate.
  - vm_compute; reflexivity.
  - vm_compute; reflexivity.
  - exists G, st'. split; [exact HG |]. split; [exact Hr |]. split; [exact Hc |].
    rewrite (Hent 1 0) by (vm_compute; lia). vm_compute; reflexivity.
Defined.

(** C3, counterexample.  On an objective that stays at 9, [lambd] is
    quartered on every pass: 62.5 after two passes and 15.625 after three,
    where doubling on the passes without improvement would give 500 and
    1000.  The same at the level of one step: with [f_prev] equal to the
    objective, the step takes [lambd] from 250 to 62.5. *)
Lemma levenberg_marquardt_quarters_on_equal :
  f_list (it_state (stagnant 3)) = [9; 9; 9]%float /\
  lambd (it_state (stagnant 2)) = 62.5%float /\
  lambd (it_state (stagnant 3)) = 15.625%float /\
  f_prev (it_state (stagnant 1)) = 9%float /\
  lambd (it_state (stagnant 1)) = 250%float /\
  dreal (val d0 (f (stagnant 1))) = 9%float /\
  lambd (it_state (_update_step_ "levenberg_marquardt" (stagnant 1)).2) = 62.5%float.
Proof. repeat split; vm_compute; reflexivity. Qed.

Lemma levenberg_marquardt_step_witness :
  f (stagnant 1) = (Ok (val d0 (f (stagnant 1))), (f (stagnant 1)).2) /\
  lambd (it_state (iterate_entry (stagnant 1))) = 1000%float /\
  map dreal (val [] (_update_step_ "levenberg_marquardt" (stagnant 1))) = [0.5%float].
Proof.
  pose (st := stagnant 1). pose (fr := f st).
  pose (lam := fmul (lambd (it_state st)) 0.25).
  pose (jr := J (set_lambd lam fr.2)). pose (vr := v jr.2).
  assert (instruments st <> []) as Hne by (vm_compute; discriminate).
  assert (f st = (Ok (val d0 fr), fr.2)) as Hf by (vm_compute; reflexivity).
  split; [exact Hf |].
  destruct (levenberg_marquardt_step st fr.2 jr.2 vr.2 (val d0 fr) (val m0 jr) (val [] vr)
              Hne Hf)
    as (H0 & _ & Hstep).
  - vm_compute; reflexivity.
  - vm_compute; reflexivity.
  - split; [exact H0 |]. fold st. rewrite Hstep. vm_compute; reflexivity.
Defined.

Lemma gauss_newton_step_witness :
  J (fresh "gauss_newton")
    = (Ok (val m0 (J (fresh "gauss_newton"))), (J (fresh "gauss_newton")).2) /\
  map dreal (val [] (_update_step_ "gauss_newton" (fresh "gauss_newton"))) = [1.5%float].
Proof.
  pose (st := fresh "gauss_newton"). pose (jr := J st).
  pose (xr := x jr.2). pose (vr := v xr.2).
  assert (instruments st <> []) as Hne by (vm_compute; discriminate).
  assert (J st = (Ok (val m0 jr), jr.2)) as HJ by (vm_compute; reflexivity).
  split; [exact HJ |].
  destruct (gauss_newton_step st jr.2 (val m0 jr) Hne HJ) as (Hsq & _ & _).
  fold st.
  rewrite (Hsq eq_refl (val [] xr) xr.2 (val [] vr) vr.2)
    by (vm_compute; reflexivity).
  vm_compute; reflexivity.
Defined.


(** C6, counterexample.  A solver switched to order 2, asked for [J2], and
    switched back to order 1 returns the stored tensor on the next request
    for [J2].  And at order 2 [gamma] does not always succeed: on a chain
    whose second pre-solver has two instruments, the block of that
    pre-solver does not fit the slice it is assigned to and [gamma] raises
    the broadcasting [ValueError]; on a solver whose instrument does not
    depend on its curve, [gamma] returns under the analytical strategy and
    raises [LinAlgError] under the fixed-point strategy. *)
Lemma J2_returns_cached_at_order_1 :
  _ad (_set_ad_order 1 (J2 (_set_ad_order 2 pA)).2) = 1%Z /\
  (J2 (_set_ad_order 1 (J2 (_set_ad_order 2 pA)).2)).1 = Ok (mkTen3 1 1 1 [[[0%float]]]) /\
  map solver_id (pre_solvers sD) = ["A"; "D"] /\ (pre_m pA, pre_m pD, pre_m sD) = (1, 2, 4) /\
  instruments sD <> [] /\ _ad (_set_ad_order 2 sD) = 2%Z /\
  (gamma npv_usd None None (_set_ad_order 2 sD)).1 = Raise (ValueError msg_broadcast) /\
  instruments (stagnant 1) <> [] /\ pre_solvers (stagnant 1) = [] /\
  (exists df, (gamma npv_usd None None (_set_ad_order 2 (stagnant 1))).1 = Ok df) /\
  (gamma npv_usd None None
     (with_method "_grad_s_vT_fixed_point_iteration" (_set_ad_order 2 (stagnant 1)))).1
    = Raise LinAlgError.
Proof.
  repeat split; try (vm_compute; reflexivity); try (vm_compute; discriminate).
  eexists. vm_compute. reflexivity.
Qed.

Lemma second_order_needs_order_2_witness :
  _ad pA = 1%Z /\
  gamma npv_usd None None pA = (Raise (ValueError msg_gamma_order), pA) /\
  J2 pA = (Raise (ValueError msg_ad_mode), pA) /\
  exists df st', gamma npv_usd None None (_set_ad_order 2 pA) = (Ok df, st').
Proof.
  assert (_ad pA = 1%Z) as Had by (vm_compute; reflexivity).
  split; [exact Had |].
  destruct (second_order_needs_order_2 pA npv_usd None None Had)
    as (Hg & Hmiss & _ & _ & _ & Hok).
  split; [exact Hg |]. split.
  - apply Hmiss. vm_compute; reflexivity.
  - apply Hok; try (vm_compute; reflexivity). vm_compute; discriminate.
Defined.

(** C7, counterexample.  A tuple whose keyword arguments name another
    solver keeps that entry. *)
Lemma parse_instrument_caller_overrides :
  _parse_instrument "S" None (Tup [ItInst (inst1 "c" 2); ItNone; ItKw other_kw])
    = Ok (inst1 "c" 2, [], other_kw ∪ default_kwargs "S" None) /\
  (other_kw ∪ default_kwargs "S" None) !! "solver" = Some (KwSolver "other") /\
  (other_kw ∪ default_kwargs "S" None) !! "solver" <> Some (KwSolver "S").
Proof.
  split; [vm_compute; reflexivity |]. split; [vm_compute; reflexivity |].
  vm_compute. discriminate.
Qed.

Lemma parse_instrument_kwargs_witness :
  _parse_instrument "S" None (Bare (inst1 "c" 2))
    = Ok (inst1 "c" 2, [], default_kwargs "S" None) /\
  default_kwargs "S" None !! "solver" = Some (KwSolver "S") /\
  default_kwargs "S" None !! "fx" = Some KwNone.
Proof.
  assert (_parse_instrument "S" None (Bare (inst1 "c" 2))
          = Ok (inst1 "c" 2, [], default_kwargs "S" None)) as H by (vm_compute; reflexivity).
  split; [exact H |]. exact (parse_instrument_kwargs _ _ _ _ _ _ H).
Defined.

Lemma iterate_max_iter_breached_witness :
  run_cycles (dual_type lm2) (max_iter lm2) 0 (iterate_entry lm2)
    = Some (default blank (run_cycles 1 2 0 (iterate_entry lm2))) /\
  exists st_fin,
    iterate lm2 = (Ok MaxIterBreached, st_fin) /\
    curves st_fin = curves (default blank (run_cycles 1 2 0 (iterate_entry lm2))).
Proof.
  assert (run_cycles (dual_type lm2) (max_iter lm2) 0 (iterate_entry lm2)
          = Some (default blank (run_cycles 1 2 0 (iterate_entry lm2)))) as H
    by (vm_compute; reflexivity).
  split; [exact H |].
  destruct (iterate_max_iter_breached _ _ H) as (st_fin & Hit & Hc & _).
  exists st_fin. split; [exact Hit | exact Hc].
Defined.

Lemma gamma_ignores_base_and_fx_witness :
  _ad (_set_ad_order 2 pA) = 2%Z /\
  gamma npv_usd (Some "eur") None (_set_ad_order 2 pA)
    = gamma npv_usd None None (_set_ad_order 2 pA) /\
  (gamma npv_usd (Some "eur") None (_set_ad_order 2 pA)).1
    = Ok (mkGammaFrame [("usd", "instruments", "A", "A0")]
                       [("usd", "instruments", "A", "A0")]
                       [("usd", "usd", mkMat 1 1 [[5.0000000000000002e-05%float]])]).
Proof.
  assert (_ad (_set_ad_order 2 pA) = 2%Z) as Had by (vm_compute; reflexivity).
  split; [exact Had |].
  destruct (gamma_ignores_base_and_fx (_set_ad_order 2 pA) npv_usd (Some "eur") None Had)
    as (_ & Heq & _).
  split; [exact Heq |]. vm_compute; reflexivity.
Defined.


Lemma iterate_on_calibrated_solver_witness :
  max_iter pA <> 0 /\
  flt (dreal (val d0 (f (iterate_entry pA)))) (func_tol pA) = true /\
  exists o st', iterate pA = (Ok o, st') /\ curves st' = curves pA.
Proof.
  assert (max_iter pA <> 0) as H1 by (vm_compute; discriminate).
  assert ((f (iterate_entry pA)).1 = Ok (val d0 (f (iterate_entry pA)))) as H2
    by (vm_compute; reflexivity).
  assert (flt (dreal (val d0 (f (iterate_entry pA)))) (func_tol pA) = true) as H3
    by (vm_compute; reflexivity).
  split; [exact H1 |]. split; [exact H3 |].
  destruct (iterate_on_calibrated_solver pA _ H1 H2 H3) as (o & st' & Hit & _ & Hc & _).
  exists o, st'. by split.
Defined.

Lemma Solver_init_postconditions_witness :
  Solver_init (chain_args [pA]) "u" = (Ok sB, (Solver_init (chain_args [pA]) "u").2) /\
  m sB = 1 /\ pre_m sB = 2 /\ pre_n sB = 2 /\ pre_variables sB = ["a1"; "b1"].
Proof.
  assert (Solver_init (chain_args [pA]) "u"
          = (Ok sB, (Solver_init (chain_args [pA]) "u").2)) as H
    by (vm_compute; reflexivity).
  split; [exact H |].
  destruct (Solver_init_postconditions _ _ _ _ H)
    as (_ & _ & Hps & _ & _ & Hm & _ & _ & _ & _ & _ & Hpm & Hpn & Hpv & _).
  split; [exact Hm |]. rewrite Hpm, Hpn, Hpv, Hps, Hm.
  repeat split; vm_compute; reflexivity.
Defined.

Lemma chain_attribute_shapes_witness :
  pre_solvers sB <> [] /\
  exists G st', grad_s_vT_pre sB = (Ok G, st') /\ nrows G = 2 /\ ncols G = 2.
Proof.
  assert (pre_solvers sB <> []) as Hp by (vm_compute; discriminate).
  split; [exact Hp |].
  destruct (chain_attribute_shapes sB Hp) as [Hg _].
  exists (val m0 (grad_s_vT_pre sB)), (grad_s_vT_pre sB).2.
  assert (grad_s_vT_pre sB = (Ok (val m0 (grad_s_vT_pre sB)), (grad_s_vT_pre sB).2)) as H
    by (vm_compute; reflexivity).
  split; [exact H |].
  destruct (Hg _ _ ltac:(vm_compute; reflexivity) H) as [Hr Hc].
  rewrite Hr, Hc. split; vm_compute; reflexivity.
Defined.

Lemma jacobian_shape_witness :
  instruments pA <> [] /\
  nrows (val m0 (J (set_cache empty_cache pA))) = 1 /\
  ncols (val m0 (J (set_cache empty_cache pA))) = 1.
Proof.
  assert (instruments pA <> []) as Hne by (vm_compute; discriminate).
  split; [exact Hne |].
  assert (J (set_cache empty_cache pA)
          = (Ok (val m0 (J (set_cache empty_cache pA))), (J (set_cache empty_cache pA)).2))
    as H by (vm_compute; reflexivity).
  destruct (jacobian_shape _ _ _ Hne H) as (Hr & Hc & _).
  rewrite Hr, Hc. split; vm_compute; reflexivity.
Defined.

Lemma levenberg_marquardt_damping_in_iterate_witness :
  algorithm (stagnant 3) = "levenberg_marquardt" /\
  (iterate (stagnant 3)).1 = Ok MaxIterBreached /\
  lambd (it_state (iterate (stagnant 3)).2) = 15.625%float.
Proof.
  assert (algorithm (stagnant 3) = "levenberg_marquardt") as Ha by (vm_compute; reflexivity).
  assert ((iterate (stagnant 3)).1 = Ok MaxIterBreached) as Ho by (vm_compute; reflexivity).
  split; [exact Ha |]. split; [exact Ho |].
  pose proof (levenberg_marquardt_damping_in_iterate (stagnant 3) Ha) as H.
  cbv zeta in H. rewrite Ho in H. rewrite H. vm_compute; reflexivity.
Defined.

Lemma gradient_descent_step_witness :
  f (fresh "gradient_descent")
    = (Ok (val d0 (f (fresh "gradient_descent"))), (f (fresh "gradient_descent")).2) /\
  map dreal (val [] (_update_step_ "gradient_descent" (fresh "gradient_descent")))
    = [1.5%float].
Proof.
  pose (st := fresh "gradient_descent"). pose (fr := f st). pose (jr := J fr.2).
  pose (xr := x jr.2). pose (vr := v xr.2).
  assert (instruments st <> []) as Hne by (vm_compute; discriminate).
  assert (f st = (Ok (val d0 fr), fr.2)) as Hf by (vm_compute; reflexivity).
  split; [exact Hf |]. fold st.
  rewrite (gradient_descent_step st fr.2 jr.2 xr.2 vr.2 (val d0 fr) (val m0 jr)
             (val [] xr) (val [] vr) Hne Hf)
    by (vm_compute; reflexivity).
  vm_compute; reflexivity.
Defined.

Lemma gauss_newton_final_step_witness :
  J (fresh "gauss_newton_final")
    = (Ok (val m0 (J (fresh "gauss_newton_final"))), (J (fresh "gauss_newton_final")).2) /\
  map dreal (val [] (_update_step_ "gauss_newton_final" (fresh "gauss_newton_final")))
    = [1.5%float].
Proof.
  pose (st := fresh "gauss_newton_final"). pose (jr := J st).
  pose (xr := x jr.2). pose (vr := v xr.2).
  assert (instruments st <> []) as Hne by (vm_compute; discriminate).
  assert (J st = (Ok (val m0 jr), jr.2)) as HJ by (vm_compute; reflexivity).
  split; [exact HJ |]. fold st.
  rewrite (gauss_newton_final_step st jr.2 xr.2 vr.2 (val m0 jr) (val [] xr) (val [] vr)
             (default [] (dual_solve (transpose (val m0 jr)) (map dneg (val [] xr)))) Hne HJ)
    by (vm_compute; reflexivity).
  vm_compute; reflexivity.
Defined.

Lemma iterate_detects_unknown_algorithm_witness :
  algorithm misspelt = "nonsense" /\ max_iter misspelt <> 0 /\
  exists st',
    iterate misspelt = (Raise (NotImplementedError (msg_algorithm "nonsense")), st') /\
    f_list (it_state st') = [1%float].
Proof.
  assert (algorithm misspelt = "nonsense") as Ha by (vm_compute; reflexivity).
  assert (max_iter misspelt <> 0) as Hmi by (vm_compute; discriminate).
  split; [exact Ha |]. split; [exact Hmi |].
  destruct (iterate_detects_unknown_algorithm misspelt
              (val d0 (f (iterate_entry misspelt))))
    as (st' & Hit & _ & _ & Hfl).
  - rewrite Ha. unfold known_algorithm. by intros [? | [? | [? | ?]]].
  - exact Hmi.
  - vm_compute; reflexivity.
  - vm_compute; reflexivity.
  - vm_compute; reflexivity.
  - exists st'. rewrite <- Ha. split; [exact Hit |]. rewrite Hfl. vm_compute; reflexivity.
Defined.
